(** * Blob transaction data: codecs and wrap-data checks

    A shallow embedding of [core/types/data_blob.go]: the KZG commitment
    and blob containers, their SSZ and text codecs, their Merkle roots, and
    the consistency check of a blob transaction's wrap data.

    Conventions.
    - A Go byte is a [byte]; a [[n]byte] array and a [[]byte] slice are
      both [list byte], the array's length being a well-formedness
      predicate ([wf_KZGCommitment], [wf_BLSFieldElement], [wf_Hash]);
      the names of the Go types are notations for these list types.
    - [uint64] arithmetic is done in [Z] and wrapped with [u64].
    - A pointer receiver is an [option]: [None] is Go's [nil].
    - A function that mutates its receiver or a reader/writer returns the
      new values next to its Go result (explicit state passing).
    - [error] results are [option error]: [None] is Go's [nil] error.
    - A [float64] that was converted from an unsigned integer is the
      integer it holds, in [Z]; the conversion rounds
      ([float64_of_uint64]). *)

From Stdlib Require Import ZArith Lia List.
From Stdlib Require Import Strings.Byte.
From Stdlib Require Floats.SpecFloat.
From stdpp Require Import base list.
Import ListNotations.
Open Scope Z_scope.

(** ** Bytes and machine integers *)

Definition byte_to_Z (b : byte) : Z := Z.of_N (Byte.to_N b).

(** Conversion to [uint8], wrapping modulo 256. *)
Definition byte_of_Z (z : Z) : byte :=
  match Byte.of_N (Z.to_N (z mod 256)) with
  | Some b => b
  | None => x00
  end.

Definition u64 (z : Z) : Z := z mod 2 ^ 64.

(** Go's conversion [float64(x)] of a [uint64]: the value of the nearest
    number with a significand of 53 bits, a tie going to the even
    significand. Up to [2^53] every integer is such a number. Above, [x]
    has [53 + e] bits: the low [e] bits [r] are rounded away from the
    significand [q]. *)
Definition float64_of_uint64 (x : Z) : Z :=
  if x <? 2 ^ 53 then x
  else
    let e := Z.log2 x - 52 in
    let q := x / 2 ^ e in
    let r := x mod 2 ^ e in
    let half := 2 ^ (e - 1) in
    let q' := if (half <? r) || ((r =? half) && Z.odd q) then q + 1 else q in
    q' * 2 ^ e.

(** The integer that a finite, non-negative binary float of the Standard
    Library's IEEE 754 specification holds, if it holds one. *)
Definition SpecFloat_to_Z (f : SpecFloat.spec_float) : option Z :=
  match f with
  | SpecFloat.S754_zero _ => Some 0
  | SpecFloat.S754_finite false m e =>
      if 0 <=? e then Some (Z.pos m * 2 ^ e)
      else if Z.pos m mod 2 ^ (- e) =? 0 then Some (Z.pos m / 2 ^ (- e))
      else None
  | _ => None
  end.

(** The same conversion by the Standard Library's IEEE 754 specification
    of binary64 (precision 53, maximal exponent 1024), against which
    [float64_of_uint64] is checked at sample points. *)
Definition ieee_float64_of_uint64 (x : Z) : option Z :=
  SpecFloat_to_Z (SpecFloat.binary_normalize 53 1024 x 0 false).

Definition len {A} (l : list A) : Z := Z.of_nat (length l).

(** Go's builtin [copy(dst, src)]: overwrites the first
    [min(len(dst), len(src))] elements of [dst]. *)
Definition go_copy {A} (dst src : list A) : list A :=
  let n := Nat.min (length dst) (length src) in
  take n src ++ drop n dst.

(** Go's slice expression [s[lo:hi]]. *)
Definition slice {A} (s : list A) (lo hi : nat) : list A :=
  take (hi - lo) (drop lo s).

(** ** Errors

    One constructor per error value the file builds, carrying the data its
    message is formatted from, plus the errors of the libraries. *)

Inductive error : Type :=
| ErrNilPubkey                                  (* "nil pubkey" *)
| ErrNilKZGCommitment                           (* "cannot decode into nil KZGCommitment" *)
| ErrUnexpectedLengthString (text : list byte)  (* "unexpected length string '%s'" *)
| ErrInternalErrorCommitments                   (* "internal error commitments" *)
| ErrExpectedSignedBlobTx                       (* "expected signed blob tx, got %T" *)
| ErrTooManyBlobs (a b : Z)                     (* "too many blobs in blob tx, got %d, ..." *)
| ErrKzgsBlobs (a b : Z)                        (* "... got %d kzgs and %d blobs" *)
| ErrKzgsVersionedHashes (a b : Z)              (* "... got %d kzgs and %d versioned hashes" *)
| ErrVersionedHash (i : Z) (h computed : list byte)
                                                (* "versioned hash %d supposedly %s but ..." *)
| ErrInternalCommitment                         (* "internal commitment error" *)
| ErrInternalBlobs                              (* "internal blobs error" *)
| ErrHexInvalidByte (c : byte)                  (* hex.InvalidByteError *)
| ErrHexLength                                  (* hex.ErrLength *)
| ErrBeyondScope (want over : Z)                (* codec: read past the scope *)
| ErrUnexpectedEOF                              (* codec: the stream ended early *)
| ErrScopeAlign (scope elemSize : Z)            (* codec: scope not a multiple of the element size *)
| ErrTooManyItems (limit got : Z)               (* codec: list longer than its limit *)
| ErrOffset (got want : Z)                      (* codec: malformed container offsets *)
| ErrExternal (code : Z).                       (* an error of the KZG library *)

(** ** Package [encoding/hex] of the Go standard library *)

Module hex.

Definition hextable : list byte :=
  ["0"; "1"; "2"; "3"; "4"; "5"; "6"; "7";
   "8"; "9"; "a"; "b"; "c"; "d"; "e"; "f"]%byte.

Definition hexchar (i : Z) : byte := nth (Z.to_nat i) hextable x00.

(** [Encode]: [dst[j] = hextable[v>>4]; dst[j+1] = hextable[v&0x0f]]. *)
Fixpoint EncodeToString (src : list byte) : list byte :=
  match src with
  | [] => []
  | v :: rest =>
      hexchar (Z.shiftr (byte_to_Z v) 4)
        :: hexchar (Z.land (byte_to_Z v) 15)
        :: EncodeToString rest
  end.

Definition between (lo c hi : byte) : bool :=
  (byte_to_Z lo <=? byte_to_Z c) && (byte_to_Z c <=? byte_to_Z hi).

(** [fromHexChar]: the value of a hex digit of either case. *)
Definition fromHexChar (c : byte) : option byte :=
  if between "0" c "9" then Some (byte_of_Z (byte_to_Z c - byte_to_Z "0"))
  else if between "a" c "f" then Some (byte_of_Z (byte_to_Z c - byte_to_Z "a" + 10))
  else if between "A" c "F" then Some (byte_of_Z (byte_to_Z c - byte_to_Z "A" + 10))
  else None.

(** [Decode(dst, src)]: the loop over the pairs of [src], writing
    [dst[i]]; a trailing odd character is reported after a check that it is
    a digit. Returns the count, the error and the updated [dst]: the bytes
    decoded before an error stay written. [dst[i]] is in range whenever
    [dst] has [len(src)/2] bytes, which holds at the one call site. *)
Fixpoint Decode_loop (dst : list byte) (i : nat) (src : list byte)
  : nat * option error * list byte :=
  match src with
  | [] => (i, None, dst)
  | [p] =>
      match fromHexChar p with
      | None => (i, Some (ErrHexInvalidByte p), dst)
      | Some _ => (i, Some ErrHexLength, dst)
      end
  | p :: q :: rest =>
      match fromHexChar p with
      | None => (i, Some (ErrHexInvalidByte p), dst)
      | Some a =>
          match fromHexChar q with
          | None => (i, Some (ErrHexInvalidByte q), dst)
          | Some b =>
              let v := byte_of_Z (Z.lor (Z.shiftl (byte_to_Z a) 4) (byte_to_Z b)) in
              Decode_loop (<[i := v]> dst) (S i) rest
          end
      end
  end.

Definition Decode (dst src : list byte) : nat * option error * list byte :=
  Decode_loop dst 0%nat src.

End hex.

(** ** KZGCommitment: text codec *)

Definition BLOB_COMMITMENT_VERSION_KZG : byte := x01.
Definition MAX_TX_WRAP_KZG_COMMITMENTS : Z := 2 ^ 24.
Definition LIMIT_BLOBS_PER_TX : Z := 2 ^ 24.

(** [type KZGCommitment [48]byte] *)
Abbreviation KZGCommitment := (list byte) (only parsing).
Definition wf_KZGCommitment (p : KZGCommitment) : Prop := length p = 48%nat.
Definition KZGCommitment_zero : KZGCommitment := repeat x00 48.

Definition KZGCommitment_MarshalText (p : KZGCommitment) : list byte * option error :=
  (["0"; "x"]%byte ++ hex.EncodeToString p, None).

Definition KZGCommitment_String (p : KZGCommitment) : list byte :=
  ["0"; "x"]%byte ++ hex.EncodeToString p.

Definition byte_eqb (a b : byte) : bool := Byte.eqb a b.

Definition has_0x_prefix (text : list byte) : bool :=
  (2 <=? len text)
  && match text with
     | c0 :: c1 :: _ => byte_eqb c0 "0" && (byte_eqb c1 "x" || byte_eqb c1 "X")
     | _ => false
     end.

(** [UnmarshalText]: returns the error and the receiver after the call. *)
Definition KZGCommitment_UnmarshalText (p : option KZGCommitment) (text : list byte)
  : option error * option KZGCommitment :=
  match p with
  | None => (Some ErrNilKZGCommitment, None)
  | Some pv =>
      let text := if has_0x_prefix text then drop 2 text else text in
      if negb (len text =? 96) then (Some (ErrUnexpectedLengthString text), Some pv)
      else
        let '(_, err, pv') := hex.Decode pv text in
        (err, Some pv')
  end.

(** ** Package [codec] of ztyp: the SSZ reader and writer

    The reader and writer belong to a library, not to this package. They
    are modelled as far as the calls of this file reach into them: reads
    and writes of byte strings, lists of elements of a fixed size, and
    containers of fields. *)

Module codec.

(** Modelled from the spec: [codec.DecodingReader] is not part of this
    package. A reader is an input stream with an index [i] and a scope end
    [max]; section 4.1 has a read fail when fewer bytes remain than the
    read requires. *)
Record DecodingReader : Type := mkReader {
  input : list byte;
  idx : Z;
  max : Z
}.

(** Modelled from the spec: a reader over [inp] that may read [scope]
    bytes. *)
Definition NewDecodingReader (inp : list byte) (scope : Z) : DecodingReader :=
  mkReader inp 0 scope.

(** Modelled from the spec: the bytes left in the scope. *)
Definition Scope (dr : DecodingReader) : Z := u64 (max dr - idx dr).

(** Modelled from the spec: [DecodingReader.Read(p)] fills [p] from the
    stream. Nothing is consumed when the read would pass the scope end;
    a stream that ends early delivers what it has and reports the
    truncation. Returns the count, the error, [p] after the call and the
    reader after the call. *)
Definition Read (dr : DecodingReader) (p : list byte)
  : Z * option error * list byte * DecodingReader :=
  if len p =? 0 then (0, None, p, dr)
  else
    let v := u64 (idx dr + len p) in
    if (max dr <? v) || (v <? idx dr) then
      (idx dr, Some (ErrBeyondScope (len p) (u64 (v - max dr))), p, dr)
    else
      let got := take (length p) (input dr) in
      let dr' := mkReader (drop (length p) (input dr)) (u64 (idx dr + len got)) (max dr) in
      (len got,
       if len got <? len p then Some ErrUnexpectedEOF else None,
       go_copy p got,
       dr').

(** Modelled from the spec: the loop of [DecodingReader.List], [length]
    times [add().Deserialize(dr)], stopping at the first error (section 5:
    decoding returns the first error encountered). [S] is the state the
    closure [add] closes over. *)
Fixpoint List_loop {S : Type}
    (add_Deserialize : S -> DecodingReader -> option error * S * DecodingReader)
    (length : nat) (s : S) (dr : DecodingReader)
  : option error * S * DecodingReader :=
  match length with
  | O => (None, s, dr)
  | Datatypes.S n =>
      let '(err, s', dr') := add_Deserialize s dr in
      match err with
      | Some e => (Some e, s', dr')
      | None => List_loop add_Deserialize n s' dr'
      end
  end.

(** Modelled from the spec: [DecodingReader.List(add, elemSize, limit)] for
    elements of a fixed size [elemSize <> 0], the case of both lists of this
    file: the element count is the scope divided by the element size, it
    is checked against [limit] before any element is read (section 4.4),
    and each element is decoded into what [add()] returns. *)
Definition List {S : Type}
    (add_Deserialize : S -> DecodingReader -> option error * S * DecodingReader)
    (elemSize limit : Z) (s : S) (dr : DecodingReader)
  : option error * S * DecodingReader :=
  let scope := Scope dr in
  if negb (scope mod elemSize =? 0) then (Some (ErrScopeAlign scope elemSize), s, dr)
  else
    let length := scope / elemSize in
    if limit <? length then (Some (ErrTooManyItems limit length), s, dr)
    else List_loop add_Deserialize (Z.to_nat length) s dr.

(** Modelled from the spec: [codec.EncodingWriter] is not part of this
    package. A writer is the byte string written so far. *)
Definition EncodingWriter : Type := list byte.

(** Modelled from the spec: [EncodingWriter.Write(p)] writes the bytes of
    [p] verbatim. *)
Definition Write (w : EncodingWriter) (p : list byte) : option error * EncodingWriter :=
  (None, w ++ p).

(** Modelled from the spec: the loop of [EncodingWriter.List], writing
    [item(i)], [item(i+1)], ... and stopping at the first error. *)
Fixpoint List_write_loop
    (item_Serialize : Z -> EncodingWriter -> option error * EncodingWriter)
    (i : Z) (n : nat) (w : EncodingWriter) : option error * EncodingWriter :=
  match n with
  | O => (None, w)
  | Datatypes.S n' =>
      let '(err, w') := item_Serialize i w in
      match err with
      | Some e => (Some e, w')
      | None => List_write_loop item_Serialize (i + 1) n' w'
      end
  end.

(** Modelled from the spec: [EncodingWriter.List(item, fixedLen, length)]
    for [fixedLen <> 0]: the elements [item(0)], ..., [item(length-1)] are
    written one after the other (section 4.4: in order). *)
Definition WriteList
    (item_Serialize : Z -> EncodingWriter -> option error * EncodingWriter)
    (fixedLen length : Z) (w : EncodingWriter) : option error * EncodingWriter :=
  List_write_loop item_Serialize 0 (Z.to_nat length) w.

(** Modelled from the spec: offsets of the wire format are 4 bytes each
    (section 4.6 counts 8 bytes for the two lists of a wrapper), written
    as a little-endian [uint32]. *)
Definition PutUint32 (v : Z) : list byte :=
  [byte_of_Z v; byte_of_Z (Z.shiftr v 8); byte_of_Z (Z.shiftr v 16); byte_of_Z (Z.shiftr v 24)].

(** Modelled from the spec: the little-endian [uint32] of four bytes. *)
Definition Uint32 (b : list byte) : Z :=
  match b with
  | [b0; b1; b2; b3] =>
      Z.lor (byte_to_Z b0)
        (Z.lor (Z.shiftl (byte_to_Z b1) 8)
           (Z.lor (Z.shiftl (byte_to_Z b2) 16) (Z.shiftl (byte_to_Z b3) 24)))
  | _ => 0
  end.

(** Modelled from the spec: an offset is written as the four bytes
    above. *)
Definition WriteOffset (w : EncodingWriter) (offset : Z) : option error * EncodingWriter :=
  Write w (PutUint32 offset).

(** Modelled from the spec: the next four bytes, read as an offset. *)
Definition ReadOffset (dr : DecodingReader) : Z * option error * DecodingReader :=
  let '(_, err, scratch, dr') := Read dr [x00; x00; x00; x00] in
  (Uint32 scratch, err, dr').

(** Modelled from the spec: a reader for the next [count] bytes of the
    same stream. *)
Definition SubScope (dr : DecodingReader) (count : Z) : DecodingReader :=
  mkReader (input dr) 0 count.

(** Modelled from the spec: the parent reader after the child [scoped]
    has read from the shared stream. *)
Definition UpdateIndexFromScoped (dr scoped : DecodingReader) : DecodingReader :=
  mkReader (input scoped) (u64 (idx dr + idx scoped)) (max dr).

(** Modelled from the spec: a field of a container, as the container's
    codec sees it: the methods of the field's type, acting on the struct
    [S] that holds the field. *)
Record Field (S : Type) : Type := mkField {
  FixedLength : Z;
  ByteLength : S -> Z;
  Serialize : S -> EncodingWriter -> option error * EncodingWriter;
  Deserialize : S -> DecodingReader -> option error * S * DecodingReader
}.
Arguments mkField {S} _ _ _ _.
Arguments FixedLength {S} _.
Arguments ByteLength {S} _ _.
Arguments Serialize {S} _ _ _.
Arguments Deserialize {S} _ _ _.

(** Modelled from the spec: the length of the fixed part, 4 bytes of
    offset for a field of variable size ([FixedLength] is 0), the field's
    own length otherwise. *)
Fixpoint fixed_part_length {S} (fields : list (Field S)) : Z :=
  match fields with
  | [] => 0
  | f :: rest =>
      (if FixedLength f =? 0 then 4 else FixedLength f) + fixed_part_length rest
  end.

(** Modelled from the spec: the fixed part of a container. A field of
    fixed size is written in place; a field of variable size leaves its
    offset, and the next offset is further by its [ByteLength]. *)
Fixpoint WriteContainer_fixed {S} (fields : list (Field S)) (s : S) (offset : Z)
    (w : EncodingWriter) : option error * EncodingWriter :=
  match fields with
  | [] => (None, w)
  | f :: rest =>
      if FixedLength f =? 0 then
        let '(err, w') := WriteOffset w offset in
        match err with
        | Some e => (Some e, w')
        | None => WriteContainer_fixed rest s (u64 (offset + ByteLength f s)) w'
        end
      else
        let '(err, w') := Serialize f s w in
        match err with
        | Some e => (Some e, w')
        | None => WriteContainer_fixed rest s offset w'
        end
  end.

(** Modelled from the spec: the fields of variable size, in order. *)
Fixpoint WriteContainer_variable {S} (fields : list (Field S)) (s : S)
    (w : EncodingWriter) : option error * EncodingWriter :=
  match fields with
  | [] => (None, w)
  | f :: rest =>
      if FixedLength f =? 0 then
        let '(err, w') := Serialize f s w in
        match err with
        | Some e => (Some e, w')
        | None => WriteContainer_variable rest s w'
        end
      else WriteContainer_variable rest s w
  end.

(** Modelled from the spec: [EncodingWriter.Container(fields...)]. The
    fixed part comes first, holding an offset in place of each field of
    variable size; the fields of variable size follow in order, each
    starting at its offset. *)
Definition WriteContainer {S} (fields : list (Field S)) (s : S) (w : EncodingWriter)
  : option error * EncodingWriter :=
  let '(err, w') := WriteContainer_fixed fields s (fixed_part_length fields) w in
  match err with
  | Some e => (Some e, w')
  | None => WriteContainer_variable fields s w'
  end.

(** Modelled from the spec: the fixed part of a container, read back. The
    fields of fixed size are decoded and the offsets collected. *)
Fixpoint ReadContainer_fixed {S} (fields : list (Field S)) (s : S)
    (offsets : list Z) (dr : DecodingReader)
  : option error * S * list Z * DecodingReader :=
  match fields with
  | [] => (None, s, offsets, dr)
  | f :: rest =>
      if FixedLength f =? 0 then
        let '(offset, err, dr') := ReadOffset dr in
        match err with
        | Some e => (Some e, s, offsets, dr')
        | None => ReadContainer_fixed rest s (offsets ++ [offset]) dr'
        end
      else
        let '(err, s', dr') := Deserialize f s dr in
        match err with
        | Some e => (Some e, s', offsets, dr')
        | None => ReadContainer_fixed rest s' offsets dr'
        end
  end.

(** Modelled from the spec: the fields of variable size, each decoded in
    the scope that runs from its offset to the next one, the last to the
    end of the container. [offsets] starts at the offset of the first such
    field and [stop] is the container's length. *)
Fixpoint ReadContainer_variable {S} (fields : list (Field S)) (s : S)
    (offsets : list Z) (stop : Z) (dr : DecodingReader)
  : option error * S * DecodingReader :=
  match fields with
  | [] => (None, s, dr)
  | f :: rest =>
      if FixedLength f =? 0 then
        match offsets with
        | [] => (Some (ErrOffset 0 0), s, dr)
        | offset :: later =>
            let next := match later with [] => stop | o :: _ => o end in
            if (next <? offset) || (stop <? next) then (Some (ErrOffset next offset), s, dr)
            else
              let scoped := SubScope dr (next - offset) in
              let '(err, s', scoped') := Deserialize f s scoped in
              let dr' := UpdateIndexFromScoped dr scoped' in
              match err with
              | Some e => (Some e, s', dr')
              | None => ReadContainer_variable rest s' later stop dr'
              end
        end
      else ReadContainer_variable rest s offsets stop dr
  end.

(** Modelled from the spec: [DecodingReader.Container(fields...)], the
    inverse of the layout above. The first offset has to be the length of
    the fixed part, and the offsets may not decrease nor pass the scope. *)
Definition ReadContainer {S} (fields : list (Field S)) (s : S) (dr : DecodingReader)
  : option error * S * DecodingReader :=
  let stop := Scope dr in
  let '(err, s', offsets, dr') := ReadContainer_fixed fields s [] dr in
  match err with
  | Some e => (Some e, s', dr')
  | None =>
      match offsets with
      | first :: _ =>
          if negb (first =? fixed_part_length fields) then
            (Some (ErrOffset first (fixed_part_length fields)), s', dr')
          else ReadContainer_variable fields s' offsets stop dr'
      | [] => ReadContainer_variable fields s' offsets stop dr'
      end
  end.

End codec.

(** ** KZGCommitment: binary codec and Merkle root *)

Definition KZGCommitment_Deserialize (p : option KZGCommitment) (dr : codec.DecodingReader)
  : option error * option KZGCommitment * codec.DecodingReader :=
  match p with
  | None => (Some ErrNilPubkey, None, dr)
  | Some pv =>
      let '(_, err, pv', dr') := codec.Read dr pv in
      (err, Some pv', dr')
  end.

Definition KZGCommitment_Serialize (p : KZGCommitment) (w : codec.EncodingWriter)
  : option error * codec.EncodingWriter :=
  codec.Write w p.

Definition KZGCommitment_ByteLength (p : KZGCommitment) : Z := 48.
Definition KZGCommitment_FixedLength (p : KZGCommitment) : Z := 48.

(** [tree.Root] is [[32]byte]; [tree.HashFn] combines two of them. *)
Abbreviation Root := (list byte) (only parsing).
Definition Root_zero : Root := repeat x00 32.

Definition KZGCommitment_HashTreeRoot (p : KZGCommitment) (hFn : Root -> Root -> Root) : Root :=
  let a := go_copy Root_zero (slice p 0 32) in
  let b := go_copy Root_zero (slice p 32 48) in
  hFn a b.

(** ** Field elements and blobs *)

(** [type BLSFieldElement [32]byte] *)
Abbreviation BLSFieldElement := (list byte) (only parsing).
Definition wf_BLSFieldElement (e : BLSFieldElement) : Prop := length e = 32%nat.
Definition BLSFieldElement_zero : BLSFieldElement := repeat x00 32.

(** A slice seen through a pointer: its elements and the spare capacity
    behind them in the backing array, so [cap = len elems + len spare]. *)
Record GoSlice (A : Type) : Type := mkSlice {
  elems : list A;
  spare : list A
}.
Arguments mkSlice {A} _ _.
Arguments elems {A} _.
Arguments spare {A} _.

Definition nil_slice {A} : GoSlice A := mkSlice [] [].
Definition cap {A} (s : GoSlice A) : Z := len (elems s) + len (spare s).

(** The loop of [ReadFieldElements]: [dr.Read(dst[i][:])] for [i] from
    [i] on, [n] more times. *)
Fixpoint ReadFieldElements_loop (dst : list BLSFieldElement) (i n : nat)
    (dr : codec.DecodingReader)
  : option error * list BLSFieldElement * codec.DecodingReader :=
  match n with
  | O => (None, dst, dr)
  | S n' =>
      let '(_, err, e', dr') := codec.Read dr (dst !!! i) in
      let dst' := <[i := e']> dst in
      match err with
      | Some e => (Some e, dst', dr')
      | None => ReadFieldElements_loop dst' (S i) n' dr'
      end
  end.

Definition ReadFieldElements (dr : codec.DecodingReader)
    (elems0 : GoSlice BLSFieldElement) (length : Z)
  : option error * GoSlice BLSFieldElement * codec.DecodingReader :=
  let elems1 :=
    if negb (len (elems elems0) =? length) then
      if length <=? cap elems0 then
        let backing := elems elems0 ++ spare elems0 in
        mkSlice (take (Z.to_nat length) backing) (drop (Z.to_nat length) backing)
      else
        mkSlice (repeat BLSFieldElement_zero (Z.to_nat length)) []
    else elems0 in
  let '(err, dst, dr') :=
    ReadFieldElements_loop (elems elems1) 0 (Z.to_nat length) dr in
  (err, mkSlice dst (spare elems1), dr').

Fixpoint WriteFieldElements (ew : codec.EncodingWriter) (elems : list BLSFieldElement)
  : option error * codec.EncodingWriter :=
  match elems with
  | [] => (None, ew)
  | e :: rest =>
      let '(err, ew') := codec.Write ew e in
      match err with
      | Some x => (Some x, ew')
      | None => WriteFieldElements ew' rest
      end
  end.

(** [type Blob []BLSFieldElement] *)
Abbreviation Blob := (list BLSFieldElement) (only parsing).
Abbreviation BlobKzgs := (list KZGCommitment) (only parsing).
Abbreviation Blobs := (list Blob) (only parsing).

(** [common.Hash] is [[32]byte]. *)
Abbreviation Hash := (list byte) (only parsing).
Definition wf_Hash (h : Hash) : Prop := length h = 32%nat.

(** Array comparison [a == b]. *)
Fixpoint bytes_eqb (a b : list byte) : bool :=
  match a, b with
  | [], [] => true
  | x :: a', y :: b' => byte_eqb x y && bytes_eqb a' b'
  | _, _ => false
  end.

(** Writing back through the pointer [&l[i]] what a callee left behind
    it; a [nil] pointer writes nothing. *)
Definition store {A} (l : list A) (i : nat) (p : option A) : list A :=
  match p with
  | Some v => <[i := v]> l
  | None => l
  end.

(** ** Writers *)

(** An [io.Writer] that accepts every write, such as a [bytes.Buffer]: the
    bytes written so far. [Write] returns the count and a [nil] error. *)
Definition io_Write (w : list byte) (p : list byte) : Z * option error * list byte :=
  (len p, None, w ++ p).

(** Modelled from the spec: [EncodeSSZ(w, obj)] of this package is not in
    this file; it runs [obj.Serialize] on an encoding writer over [w]
    (section 4.6: the tag byte is followed by the container encoding). *)
Definition EncodeSSZ (w : list byte)
    (obj_Serialize : codec.EncodingWriter -> option error * codec.EncodingWriter)
  : option error * list byte :=
  obj_Serialize w.

Section BlobTx.

(** The protocol parameters of package [params]. *)
Variable FieldElementsPerBlob : Z.
Variable MaxBlobsPerTx : Z.

(** The field and curve types of package [bls] and the operations of
    packages [bls], [kzg] and [crypto] the file calls. [FrFrom32] returns
    [None] where the Go function returns [false]; [FromCompressedG1]
    returns [None] where the Go function returns an error. *)
Context {Fr G1Point : Type}.
Variable FrFrom32 : BLSFieldElement -> option Fr.
Variable BlobToKzg : list Fr -> G1Point.
Variable ToCompressedG1 : G1Point -> list byte.
Variable FromCompressedG1 : list byte -> option G1Point.
Variable VerifyBlobs : list G1Point -> list (list Fr) -> option error.
Variable Keccak256Hash : list byte -> Hash.

(** The signed blob transaction of [data_blob_tx.go]: its declared
    versioned hashes, [Message.BlobVersionedHashes], and its SSZ methods. *)
Variable SignedBlobTx : Type.
Variable BlobVersionedHashes : SignedBlobTx -> list Hash.
Variable SignedBlobTx_FixedLength : Z.
Variable SignedBlobTx_ByteLength : SignedBlobTx -> Z.
Variable SignedBlobTx_Serialize :
  SignedBlobTx -> codec.EncodingWriter -> option error * codec.EncodingWriter.
Variable SignedBlobTx_Deserialize :
  SignedBlobTx -> codec.DecodingReader -> option error * SignedBlobTx * codec.DecodingReader.

Definition KZGCommitment_Point (p : KZGCommitment) : option G1Point :=
  FromCompressedG1 p.

Definition KZGCommitment_ComputeVersionedHash (kzg : KZGCommitment) : Hash :=
  let h := Keccak256Hash kzg in
  <[0%nat := BLOB_COMMITMENT_VERSION_KZG]> h.

(** *** Blob *)

(** The receiver [blob *Blob] is the slice header behind the pointer. *)
Definition Blob_Deserialize (blob : GoSlice BLSFieldElement) (dr : codec.DecodingReader)
  : option error * GoSlice BLSFieldElement * codec.DecodingReader :=
  ReadFieldElements dr blob FieldElementsPerBlob.

Definition Blob_Serialize (blob : Blob) (w : codec.EncodingWriter)
  : option error * codec.EncodingWriter :=
  WriteFieldElements w blob.

Definition Blob_ByteLength (blob : Blob) : Z := FieldElementsPerBlob * 32.
Definition Blob_FixedLength (blob : Blob) : Z := FieldElementsPerBlob * 32.

(** The loop of [ComputeCommitment]: [frs[i]] is set from [blob[i]], and
    the first element that does not convert ends it. *)
Fixpoint ComputeCommitment_frs (blob : Blob) : option (list Fr) :=
  match blob with
  | [] => Some []
  | elem :: rest =>
      match FrFrom32 elem with
      | None => None
      | Some fr =>
          match ComputeCommitment_frs rest with
          | None => None
          | Some frs => Some (fr :: frs)
          end
      end
  end.

Definition Blob_ComputeCommitment (blob : Blob) : KZGCommitment * bool :=
  match ComputeCommitment_frs blob with
  | None => (KZGCommitment_zero, false)
  | Some frs =>
      let commitmentG1 := BlobToKzg frs in
      let out := go_copy KZGCommitment_zero (ToCompressedG1 commitmentG1) in
      (out, true)
  end.

(** *** BlobKzgs *)

Fixpoint Commitments_loop (li : BlobKzgs) (points : list G1Point)
  : list G1Point * option error :=
  match li with
  | [] => (points, None)
  | c :: rest =>
      match KZGCommitment_Point c with
      | None => ([], Some ErrInternalErrorCommitments)
      | Some p => Commitments_loop rest (points ++ [p])
      end
  end.

Definition BlobKzgs_Commitments (li : BlobKzgs) : list G1Point * option error :=
  Commitments_loop li [].

(** The closure of [Deserialize] followed by the element's [Deserialize]:
    a zero commitment is appended and decoded in place at its index. *)
Definition BlobKzgs_add_Deserialize (li : BlobKzgs) (dr : codec.DecodingReader)
  : option error * BlobKzgs * codec.DecodingReader :=
  let i := length li in
  let li' := li ++ [KZGCommitment_zero] in
  let '(err, p', dr') := KZGCommitment_Deserialize (li' !! i) dr in
  (err, store li' i p', dr').

Definition BlobKzgs_Deserialize (li : BlobKzgs) (dr : codec.DecodingReader)
  : option error * BlobKzgs * codec.DecodingReader :=
  codec.List BlobKzgs_add_Deserialize 48 MAX_TX_WRAP_KZG_COMMITMENTS li dr.

Definition BlobKzgs_Serialize (li : BlobKzgs) (w : codec.EncodingWriter)
  : option error * codec.EncodingWriter :=
  codec.WriteList
    (fun i w => KZGCommitment_Serialize (li !!! Z.to_nat i) w)
    48 (u64 (len li)) w.

Definition BlobKzgs_ByteLength (li : BlobKzgs) : Z := u64 (u64 (len li) * 48).
Definition BlobKzgs_FixedLength (li : BlobKzgs) : Z := 0.

(** *** Blobs *)

(** The inner loop of [Blobs.Blobs]: the chunks of one blob. *)
Fixpoint Blobs_Blobs_chunks (b : Blob) (blob : list Fr) : option (list Fr) :=
  match b with
  | [] => Some blob
  | chunk :: rest =>
      match FrFrom32 chunk with
      | None => None
      | Some chunkFr => Blobs_Blobs_chunks rest (blob ++ [chunkFr])
      end
  end.

Fixpoint Blobs_Blobs_loop (blobs : Blobs) (result : list (list Fr))
  : list (list Fr) * option error :=
  match blobs with
  | [] => (result, None)
  | b :: rest =>
      match Blobs_Blobs_chunks b [] with
      | None => ([], Some ErrInternalErrorCommitments)
      | Some blob => Blobs_Blobs_loop rest (result ++ [blob])
      end
  end.

Definition Blobs_Blobs (blobs : Blobs) : list (list Fr) * option error :=
  Blobs_Blobs_loop blobs [].

(** The closure of [Deserialize] followed by the element's [Deserialize]:
    an empty blob [Blob{}], without capacity, is appended and decoded in
    place at its index. *)
Definition Blobs_add_Deserialize (a : Blobs) (dr : codec.DecodingReader)
  : option error * Blobs * codec.DecodingReader :=
  let i := length a in
  let a' := a ++ [[]] in
  let '(err, b', dr') := Blob_Deserialize (mkSlice (a' !!! i) []) dr in
  (err, <[i := elems b']> a', dr').

Definition Blobs_Deserialize (a : Blobs) (dr : codec.DecodingReader)
  : option error * Blobs * codec.DecodingReader :=
  codec.List Blobs_add_Deserialize (FieldElementsPerBlob * 32) LIMIT_BLOBS_PER_TX a dr.

Definition Blobs_Serialize (a : Blobs) (w : codec.EncodingWriter)
  : option error * codec.EncodingWriter :=
  codec.WriteList
    (fun i w => Blob_Serialize (a !!! Z.to_nat i) w)
    (FieldElementsPerBlob * 32) (u64 (len a)) w.

Definition Blobs_ByteLength (a : Blobs) : Z :=
  u64 (u64 (u64 (len a) * FieldElementsPerBlob) * 32).
Definition Blobs_FixedLength (a : Blobs) : Z := 0.

(** *** The wrapper of a transaction and its wrap data *)

Record BlobTxWrapper : Type := mkWrapper {
  txw_Tx : SignedBlobTx;
  txw_BlobKzgs : BlobKzgs;
  txw_Blobs : Blobs
}.

Definition field_Tx : codec.Field BlobTxWrapper :=
  codec.mkField SignedBlobTx_FixedLength
    (fun txw => SignedBlobTx_ByteLength (txw_Tx txw))
    (fun txw w => SignedBlobTx_Serialize (txw_Tx txw) w)
    (fun txw dr =>
       let '(err, tx', dr') := SignedBlobTx_Deserialize (txw_Tx txw) dr in
       (err, mkWrapper tx' (txw_BlobKzgs txw) (txw_Blobs txw), dr')).

Definition field_BlobKzgs : codec.Field BlobTxWrapper :=
  codec.mkField (BlobKzgs_FixedLength [])
    (fun txw => BlobKzgs_ByteLength (txw_BlobKzgs txw))
    (fun txw w => BlobKzgs_Serialize (txw_BlobKzgs txw) w)
    (fun txw dr =>
       let '(err, li', dr') := BlobKzgs_Deserialize (txw_BlobKzgs txw) dr in
       (err, mkWrapper (txw_Tx txw) li' (txw_Blobs txw), dr')).

Definition field_Blobs : codec.Field BlobTxWrapper :=
  codec.mkField (Blobs_FixedLength [])
    (fun txw => Blobs_ByteLength (txw_Blobs txw))
    (fun txw w => Blobs_Serialize (txw_Blobs txw) w)
    (fun txw dr =>
       let '(err, a', dr') := Blobs_Deserialize (txw_Blobs txw) dr in
       (err, mkWrapper (txw_Tx txw) (txw_BlobKzgs txw) a', dr')).

Definition BlobTxWrapper_Deserialize (txw : BlobTxWrapper) (dr : codec.DecodingReader)
  : option error * BlobTxWrapper * codec.DecodingReader :=
  codec.ReadContainer [field_Tx; field_BlobKzgs; field_Blobs] txw dr.

Definition BlobTxWrapper_Serialize (txw : BlobTxWrapper) (w : codec.EncodingWriter)
  : option error * codec.EncodingWriter :=
  codec.WriteContainer [field_Tx; field_BlobKzgs; field_Blobs] txw w.

(** *** Wrap data *)

Record BlobTxWrapData : Type := mkWrapData {
  wd_BlobKzgs : BlobKzgs;
  wd_Blobs : Blobs
}.

(** The interface [TxData]: a signed blob transaction or another
    transaction type. *)
Inductive TxData : Type :=
| TxSignedBlobTx (tx : SignedBlobTx)
| TxOther.

(** Modelled from the spec: [common.StorageSize] is declared in the
    package [common], not in this file, as a [float64]. The sum is
    computed in [uint64] and then converted, which rounds it from [2^53]
    on. *)
Definition StorageSize (x : Z) : Z := float64_of_uint64 x.

Definition sizeWrapData (b : BlobTxWrapData) : Z :=
  StorageSize
    (u64 (u64 (4 + 4 + BlobKzgs_ByteLength (wd_BlobKzgs b)) + Blobs_ByteLength (wd_Blobs b))).

(** The loop over the declared hashes, [i] being the index of the head. *)
Fixpoint checkWrapping_hashes (kzgs : BlobKzgs) (i : nat) (hashes : list Hash)
  : option error :=
  match hashes with
  | [] => None
  | h :: rest =>
      let computed := KZGCommitment_ComputeVersionedHash (kzgs !!! i) in
      if negb (bytes_eqb computed h) then Some (ErrVersionedHash (Z.of_nat i) h computed)
      else checkWrapping_hashes kzgs (S i) rest
  end.

Definition checkWrapping (b : BlobTxWrapData) (inner : TxData) : option error :=
  match inner with
  | TxOther => Some ErrExpectedSignedBlobTx
  | TxSignedBlobTx blobTx =>
      if MaxBlobsPerTx <? len (BlobVersionedHashes blobTx) then
        Some (ErrTooManyBlobs (len (BlobVersionedHashes blobTx)) MaxBlobsPerTx)
      else if negb (len (wd_BlobKzgs b) =? len (wd_Blobs b)) then
        Some (ErrKzgsBlobs (len (wd_BlobKzgs b)) (len (wd_Blobs b)))
      else if negb (len (wd_BlobKzgs b) =? len (BlobVersionedHashes blobTx)) then
        Some (ErrKzgsVersionedHashes (len (wd_BlobKzgs b)) (len (BlobVersionedHashes blobTx)))
      else
        match checkWrapping_hashes (wd_BlobKzgs b) 0 (BlobVersionedHashes blobTx) with
        | Some e => Some e
        | None =>
            let '(commitments, err) := BlobKzgs_Commitments (wd_BlobKzgs b) in
            match err with
            | Some _ => Some ErrInternalCommitment
            | None =>
                let '(blobs, err) := Blobs_Blobs (wd_Blobs b) in
                match err with
                | Some _ => Some ErrInternalBlobs
                | None => VerifyBlobs commitments blobs
                end
            end
        end
  end.

(** *** Copies, accessors and the typed encoding *)

(** [make(Blob, len(blob))] followed by [copy(cpy, blob)]. *)
Definition Blob_copy (blob : Blob) : Blob :=
  let cpy := repeat BLSFieldElement_zero (length blob) in
  go_copy cpy blob.

Definition BlobKzgs_copy (li : BlobKzgs) : BlobKzgs :=
  let cpy := repeat KZGCommitment_zero (length li) in
  go_copy cpy li.

(** The loop of [Blobs.copy]: [cpy[i] = bl.copy()], [i] being the index of
    the head of the blobs still to copy. *)
Fixpoint Blobs_copy_loop (cpy : Blobs) (i : nat) (blobs : Blobs) : Blobs :=
  match blobs with
  | [] => cpy
  | bl :: rest => Blobs_copy_loop (<[i := Blob_copy bl]> cpy) (S i) rest
  end.

Definition Blobs_copy (blobs : Blobs) : Blobs :=
  let cpy := repeat [] (length blobs) in
  Blobs_copy_loop cpy 0 blobs.

Definition BlobTxWrapData_copy (b : BlobTxWrapData) : BlobTxWrapData :=
  mkWrapData (BlobKzgs_copy (wd_BlobKzgs b)) (Blobs_copy (wd_Blobs b)).

Definition BlobTxWrapData_kzgs (b : BlobTxWrapData) : BlobKzgs := wd_BlobKzgs b.
Definition BlobTxWrapData_blobs (b : BlobTxWrapData) : Blobs := wd_Blobs b.

(** The type byte of blob transactions, a constant of another file. *)
Variable BlobTxType : byte.

(** [encodeTyped]: the type byte is written first, the transaction's type
    is looked at next, and the wrapper of the transaction and the wrap
    data is encoded last. Returns the error and the writer's content. *)
Definition encodeTyped (b : BlobTxWrapData) (w : list byte) (txdata : TxData)
  : option error * list byte :=
  let '(_, err, w1) := io_Write w [BlobTxType] in
  match err with
  | Some e => (Some e, w1)
  | None =>
      match txdata with
      | TxOther => (Some ErrExpectedSignedBlobTx, w1)
      | TxSignedBlobTx blobTx =>
          let wrapped := mkWrapper blobTx (wd_BlobKzgs b) (wd_Blobs b) in
          EncodeSSZ w1 (BlobTxWrapper_Serialize wrapped)
      end
  end.

End BlobTx.

(** ** Blobs in a store

    Where it matters which backing array a slice refers to, a blob is a
    slice header, the address of its backing array in a store and its
    length, and the functions that allocate take the store and return
    it. *)

Module Store.

(** The backing arrays, by address. *)
Abbreviation store := (list (list BLSFieldElement)) (only parsing).

Record BlobRef : Type := mkRef {
  ref_addr : nat;
  ref_len : nat
}.

(** The header of [Blob{}]. *)
Definition nil_ref : BlobRef := mkRef 0 0.

(** A header refers to an array of the store that is long enough. *)
Definition valid (st : store) (r : BlobRef) : Prop :=
  (ref_addr r < length st)%nat /\ (ref_len r <= length (st !!! ref_addr r))%nat.

(** The elements [blob[0]], ..., [blob[len-1]]. *)
Definition read (st : store) (r : BlobRef) : Blob :=
  take (ref_len r) (st !!! ref_addr r).

(** [blob[i] = e]; [None] is the panic of an index out of range. *)
Definition write (st : store) (r : BlobRef) (i : nat) (e : BLSFieldElement)
  : option store :=
  if (i <? ref_len r)%nat
  then Some (<[ref_addr r := <[i := e]> (st !!! ref_addr r)]> st)
  else None.

(** [make(Blob, n)]: a new array of [n] zero elements. *)
Definition make (st : store) (n : nat) : BlobRef * store :=
  (mkRef (length st) n, st ++ [repeat BLSFieldElement_zero n]).

(** The builtin [copy(dst, src)] on two headers. *)
Definition copy_into (st : store) (dst src : BlobRef) : store :=
  <[ref_addr dst :=
      go_copy (read st dst) (read st src)
        ++ drop (ref_len dst) (st !!! ref_addr dst)]> st.

(** [Blob.copy] *)
Definition Blob_copy (st : store) (blob : BlobRef) : BlobRef * store :=
  let '(cpy, st1) := make st (ref_len blob) in
  (cpy, copy_into st1 cpy blob).

(** The loop of [Blobs.copy], [cpy[i] = bl.copy()]. *)
Fixpoint Blobs_copy_loop (st : store) (cpy : list BlobRef) (i : nat)
    (blobs : list BlobRef) : list BlobRef * store :=
  match blobs with
  | [] => (cpy, st)
  | bl :: rest =>
      let '(c, st') := Blob_copy st bl in
      Blobs_copy_loop st' (<[i := c]> cpy) (S i) rest
  end.

(** [Blobs.copy] *)
Definition Blobs_copy (st : store) (blobs : list BlobRef) : list BlobRef * store :=
  let cpy := repeat nil_ref (length blobs) in
  Blobs_copy_loop st cpy 0 blobs.

End Store.

(** ** Notions the properties are stated with *)

(** The hex digits of the text format, written out. *)
Definition lower_hex_digits : list byte :=
  ["0"; "1"; "2"; "3"; "4"; "5"; "6"; "7"; "8"; "9";
   "a"; "b"; "c"; "d"; "e"; "f"]%byte.

Definition upper_hex_letters : list byte := ["A"; "B"; "C"; "D"; "E"; "F"]%byte.

Definition is_lower_hex_digit (c : byte) : bool :=
  existsb (byte_eqb c) lower_hex_digits.

Definition is_hex_digit (c : byte) : bool :=
  existsb (byte_eqb c) (lower_hex_digits ++ upper_hex_letters).

(** A text without its leading ["0x"] or ["0X"], if it has one. *)
Definition strip_0x (text : list byte) : list byte :=
  match text with
  | c0 :: c1 :: rest =>
      if bytes_eqb [c0; c1] ["0"; "x"]%byte || bytes_eqb [c0; c1] ["0"; "X"]%byte
      then rest else text
  | _ => text
  end.

(** The upper-case form of an ASCII letter. *)
Definition to_upper (c : byte) : byte :=
  if hex.between "a" c "z" then byte_of_Z (byte_to_Z c - 32) else c.

(** The lower-case form of an ASCII letter. *)
Definition to_lower (c : byte) : byte :=
  if hex.between "A" c "Z" then byte_of_Z (byte_to_Z c + 32) else c.

(** [uppercase_some mask s]: the hex digits of [s] at the positions where
    [mask] is [true] are put in upper case. *)
Fixpoint uppercase_some (mask : list bool) (s : list byte) : list byte :=
  match mask, s with
  | m :: mask', c :: s' =>
      (if m && is_hex_digit c then to_upper c else c) :: uppercase_some mask' s'
  | _, _ => s
  end.

(** Two texts whose characters have the same digit values. *)
Definition same_digits (s t : list byte) : Prop :=
  Forall2 (fun c d => hex.fromHexChar d = hex.fromHexChar c) s t.

(** The scalar a field element stands for: its 32 bytes read as a
    little-endian number, and the modulus of the BLS12-381 scalar field. *)
Definition scalar_value (e : BLSFieldElement) : Z :=
  fold_right (fun b acc => byte_to_Z b + 256 * acc) 0 e.

Definition BLS_MODULUS : Z :=
  52435875175126190479447740508185965837690552500527637822603658699938581184513.

(** Well-formed containers: every array has its length, a blob has
    exactly [FieldElementsPerBlob] scalars and a list has at most its
    maximum of elements. *)
Definition wf_Blob (FieldElementsPerBlob : Z) (blob : Blob) : Prop :=
  Forall wf_BLSFieldElement blob /\ len blob = FieldElementsPerBlob.

Definition wf_BlobKzgs (li : BlobKzgs) : Prop :=
  Forall wf_KZGCommitment li /\ len li <= MAX_TX_WRAP_KZG_COMMITMENTS.

Definition wf_Blobs (FieldElementsPerBlob : Z) (a : Blobs) : Prop :=
  Forall (wf_Blob FieldElementsPerBlob) a /\ len a <= LIMIT_BLOBS_PER_TX.

(** A reader whose index and scope end are [uint64] values, the index
    within the scope. *)
Definition reader_ok (dr : codec.DecodingReader) : Prop :=
  0 <= codec.idx dr <= codec.max dr /\ codec.max dr < 2 ^ 64.

(** The reader [DecodeSSZ] builds over a byte string: the scope is the
    whole string. *)
Definition reader_of (data : list byte) : codec.DecodingReader :=
  codec.NewDecodingReader data (len data).

(** The transaction's own codec, as far as the wrapper relies on it: the
    transaction is of variable size, [Serialize] writes [ByteLength]
    bytes, here [txbytes], and [Deserialize] into [tx0] reads them back as
    [tx]. *)
Definition tx_codec_ok {SignedBlobTx : Type}
    (SignedBlobTx_FixedLength : Z)
    (SignedBlobTx_ByteLength : SignedBlobTx -> Z)
    (SignedBlobTx_Serialize :
       SignedBlobTx -> codec.EncodingWriter -> option error * codec.EncodingWriter)
    (SignedBlobTx_Deserialize :
       SignedBlobTx -> codec.DecodingReader
       -> option error * SignedBlobTx * codec.DecodingReader)
    (tx tx0 : SignedBlobTx) (txbytes : list byte) : Prop :=
  SignedBlobTx_FixedLength = 0 /\
  (forall w, SignedBlobTx_Serialize tx w = (None, w ++ txbytes)) /\
  SignedBlobTx_ByteLength tx = len txbytes /\
  (forall rest,
      SignedBlobTx_Deserialize tx0 (codec.mkReader (txbytes ++ rest) 0 (len txbytes))
      = (None, tx, codec.mkReader rest (len txbytes) (len txbytes))).

(** ** A small instance of the external operations

    Stand-ins for the field, curve and digest operations, used to run the
    functions above on concrete inputs. *)

Module Demo.

Definition Fr : Type := Z.
Definition G1Point : Type := list byte.

Definition FrFrom32 (e : BLSFieldElement) : option Fr :=
  if scalar_value e <? BLS_MODULUS then Some (scalar_value e) else None.

Definition BlobToKzg (frs : list Fr) : G1Point :=
  repeat (byte_of_Z (fold_right Z.add 0 frs)) 48.

Definition ToCompressedG1 (g : G1Point) : list byte := g.

Definition FromCompressedG1 (b : list byte) : option G1Point :=
  match b with
  | xff :: _ => None
  | _ => Some b
  end.

Definition VerifyBlobs (points : list G1Point) (blobs : list (list Fr)) : option error :=
  if len points =? len blobs then None else Some (ErrExternal 1).

Definition Keccak256Hash (inp : list byte) : Hash :=
  map (fun b => byte_of_Z (byte_to_Z b + 1)) (take 32 (inp ++ repeat x00 32)).

(** A signed blob transaction reduced to its declared hashes, written to
    the wire one after the other. *)
Definition SignedBlobTx : Type := list Hash.
Definition BlobVersionedHashes (tx : SignedBlobTx) : list Hash := tx.

Definition SignedBlobTx_FixedLength : Z := 0.

Definition SignedBlobTx_ByteLength (tx : SignedBlobTx) : Z := u64 (u64 (len tx) * 32).

Definition SignedBlobTx_Serialize (tx : SignedBlobTx) (w : codec.EncodingWriter)
  : option error * codec.EncodingWriter :=
  codec.WriteList (fun i w => codec.Write w (tx !!! Z.to_nat i)) 32 (u64 (len tx)) w.

Definition SignedBlobTx_Deserialize (tx : SignedBlobTx) (dr : codec.DecodingReader)
  : option error * SignedBlobTx * codec.DecodingReader :=
  codec.List
    (fun s dr =>
       let '(_, err, h, dr') := codec.Read dr (repeat x00 32) in
       (err, s ++ [h], dr'))
    32 (2 ^ 24) tx dr.

End Demo.

(** * Properties *)

(** ** Lists and bytes *)

Lemma len_nonneg {A} (l : list A) : 0 <= len l.
Proof. unfold len. lia. Qed.

Lemma len_app {A} (l k : list A) : len (l ++ k) = len l + len k.
Proof. unfold len. rewrite length_app. lia. Qed.

Lemma byte_eqb_eq (a b : byte) : byte_eqb a b = true <-> a = b.
Proof.
  unfold byte_eqb. split.
  - apply Byte.byte_dec_bl.
  - apply Byte.byte_dec_lb.
Qed.

Lemma bytes_eqb_eq (a b : list byte) : bytes_eqb a b = true <-> a = b.
Proof.
  revert b. induction a as [|x a IH]; intros [|y b]; simpl; try (split; congruence).
  rewrite andb_true_iff, byte_eqb_eq, IH. split.
  - intros [-> ->]. reflexivity.
  - intros [= -> ->]. auto.
Qed.

Lemma go_copy_full {A} (dst src : list A) :
  length dst = length src -> go_copy dst src = src.
Proof.
  intros H. unfold go_copy. rewrite H, Nat.min_id.
  rewrite firstn_all, <- H, skipn_all, app_nil_r. reflexivity.
Qed.

(** ** Hex digits *)

Lemma fromHexChar_is_hex_digit (c : byte) :
  hex.fromHexChar c <> None <-> is_hex_digit c = true.
Proof. destruct c; vm_compute; split; congruence. Qed.

Lemma hex_pair_decodes (v : byte) :
  exists a b,
    hex.fromHexChar (hex.hexchar (Z.shiftr (byte_to_Z v) 4)) = Some a /\
    hex.fromHexChar (hex.hexchar (Z.land (byte_to_Z v) 15)) = Some b /\
    byte_of_Z (Z.lor (Z.shiftl (byte_to_Z a) 4) (byte_to_Z b)) = v.
Proof. destruct v; do 2 eexists; repeat split; vm_compute; reflexivity. Qed.

Lemma hexchar_lower (v : byte) :
  is_lower_hex_digit (hex.hexchar (Z.shiftr (byte_to_Z v) 4)) = true /\
  is_lower_hex_digit (hex.hexchar (Z.land (byte_to_Z v) 15)) = true.
Proof. destruct v; split; vm_compute; reflexivity. Qed.

Lemma fromHexChar_uppercase (m : bool) (c : byte) :
  hex.fromHexChar (if m && is_hex_digit c then to_upper c else c) = hex.fromHexChar c.
Proof. destruct m; [destruct c; vm_compute; reflexivity | reflexivity]. Qed.

Lemma EncodeToString_length (src : list byte) :
  length (hex.EncodeToString src) = (2 * length src)%nat.
Proof. induction src as [|v src IH]; simpl; lia. Qed.

Lemma EncodeToString_lower (src : list byte) :
  Forall (fun c => is_lower_hex_digit c = true) (hex.EncodeToString src).
Proof.
  induction src as [|v src IH]; simpl; [constructor|].
  destruct (hexchar_lower v) as [Hh Hl]. repeat constructor; assumption.
Qed.

Lemma same_digits_refl (s : list byte) : same_digits s s.
Proof. induction s; constructor; auto. Qed.

Lemma uppercase_some_same_digits (mask : list bool) (s : list byte) :
  same_digits s (uppercase_some mask s).
Proof.
  revert mask. induction s as [|c s IH]; intros [|m mask]; simpl;
    try apply same_digits_refl.
  constructor; [apply fromHexChar_uppercase | apply IH].
Qed.

(** Decoding the encoding of [src], or any text with the same digit values,
    writes [src] into [dst] from index [i] on. *)
Lemma Decode_loop_encoded (src : list byte) :
  forall (t dst : list byte) (i : nat),
    same_digits (hex.EncodeToString src) t ->
    (i + length src <= length dst)%nat ->
    hex.Decode_loop dst i t
    = ((i + length src)%nat, None, take i dst ++ src ++ drop (i + length src) dst).
Proof.
  induction src as [|v src IH]; intros t dst i Hsame Hlen; simpl in *.
  - inversion Hsame; subst. simpl. rewrite Nat.add_0_r, take_drop. reflexivity.
  - inversion Hsame as [|c1 d1 s1 t1 H1 Hrest]; subst.
    inversion Hrest as [|c2 d2 s2 t2 H2 Hrest2]; subst.
    destruct (hex_pair_decodes v) as (a & b & Ha & Hb & Hv).
    simpl. rewrite H1, Ha, H2, Hb, Hv.
    rewrite (IH t2 (<[i:=v]> dst) (S i) Hrest2) by (rewrite length_insert; lia).
    f_equal; [f_equal; lia|].
    rewrite drop_insert_lt by lia.
    rewrite (take_S_r _ i v) by (apply list_lookup_insert_eq; lia).
    rewrite take_insert_ge by lia.
    rewrite <- app_assoc. simpl. repeat f_equal. lia.
Qed.

(** A text of even length decodes without error exactly when all its
    characters are hex digits. *)
Lemma Decode_loop_ok_iff (n : nat) :
  forall (t dst : list byte) (i : nat),
    length t = (2 * n)%nat ->
    (hex.Decode_loop dst i t).1.2 = None <-> Forall (fun c => is_hex_digit c = true) t.
Proof.
  induction n as [|n IH]; intros t dst i Hlen.
  - destruct t; [|discriminate]. simpl. split; [constructor | reflexivity].
  - destruct t as [|p [|q t]]; simpl in Hlen; try lia.
    simpl.
    pose proof (fromHexChar_is_hex_digit p) as Hp.
    pose proof (fromHexChar_is_hex_digit q) as Hq.
    destruct (hex.fromHexChar p) as [a|].
    + destruct (hex.fromHexChar q) as [b|].
      * rewrite IH by lia. split.
        -- intros H. constructor; [apply Hp; congruence|].
           constructor; [apply Hq; congruence | exact H].
        -- intros H. inversion H as [|? ? _ H']; subst.
           inversion H'; subst. assumption.
      * simpl. split; [discriminate|].
        intros H. inversion H as [|? ? _ H']; subst. inversion H' as [|? ? Hq' _]; subst.
        apply Hq in Hq'. congruence.
    + simpl. split; [discriminate|].
      intros H. inversion H as [|? ? Hp' _]; subst. apply Hp in Hp'. congruence.
Qed.

Lemma has_0x_prefix_strip (text : list byte) :
  (if has_0x_prefix text then drop 2 text else text) = strip_0x text.
Proof.
  unfold has_0x_prefix, strip_0x.
  destruct text as [|c0 [|c1 rest]]; simpl; try reflexivity;
    try (rewrite andb_false_r; reflexivity).
  replace (2 <=? len (c0 :: c1 :: rest)) with true
    by (symmetry; apply Z.leb_le; unfold len; simpl; lia).
  simpl. rewrite !andb_true_r. unfold drop.
  destruct (byte_eqb c0 "0"); simpl; [|reflexivity].
  reflexivity.
Qed.

(** ** KZGCommitment *)

Lemma UnmarshalText_same_digits (p q : KZGCommitment) (x : byte) (t : list byte) :
  wf_KZGCommitment p -> wf_KZGCommitment q ->
  x = "x"%byte \/ x = "X"%byte ->
  same_digits (hex.EncodeToString p) t ->
  KZGCommitment_UnmarshalText (Some q) ("0"%byte :: x :: t) = (None, Some p).
Proof.
  unfold wf_KZGCommitment. intros Hp Hq Hx Hsame.
  assert (Hlen : length t = 96%nat).
  { apply Forall2_length in Hsame. rewrite EncodeToString_length in Hsame. lia. }
  assert (Hpre : has_0x_prefix ("0"%byte :: x :: t) = true).
  { unfold has_0x_prefix.
    replace (2 <=? len ("0"%byte :: x :: t)) with true
      by (symmetry; apply Z.leb_le; unfold len; simpl; lia).
    destruct Hx as [-> | ->]; reflexivity. }
  unfold KZGCommitment_UnmarshalText. rewrite Hpre.
  change (drop 2 ("0"%byte :: x :: t)) with t.
  replace (len t =? 96) with true
    by (symmetry; apply Z.eqb_eq; unfold len; lia).
  simpl negb. cbv iota. unfold hex.Decode.
  rewrite (Decode_loop_encoded p t q 0%nat Hsame) by lia.
  simpl. rewrite Hp, <- Hq, drop_all, app_nil_r. reflexivity.
Qed.

Lemma uppercase_some_0x (mask : list bool) (s : list byte) :
  uppercase_some mask (["0"; "x"]%byte ++ s)
  = "0"%byte :: "x"%byte :: uppercase_some (drop 2 mask) s.
Proof.
  destruct mask as [|m0 [|m1 mask]]; simpl.
  - destruct s; reflexivity.
  - destruct m0; destruct s; reflexivity.
  - destruct m0, m1; reflexivity.
Qed.

(** C6. For a commitment [p], [MarshalText] returns, without error, the
    text ["0x"] followed by 96 lower-case hex digits; [UnmarshalText] of
    that text into any commitment yields [p] without error; and
    [UnmarshalText] of any text succeeds exactly when the text, after one
    optional leading ["0x"] or ["0X"] is removed, is 96 hex digits, so it
    fails on every other input. *)
Theorem KZGCommitment_text_codec (p q : KZGCommitment) (text : list byte) :
  wf_KZGCommitment p -> wf_KZGCommitment q ->
  (exists digits,
      KZGCommitment_MarshalText p = (["0"; "x"]%byte ++ digits, None) /\
      length digits = 96%nat /\
      Forall (fun c => is_lower_hex_digit c = true) digits) /\
  KZGCommitment_UnmarshalText (Some q) (KZGCommitment_MarshalText p).1 = (None, Some p) /\
  ((KZGCommitment_UnmarshalText (Some q) text).1 = None <->
   length (strip_0x text) = 96%nat /\
   Forall (fun c => is_hex_digit c = true) (strip_0x text)).
Proof.
  intros Hp Hq. split; [|split].
  - exists (hex.EncodeToString p). split; [reflexivity|]. split.
    + rewrite EncodeToString_length. unfold wf_KZGCommitment in Hp. lia.
    + apply EncodeToString_lower.
  - apply UnmarshalText_same_digits; auto. apply same_digits_refl.
  - unfold KZGCommitment_UnmarshalText. rewrite has_0x_prefix_strip.
    destruct (len (strip_0x text) =? 96) eqn:E; simpl negb; cbv iota.
    + apply Z.eqb_eq in E. unfold len in E.
      assert (Hl : length (strip_0x text) = (2 * 48)%nat) by lia.
      pose proof (Decode_loop_ok_iff 48 (strip_0x text) q 0%nat Hl) as Hiff.
      unfold hex.Decode.
      destruct (hex.Decode_loop q 0 (strip_0x text)) as [[n err] q'].
      simpl in *. rewrite Hiff. split; [intros H; split; [lia | exact H] | tauto].
    + apply Z.eqb_neq in E. unfold len in E. simpl. split; [discriminate | lia].
Qed.

Lemma KZGCommitment_text_codec_witness :
  let p := repeat xa7 48 in
  KZGCommitment_UnmarshalText (Some KZGCommitment_zero) (KZGCommitment_MarshalText p).1
  = (None, Some p).
Proof.
  intros p.
  apply (KZGCommitment_text_codec p KZGCommitment_zero []); reflexivity.
Defined.

(** C10. [UnmarshalText] reads hex digits of either case: putting any
    subset of the hex digits of [MarshalText p] in upper case gives a text
    that decodes, without error, to [p]. *)
Theorem UnmarshalText_case_insensitive (p q : KZGCommitment) (mask : list bool) :
  wf_KZGCommitment p -> wf_KZGCommitment q ->
  KZGCommitment_UnmarshalText (Some q)
    (uppercase_some mask (KZGCommitment_MarshalText p).1)
  = (None, Some p).
Proof.
  intros Hp Hq. unfold KZGCommitment_MarshalText, fst.
  rewrite uppercase_some_0x.
  apply UnmarshalText_same_digits; auto.
  apply uppercase_some_same_digits.
Qed.

Lemma UnmarshalText_case_insensitive_witness :
  let p := repeat xa7 48 in
  let mask := repeat true 40 ++ repeat false 58 in
  KZGCommitment_UnmarshalText (Some KZGCommitment_zero)
    (uppercase_some mask (KZGCommitment_MarshalText p).1)
  = (None, Some p).
Proof.
  intros p mask.
  apply (UnmarshalText_case_insensitive p KZGCommitment_zero mask); reflexivity.
Defined.

(** C9. On a [nil] receiver, [Deserialize] and [UnmarshalText] return an
    error; the receiver stays [nil] and [Deserialize] leaves the reader as
    it was: nothing is read. *)
Theorem KZGCommitment_nil_receiver (dr : codec.DecodingReader) (text : list byte) :
  KZGCommitment_Deserialize None dr = (Some ErrNilPubkey, None, dr) /\
  KZGCommitment_UnmarshalText None text = (Some ErrNilKZGCommitment, None).
Proof. split; reflexivity. Qed.

(** C5. The Merkle root of a commitment is the hash function applied to
    its first 32 bytes and to its last 16 bytes followed by 16 zero bytes,
    two chunks of 32 bytes each. *)
Theorem KZGCommitment_HashTreeRoot_chunks (p : KZGCommitment) (hFn : Root -> Root -> Root) :
  wf_KZGCommitment p ->
  KZGCommitment_HashTreeRoot p hFn = hFn (take 32 p) (drop 32 p ++ repeat x00 16) /\
  length (take 32 p) = 32%nat /\
  length (drop 32 p ++ repeat x00 16) = 32%nat.
Proof.
  unfold wf_KZGCommitment. intros Hp.
  assert (H1 : length (take 32 p) = 32%nat) by (rewrite length_take; lia).
  assert (H2 : length (drop 32 p) = 16%nat) by (rewrite length_drop; lia).
  split; [|split; [exact H1 | rewrite length_app, H2; reflexivity]].
  unfold KZGCommitment_HashTreeRoot, slice, go_copy. f_equal.
  - rewrite drop_0. change (32 - 0)%nat with 32%nat.
    unfold Root_zero. rewrite H1, repeat_length. simpl Nat.min.
    rewrite take_take. simpl Nat.min.
    change (drop 32 (repeat x00 32)) with (@nil byte). apply app_nil_r.
  - change (48 - 32)%nat with 16%nat.
    assert (H3 : take 16 (drop 32 p) = drop 32 p) by (apply take_ge; lia).
    rewrite H3, H2. unfold Root_zero. rewrite repeat_length. simpl Nat.min.
    rewrite H3. reflexivity.
Qed.

Lemma KZGCommitment_HashTreeRoot_chunks_witness :
  let p := repeat x11 32 ++ repeat x22 16 in
  KZGCommitment_HashTreeRoot p (fun a b => a ++ b)
  = repeat x11 32 ++ repeat x22 16 ++ repeat x00 16.
Proof.
  intros p.
  exact (proj1 (KZGCommitment_HashTreeRoot_chunks p (fun a b => a ++ b) eq_refl)).
Defined.

(** ** Versioned hash *)

(** C2. [ComputeVersionedHash] is a total function of the commitment; for a
    32-byte digest, its result has 32 bytes, byte 0 is [0x01] and bytes 1
    to 31 are those of the digest of the commitment's bytes. *)
Theorem ComputeVersionedHash_version_tag
    (Keccak256Hash : list byte -> Hash) (p : KZGCommitment) :
  wf_Hash (Keccak256Hash p) ->
  let h := KZGCommitment_ComputeVersionedHash Keccak256Hash p in
  wf_Hash h /\
  h !! 0%nat = Some x01 /\
  (forall i, (1 <= i < 32)%nat -> h !! i = Keccak256Hash p !! i) /\
  (forall q, q = p -> KZGCommitment_ComputeVersionedHash Keccak256Hash q = h).
Proof.
  unfold wf_Hash, KZGCommitment_ComputeVersionedHash. intros Hlen. cbv zeta.
  split; [|split; [|split]].
  - rewrite length_insert. exact Hlen.
  - apply list_lookup_insert_eq. lia.
  - intros i Hi. apply list_lookup_insert_ne. lia.
  - intros q ->. reflexivity.
Qed.

Lemma ComputeVersionedHash_version_tag_witness :
  let p := repeat x05 48 in
  KZGCommitment_ComputeVersionedHash Demo.Keccak256Hash p !! 0%nat = Some x01 /\
  KZGCommitment_ComputeVersionedHash Demo.Keccak256Hash p !! 7%nat = Some x06.
Proof.
  intros p.
  destruct (ComputeVersionedHash_version_tag Demo.Keccak256Hash p eq_refl)
    as (_ & H0 & Hrest & _).
  split; [exact H0|]. rewrite (Hrest 7%nat) by lia. reflexivity.
Defined.

(** ** Commitment of a blob *)

Section ComputeCommitment.

Context {Fr G1Point : Type}.
Variable FrFrom32 : BLSFieldElement -> option Fr.
Variable BlobToKzg : list Fr -> G1Point.
Variable ToCompressedG1 : G1Point -> list byte.

Lemma ComputeCommitment_frs_None (blob : Blob) :
  ComputeCommitment_frs FrFrom32 blob = None <->
  Exists (fun e => FrFrom32 e = None) blob.
Proof.
  induction blob as [|e blob IH]; simpl.
  - split; [discriminate | intros H; inversion H].
  - destruct (FrFrom32 e) as [fr|] eqn:E.
    + destruct (ComputeCommitment_frs FrFrom32 blob) as [frs|].
      * split; [discriminate|]. intros H. inversion H; subst; [congruence|].
        apply IH in H1. discriminate.
      * split; [|reflexivity]. intros _. apply Exists_cons_tl. apply IH. reflexivity.
    + split; [|reflexivity]. intros _. apply Exists_cons_hd. exact E.
Qed.

Lemma ComputeCommitment_frs_Some (blob : Blob) (frs : list Fr) :
  ComputeCommitment_frs FrFrom32 blob = Some frs <->
  Forall2 (fun e fr => FrFrom32 e = Some fr) blob frs.
Proof.
  revert frs. induction blob as [|e blob IH]; intros frs; simpl.
  - split.
    + intros [= <-]. constructor.
    + intros H. inversion H. reflexivity.
  - destruct (FrFrom32 e) as [fr|] eqn:E.
    + destruct (ComputeCommitment_frs FrFrom32 blob) as [frs'|].
      * split.
        -- intros [= <-]. constructor; [exact E | apply IH; reflexivity].
        -- intros H. inversion H as [|? fr0 ? frs0 H1 H2]; subst.
           apply IH in H2. congruence.
      * split; [discriminate|].
        intros H. inversion H as [|? fr0 ? frs0 H1 H2]; subst.
        apply IH in H2. discriminate.
    + split; [discriminate|]. intros H. inversion H; subst. congruence.
Qed.

Lemma go_copy_length {A} (dst src : list A) :
  length (go_copy dst src) = length dst.
Proof.
  unfold go_copy. rewrite length_app, length_take, length_drop. lia.
Qed.

(** C4. Let the conversion of a scalar fail exactly when the scalar is not
    below the field modulus. Then [ComputeCommitment] returns the zero
    commitment and [false] as soon as one scalar of the blob is not below
    the modulus; if all are below it, it returns [true] and the compressed
    commitment of the converted scalars, all of them, in order. The result
    always has 48 bytes and is a function of the blob's scalars alone. *)
Theorem Blob_ComputeCommitment_outcome (blob : Blob) :
  Forall (fun e => FrFrom32 e = None <-> BLS_MODULUS <= scalar_value e) blob ->
  (Exists (fun e => BLS_MODULUS <= scalar_value e) blob ->
   Blob_ComputeCommitment FrFrom32 BlobToKzg ToCompressedG1 blob
   = (KZGCommitment_zero, false)) /\
  (Forall (fun e => scalar_value e < BLS_MODULUS) blob ->
   exists frs,
     Forall2 (fun e fr => FrFrom32 e = Some fr) blob frs /\
     Blob_ComputeCommitment FrFrom32 BlobToKzg ToCompressedG1 blob
     = (go_copy KZGCommitment_zero (ToCompressedG1 (BlobToKzg frs)), true)) /\
  wf_KZGCommitment (Blob_ComputeCommitment FrFrom32 BlobToKzg ToCompressedG1 blob).1 /\
  (forall blob' : Blob,
      blob' = blob ->
      Blob_ComputeCommitment FrFrom32 BlobToKzg ToCompressedG1 blob'
      = Blob_ComputeCommitment FrFrom32 BlobToKzg ToCompressedG1 blob).
Proof.
  intros Hconv. split; [|split; [|split]].
  - intros Hex. unfold Blob_ComputeCommitment.
    assert (Hnone : ComputeCommitment_frs FrFrom32 blob = None).
    { apply ComputeCommitment_frs_None.
      rewrite Exists_exists in *. destruct Hex as (e & Hin & Hge).
      exists e. split; [exact Hin|].
      rewrite Forall_forall in Hconv. apply (Hconv e Hin). exact Hge. }
    rewrite Hnone. reflexivity.
  - intros Hall. unfold Blob_ComputeCommitment.
    destruct (ComputeCommitment_frs FrFrom32 blob) as [frs|] eqn:E.
    + exists frs. split; [|reflexivity]. apply ComputeCommitment_frs_Some. exact E.
    + exfalso. apply ComputeCommitment_frs_None in E.
      rewrite Exists_exists in E. destruct E as (e & Hin & Hnone).
      rewrite Forall_forall in Hconv, Hall.
      apply (Hconv e Hin) in Hnone. specialize (Hall e Hin). lia.
  - unfold Blob_ComputeCommitment, wf_KZGCommitment.
    destruct (ComputeCommitment_frs FrFrom32 blob); simpl.
    + rewrite go_copy_length. reflexivity.
    + reflexivity.
  - intros blob' ->. reflexivity.
Qed.

End ComputeCommitment.

Lemma Blob_ComputeCommitment_outcome_witness :
  let blob := repeat BLSFieldElement_zero 4 in
  (Blob_ComputeCommitment Demo.FrFrom32 Demo.BlobToKzg Demo.ToCompressedG1 blob).2
  = true.
Proof.
  intros blob.
  assert (Hconv : Forall (fun e => Demo.FrFrom32 e = None <-> BLS_MODULUS <= scalar_value e) blob).
  { repeat constructor; vm_compute; intros; congruence. }
  assert (Hall : Forall (fun e => scalar_value e < BLS_MODULUS) blob).
  { repeat constructor. }
  destruct (Blob_ComputeCommitment_outcome Demo.FrFrom32 Demo.BlobToKzg
              Demo.ToCompressedG1 blob Hconv) as (_ & Hok & _).
  destruct (Hok Hall) as (frs & Hfrs & Heq).
  rewrite Heq. reflexivity.
Defined.

(** ** Checking the wrap data of a transaction *)

Section CheckWrapping.

Variable MaxBlobsPerTx : Z.
Context {Fr G1Point : Type}.
Variable FrFrom32 : BLSFieldElement -> option Fr.
Variable FromCompressedG1 : list byte -> option G1Point.
Variable VerifyBlobs : list G1Point -> list (list Fr) -> option error.
Variable Keccak256Hash : list byte -> Hash.
Variable SignedBlobTx : Type.
Variable BlobVersionedHashes : SignedBlobTx -> list Hash.

Local Abbreviation versionedHash := (KZGCommitment_ComputeVersionedHash Keccak256Hash).
Local Abbreviation check :=
  (checkWrapping MaxBlobsPerTx FrFrom32 FromCompressedG1 VerifyBlobs Keccak256Hash
     SignedBlobTx BlobVersionedHashes).

(** The hash loop, started at index [i] on the hashes from [i] on, reports
    the first index whose hash differs from the computed one. *)
Lemma checkWrapping_hashes_mismatch (kzgs : BlobKzgs) :
  forall (hashes : list Hash) (i n : nat) (h : Hash) (k : KZGCommitment),
    hashes !! n = Some h ->
    kzgs !! (i + n)%nat = Some k ->
    versionedHash k <> h ->
    (forall j hj kj, (j < n)%nat -> hashes !! j = Some hj ->
                     kzgs !! (i + j)%nat = Some kj -> versionedHash kj = hj) ->
    checkWrapping_hashes Keccak256Hash kzgs i hashes
    = Some (ErrVersionedHash (Z.of_nat (i + n)) h (versionedHash k)).
Proof.
  induction hashes as [|h0 hashes IH]; intros i n h k Hh Hk Hne Hbefore.
  - discriminate.
  - simpl. destruct n as [|n].
    + simpl in Hh. injection Hh as ->. rewrite Nat.add_0_r in *.
      rewrite (list_lookup_total_correct _ _ _ Hk).
      destruct (bytes_eqb (versionedHash k) h) eqn:E.
      * apply bytes_eqb_eq in E. contradiction.
      * reflexivity.
    + assert (Hi : is_Some (kzgs !! i)).
      { apply lookup_lt_is_Some. apply lookup_lt_Some in Hk. lia. }
      destruct Hi as [k0 Hk0].
      rewrite (list_lookup_total_correct _ _ _ Hk0).
      assert (E : versionedHash k0 = h0).
      { apply (Hbefore 0%nat h0 k0); [lia | reflexivity |].
        rewrite Nat.add_0_r. exact Hk0. }
      apply bytes_eqb_eq in E. rewrite E. simpl.
      replace (i + S n)%nat with (S i + n)%nat in * by lia.
      apply IH; auto.
      intros j hj kj Hj Hhj Hkj.
      apply (Hbefore (S j) hj kj); [lia | exact Hhj |].
      replace (i + S j)%nat with (S i + j)%nat by lia. exact Hkj.
Qed.

Lemma checkWrapping_hashes_match (kzgs : BlobKzgs) :
  forall (hashes : list Hash) (i : nat),
    Forall2 (fun k h => versionedHash k = h) (drop i kzgs) hashes ->
    checkWrapping_hashes Keccak256Hash kzgs i hashes = None.
Proof.
  induction hashes as [|h hashes IH]; intros i Hall; [reflexivity|].
  simpl. inversion Hall as [|k ? ks ? Hk Hrest Hd]; subst.
  assert (Hki : kzgs !! i = Some k).
  { rewrite <- (Nat.add_0_r i), <- lookup_drop, <- Hd. reflexivity. }
  rewrite (list_lookup_total_correct _ _ _ Hki).
  replace (bytes_eqb (versionedHash k) (versionedHash k)) with true
    by (symmetry; apply bytes_eqb_eq; reflexivity).
  simpl. apply IH.
  replace (drop (S i) kzgs) with ks; [exact Hrest|].
  change ks with (drop 1 (k :: ks)). rewrite Hd, drop_drop. f_equal. lia.
Qed.

Lemma Commitments_loop_ok (li : BlobKzgs) :
  forall (acc points : list G1Point),
    Forall2 (fun c p => FromCompressedG1 c = Some p) li points ->
    Commitments_loop FromCompressedG1 li acc = (acc ++ points, None).
Proof.
  induction li as [|c li IH]; intros acc points Hall;
    inversion Hall as [|? p ? ps Hc Hrest]; subst; simpl.
  - rewrite app_nil_r. reflexivity.
  - unfold KZGCommitment_Point. rewrite Hc, (IH _ ps Hrest), <- app_assoc.
    reflexivity.
Qed.

Lemma Commitments_loop_fail (li : BlobKzgs) :
  forall acc : list G1Point,
    Exists (fun c => FromCompressedG1 c = None) li ->
    Commitments_loop FromCompressedG1 li acc = ([], Some ErrInternalErrorCommitments).
Proof.
  induction li as [|c li IH]; intros acc Hex; [inversion Hex|].
  simpl. unfold KZGCommitment_Point.
  destruct (FromCompressedG1 c) as [p|] eqn:E; [|reflexivity].
  apply IH. inversion Hex; subst; [congruence | assumption].
Qed.

Lemma Blobs_Blobs_chunks_ok (b : Blob) :
  forall (acc frs : list Fr),
    Forall2 (fun chunk fr => FrFrom32 chunk = Some fr) b frs ->
    Blobs_Blobs_chunks FrFrom32 b acc = Some (acc ++ frs).
Proof.
  induction b as [|chunk b IH]; intros acc frs Hall;
    inversion Hall as [|? fr ? frs' Hc Hrest]; subst; simpl.
  - rewrite app_nil_r. reflexivity.
  - rewrite Hc, (IH _ frs' Hrest), <- app_assoc. reflexivity.
Qed.

Lemma Blobs_Blobs_chunks_fail (b : Blob) :
  forall acc : list Fr,
    Exists (fun chunk => FrFrom32 chunk = None) b ->
    Blobs_Blobs_chunks FrFrom32 b acc = None.
Proof.
  induction b as [|chunk b IH]; intros acc Hex; [inversion Hex|].
  simpl. destruct (FrFrom32 chunk) as [fr|] eqn:E; [|reflexivity].
  apply IH. inversion Hex; subst; [congruence | assumption].
Qed.

Lemma Blobs_Blobs_loop_ok (blobs : Blobs) :
  forall (acc frss : list (list Fr)),
    Forall2 (Forall2 (fun chunk fr => FrFrom32 chunk = Some fr)) blobs frss ->
    Blobs_Blobs_loop FrFrom32 blobs acc = (acc ++ frss, None).
Proof.
  induction blobs as [|b blobs IH]; intros acc frss Hall;
    inversion Hall as [|? frs ? frss' Hb Hrest]; subst; simpl.
  - rewrite app_nil_r. reflexivity.
  - rewrite (Blobs_Blobs_chunks_ok b [] frs Hb). simpl.
    rewrite (IH _ frss' Hrest), <- app_assoc. reflexivity.
Qed.

Lemma Blobs_Blobs_loop_fail (blobs : Blobs) :
  forall acc : list (list Fr),
    Exists (Exists (fun chunk => FrFrom32 chunk = None)) blobs ->
    Blobs_Blobs_loop FrFrom32 blobs acc = ([], Some ErrInternalErrorCommitments).
Proof.
  induction blobs as [|b blobs IH]; intros acc Hex; [inversion Hex|].
  simpl. destruct (Blobs_Blobs_chunks FrFrom32 b []) as [frs|] eqn:E; [|reflexivity].
  apply IH. inversion Hex as [? ? Hb | ? ? Hrest]; subst; [|assumption].
  rewrite (Blobs_Blobs_chunks_fail b [] Hb) in E. discriminate.
Qed.

Lemma checkWrapping_counts_ok (b : BlobTxWrapData) (tx : SignedBlobTx) :
  len (BlobVersionedHashes tx) <= MaxBlobsPerTx ->
  length (wd_BlobKzgs b) = length (wd_Blobs b) ->
  length (wd_BlobKzgs b) = length (BlobVersionedHashes tx) ->
  check b (TxSignedBlobTx SignedBlobTx tx)
  = match checkWrapping_hashes Keccak256Hash (wd_BlobKzgs b) 0 (BlobVersionedHashes tx) with
    | Some e => Some e
    | None =>
        let '(commitments, err) := BlobKzgs_Commitments FromCompressedG1 (wd_BlobKzgs b) in
        match err with
        | Some _ => Some ErrInternalCommitment
        | None =>
            let '(blobs, err) := Blobs_Blobs FrFrom32 (wd_Blobs b) in
            match err with
            | Some _ => Some ErrInternalBlobs
            | None => VerifyBlobs commitments blobs
            end
        end
    end.
Proof.
  intros Hmax Hkb Hkh. unfold checkWrapping.
  replace (MaxBlobsPerTx <? len (BlobVersionedHashes tx)) with false
    by (symmetry; apply Z.ltb_ge; exact Hmax).
  replace (len (wd_BlobKzgs b) =? len (wd_Blobs b)) with true
    by (symmetry; apply Z.eqb_eq; unfold len; lia).
  replace (len (wd_BlobKzgs b) =? len (BlobVersionedHashes tx)) with true
    by (symmetry; apply Z.eqb_eq; unfold len; lia).
  reflexivity.
Qed.

(** C1. [checkWrapping] on a signed blob transaction checks in this order
    and returns the first failure: (1) no more declared hashes than
    [MaxBlobsPerTx]; (2) as many commitments as blobs; (3) as many
    commitments as declared hashes; (4) the versioned hash of each
    commitment against the declared hash of the same index, reporting the
    least index that differs; (5) every commitment converts to a curve
    point; (6) every scalar of every blob converts to a field element;
    (7) the result of the batch verification is returned as it is. In
    particular a wrong hash at index 0 is reported with index 0 whatever
    the other hashes are. *)
Theorem checkWrapping_ordered (b : BlobTxWrapData) (tx : SignedBlobTx) :
  let hashes := BlobVersionedHashes tx in
  let kzgs := wd_BlobKzgs b in
  let blobs := wd_Blobs b in
  let result := check b (TxSignedBlobTx SignedBlobTx tx) in
  let counts_ok :=
    len hashes <= MaxBlobsPerTx /\
    length kzgs = length blobs /\ length kzgs = length hashes in
  let hashes_ok := Forall2 (fun k h => versionedHash k = h) kzgs hashes in
  (MaxBlobsPerTx < len hashes ->
   result = Some (ErrTooManyBlobs (len hashes) MaxBlobsPerTx)) /\
  (len hashes <= MaxBlobsPerTx -> length kzgs <> length blobs ->
   result = Some (ErrKzgsBlobs (len kzgs) (len blobs))) /\
  (len hashes <= MaxBlobsPerTx -> length kzgs = length blobs ->
   length kzgs <> length hashes ->
   result = Some (ErrKzgsVersionedHashes (len kzgs) (len hashes))) /\
  (counts_ok ->
   forall (i : nat) (h : Hash) (k : KZGCommitment),
     hashes !! i = Some h -> kzgs !! i = Some k -> versionedHash k <> h ->
     (forall j hj kj, (j < i)%nat -> hashes !! j = Some hj -> kzgs !! j = Some kj ->
                      versionedHash kj = hj) ->
     result = Some (ErrVersionedHash (Z.of_nat i) h (versionedHash k))) /\
  (counts_ok -> hashes_ok ->
   Exists (fun c => FromCompressedG1 c = None) kzgs ->
   result = Some ErrInternalCommitment) /\
  (counts_ok -> hashes_ok ->
   forall points : list G1Point,
     Forall2 (fun c p => FromCompressedG1 c = Some p) kzgs points ->
     Exists (Exists (fun chunk => FrFrom32 chunk = None)) blobs ->
     result = Some ErrInternalBlobs) /\
  (counts_ok -> hashes_ok ->
   forall (points : list G1Point) (frss : list (list Fr)),
     Forall2 (fun c p => FromCompressedG1 c = Some p) kzgs points ->
     Forall2 (Forall2 (fun chunk fr => FrFrom32 chunk = Some fr)) blobs frss ->
     result = VerifyBlobs points frss) /\
  (counts_ok ->
   forall (h0 : Hash) (k0 : KZGCommitment),
     hashes !! 0%nat = Some h0 -> kzgs !! 0%nat = Some k0 -> versionedHash k0 <> h0 ->
     result = Some (ErrVersionedHash 0 h0 (versionedHash k0))).
Proof.
  intros hashes kzgs blobs result counts_ok hashes_ok.
  subst hashes kzgs blobs result counts_ok hashes_ok.
  assert (Hfirst :
    len (BlobVersionedHashes tx) <= MaxBlobsPerTx /\
    length (wd_BlobKzgs b) = length (wd_Blobs b) /\
    length (wd_BlobKzgs b) = length (BlobVersionedHashes tx) ->
    forall (i : nat) (h : Hash) (k : KZGCommitment),
      BlobVersionedHashes tx !! i = Some h -> wd_BlobKzgs b !! i = Some k ->
      versionedHash k <> h ->
      (forall j hj kj, (j < i)%nat -> BlobVersionedHashes tx !! j = Some hj ->
                       wd_BlobKzgs b !! j = Some kj -> versionedHash kj = hj) ->
      check b (TxSignedBlobTx SignedBlobTx tx)
      = Some (ErrVersionedHash (Z.of_nat i) h (versionedHash k))).
  { intros (Hmax & Hkb & Hkh) i h k Hh Hk Hne Hbefore.
    rewrite checkWrapping_counts_ok by assumption.
    rewrite (checkWrapping_hashes_mismatch (wd_BlobKzgs b) (BlobVersionedHashes tx)
               0 i h k Hh Hk Hne Hbefore).
    reflexivity. }
  repeat apply conj.
  - intros Hmax. unfold checkWrapping.
    replace (MaxBlobsPerTx <? len (BlobVersionedHashes tx)) with true
      by (symmetry; apply Z.ltb_lt; exact Hmax).
    reflexivity.
  - intros Hmax Hne. unfold checkWrapping.
    replace (MaxBlobsPerTx <? len (BlobVersionedHashes tx)) with false
      by (symmetry; apply Z.ltb_ge; exact Hmax).
    replace (len (wd_BlobKzgs b) =? len (wd_Blobs b)) with false
      by (symmetry; apply Z.eqb_neq; unfold len; lia).
    reflexivity.
  - intros Hmax Hkb Hne. unfold checkWrapping.
    replace (MaxBlobsPerTx <? len (BlobVersionedHashes tx)) with false
      by (symmetry; apply Z.ltb_ge; exact Hmax).
    replace (len (wd_BlobKzgs b) =? len (wd_Blobs b)) with true
      by (symmetry; apply Z.eqb_eq; unfold len; lia).
    replace (len (wd_BlobKzgs b) =? len (BlobVersionedHashes tx)) with false
      by (symmetry; apply Z.eqb_neq; unfold len; lia).
    reflexivity.
  - exact Hfirst.
  - intros (Hmax & Hkb & Hkh) Hhashes Hex.
    rewrite checkWrapping_counts_ok by assumption.
    rewrite checkWrapping_hashes_match by (rewrite drop_0; exact Hhashes).
    unfold BlobKzgs_Commitments. rewrite Commitments_loop_fail by exact Hex.
    reflexivity.
  - intros (Hmax & Hkb & Hkh) Hhashes points Hpoints Hex.
    rewrite checkWrapping_counts_ok by assumption.
    rewrite checkWrapping_hashes_match by (rewrite drop_0; exact Hhashes).
    unfold BlobKzgs_Commitments. rewrite (Commitments_loop_ok _ [] points Hpoints).
    unfold Blobs_Blobs. rewrite Blobs_Blobs_loop_fail by exact Hex.
    reflexivity.
  - intros (Hmax & Hkb & Hkh) Hhashes points frss Hpoints Hfrss.
    rewrite checkWrapping_counts_ok by assumption.
    rewrite checkWrapping_hashes_match by (rewrite drop_0; exact Hhashes).
    unfold BlobKzgs_Commitments. rewrite (Commitments_loop_ok _ [] points Hpoints).
    unfold Blobs_Blobs. rewrite (Blobs_Blobs_loop_ok _ [] frss Hfrss).
    reflexivity.
  - intros Hcounts h0 k0 Hh Hk Hne.
    apply (Hfirst Hcounts 0%nat h0 k0 Hh Hk Hne). intros j hj kj Hj. lia.
Qed.

End CheckWrapping.

Lemma checkWrapping_ordered_witness :
  let k0 := repeat x01 48 in
  let k1 := repeat x02 48 in
  let h_wrong := repeat x00 32 in
  let b := mkWrapData [k0; k1] [[BLSFieldElement_zero]; [BLSFieldElement_zero]] in
  checkWrapping 2 Demo.FrFrom32 Demo.FromCompressedG1 Demo.VerifyBlobs
    Demo.Keccak256Hash Demo.SignedBlobTx Demo.BlobVersionedHashes
    b (TxSignedBlobTx Demo.SignedBlobTx [h_wrong; h_wrong])
  = Some (ErrVersionedHash 0 h_wrong
            (KZGCommitment_ComputeVersionedHash Demo.Keccak256Hash k0)).
Proof.
  intros k0 k1 h_wrong b.
  pose proof (checkWrapping_ordered 2 Demo.FrFrom32 Demo.FromCompressedG1
                Demo.VerifyBlobs Demo.Keccak256Hash Demo.SignedBlobTx
                Demo.BlobVersionedHashes b [h_wrong; h_wrong]) as H.
  cbv zeta in H.
  destruct H as (_ & _ & _ & _ & _ & _ & _ & Hzero).
  apply Hzero.
  - repeat split; vm_compute; congruence.
  - reflexivity.
  - reflexivity.
  - vm_compute. discriminate.
Defined.

(** Two commitments against three blobs: the count mismatch is reported
    although the declared hashes are wrong too. *)
Example checkWrapping_count_mismatch :
  checkWrapping 4 Demo.FrFrom32 Demo.FromCompressedG1 Demo.VerifyBlobs
    Demo.Keccak256Hash Demo.SignedBlobTx Demo.BlobVersionedHashes
    (mkWrapData [repeat x01 48; repeat x02 48] [[]; []; []])
    (TxSignedBlobTx Demo.SignedBlobTx [repeat x00 32; repeat x00 32])
  = Some (ErrKzgsBlobs 2 3).
Proof. vm_compute. reflexivity. Qed.

(** Matching hashes, convertible commitments and scalars: the result is
    that of the batch verification. *)
Example checkWrapping_accepts :
  let k0 := repeat x01 48 in
  checkWrapping 4 Demo.FrFrom32 Demo.FromCompressedG1 Demo.VerifyBlobs
    Demo.Keccak256Hash Demo.SignedBlobTx Demo.BlobVersionedHashes
    (mkWrapData [k0] [[BLSFieldElement_zero]])
    (TxSignedBlobTx Demo.SignedBlobTx
       [KZGCommitment_ComputeVersionedHash Demo.Keccak256Hash k0])
  = None.
Proof. vm_compute. reflexivity. Qed.

(** ** The SSZ writer *)

Lemma u64_small (z : Z) : 0 <= z < 2 ^ 64 -> u64 z = z.
Proof. intros H. unfold u64. apply Z.mod_small. exact H. Qed.

Lemma len_concat_const {A} (ls : list (list A)) (n : nat) :
  Forall (fun l => length l = n) ls -> len (concat ls) = Z.of_nat n * len ls.
Proof.
  unfold len. induction 1 as [|l ls Hl _ IH]; simpl; [lia|].
  rewrite length_app, Hl. lia.
Qed.

Lemma WriteFieldElements_out (elems : list BLSFieldElement) :
  forall ew, WriteFieldElements ew elems = (None, ew ++ concat elems).
Proof.
  induction elems as [|e elems IH]; intros ew; simpl.
  - rewrite app_nil_r. reflexivity.
  - rewrite IH, <- app_assoc. reflexivity.
Qed.

(** Writing the elements [i], [i+1], ... of a list, [n] of them. *)
Lemma List_write_loop_out {A} `{Inhabited A}
    (ser : A -> codec.EncodingWriter -> option error * codec.EncodingWriter)
    (enc : A -> list byte) (l : list A) :
  (forall x w, ser x w = (None, w ++ enc x)) ->
  forall (n i : nat) (w : codec.EncodingWriter),
    (i + n <= length l)%nat ->
    codec.List_write_loop (fun j w => ser (l !!! Z.to_nat j) w) (Z.of_nat i) n w
    = (None, w ++ concat (map enc (take n (drop i l)))).
Proof.
  intros Hser. induction n as [|n IH]; intros i w Hle; simpl.
  - rewrite app_nil_r. reflexivity.
  - rewrite Hser, Nat2Z.id.
    replace (Z.of_nat i + 1) with (Z.of_nat (S i)) by lia.
    rewrite IH by lia.
    destruct (lookup_lt_is_Some_2 l i ltac:(lia)) as [x Hx].
    rewrite (list_lookup_total_correct _ _ _ Hx).
    rewrite (drop_S _ _ _ Hx). simpl.
    rewrite <- app_assoc. reflexivity.
Qed.

Lemma WriteList_out {A} `{Inhabited A}
    (ser : A -> codec.EncodingWriter -> option error * codec.EncodingWriter)
    (enc : A -> list byte) (l : list A) (fixedLen : Z) (w : codec.EncodingWriter) :
  (forall x w, ser x w = (None, w ++ enc x)) ->
  len l < 2 ^ 64 ->
  codec.WriteList (fun j w => ser (l !!! Z.to_nat j) w) fixedLen (u64 (len l)) w
  = (None, w ++ concat (map enc l)).
Proof.
  intros Hser Hlen. unfold codec.WriteList.
  rewrite u64_small by (pose proof (len_nonneg l); lia).
  unfold len. rewrite Nat2Z.id.
  rewrite (List_write_loop_out ser enc l Hser (length l) 0 w) by lia.
  rewrite drop_0, firstn_all. reflexivity.
Qed.

Lemma BlobKzgs_Serialize_out (li : BlobKzgs) (w : codec.EncodingWriter) :
  len li < 2 ^ 64 ->
  BlobKzgs_Serialize li w = (None, w ++ concat li).
Proof.
  intros Hlen. unfold BlobKzgs_Serialize.
  rewrite (WriteList_out KZGCommitment_Serialize (fun p => p)); auto.
  rewrite map_id. reflexivity.
Qed.

Lemma Blobs_Serialize_out (F : Z) (a : Blobs) (w : codec.EncodingWriter) :
  len a < 2 ^ 64 ->
  Blobs_Serialize F a w = (None, w ++ concat (map (@concat byte) a)).
Proof.
  intros Hlen. unfold Blobs_Serialize.
  rewrite (WriteList_out Blob_Serialize (fun b => concat b)); auto.
  intros x w0. apply WriteFieldElements_out.
Qed.

Lemma wf_Blob_len_concat (F : Z) (blob : Blob) :
  wf_Blob F blob -> len (concat blob) = F * 32.
Proof.
  intros [Hwf Hlen]. rewrite (len_concat_const blob 32 Hwf). lia.
Qed.

Lemma wf_Blobs_len_concat (F : Z) (a : Blobs) :
  Forall (wf_Blob F) a -> len (concat (map (@concat byte) a)) = len a * F * 32.
Proof.
  unfold len. induction 1 as [|blob a Hb _ IH]; simpl; [lia|].
  rewrite length_app. apply wf_Blob_len_concat in Hb. unfold len in Hb. lia.
Qed.

(** C7, as amended. Encoding writes exactly [ByteLength] bytes for a blob
    of exactly [FieldElementsPerBlob] scalars ([FieldElementsPerBlob * 32]
    bytes), for a commitment (48 bytes), for a list of [N] commitments
    ([48 * N] bytes) and for a list of [N] blobs of exactly
    [FieldElementsPerBlob] scalars each ([N * FieldElementsPerBlob * 32]
    bytes), the lengths being below [2^64]. *)
Theorem Serialize_writes_ByteLength (FieldElementsPerBlob : Z) :
  (forall (blob : Blob) (w : codec.EncodingWriter),
      wf_Blob FieldElementsPerBlob blob ->
      exists out,
        Blob_Serialize blob w = (None, w ++ out) /\
        len out = Blob_ByteLength FieldElementsPerBlob blob /\
        Blob_ByteLength FieldElementsPerBlob blob = FieldElementsPerBlob * 32) /\
  (forall (p : KZGCommitment) (w : codec.EncodingWriter),
      wf_KZGCommitment p ->
      exists out,
        KZGCommitment_Serialize p w = (None, w ++ out) /\
        len out = KZGCommitment_ByteLength p /\
        KZGCommitment_ByteLength p = 48) /\
  (forall (li : BlobKzgs) (w : codec.EncodingWriter),
      Forall wf_KZGCommitment li ->
      48 * len li < 2 ^ 64 ->
      exists out,
        BlobKzgs_Serialize li w = (None, w ++ out) /\
        len out = BlobKzgs_ByteLength li /\
        BlobKzgs_ByteLength li = 48 * len li) /\
  (forall (a : Blobs) (w : codec.EncodingWriter),
      Forall (wf_Blob FieldElementsPerBlob) a ->
      len a < 2 ^ 64 ->
      len a * FieldElementsPerBlob * 32 < 2 ^ 64 ->
      exists out,
        Blobs_Serialize FieldElementsPerBlob a w = (None, w ++ out) /\
        len out = Blobs_ByteLength FieldElementsPerBlob a /\
        Blobs_ByteLength FieldElementsPerBlob a = len a * FieldElementsPerBlob * 32).
Proof.
  repeat apply conj.
  - intros blob w Hwf. exists (concat blob). split; [|split].
    + apply WriteFieldElements_out.
    + rewrite (wf_Blob_len_concat _ _ Hwf). reflexivity.
    + reflexivity.
  - intros p w Hwf. exists p. split; [reflexivity|]. split; [|reflexivity].
    unfold wf_KZGCommitment in Hwf. unfold len, KZGCommitment_ByteLength. lia.
  - intros li w Hwf Hsize. pose proof (len_nonneg li) as Hnn.
    assert (Hbl : BlobKzgs_ByteLength li = 48 * len li).
    { unfold BlobKzgs_ByteLength.
      rewrite (u64_small (len li)) by lia. rewrite u64_small by lia. lia. }
    exists (concat li). split; [|split].
    + apply BlobKzgs_Serialize_out. lia.
    + rewrite Hbl, (len_concat_const li 48 Hwf). lia.
    + exact Hbl.
  - intros a w Hwf Ha Hsize. pose proof (len_nonneg a) as Hnn.
    assert (HF : a = [] \/ 0 <= FieldElementsPerBlob).
    { destruct Hwf as [|blob a' [_ Hb] _]; [left; reflexivity | right].
      rewrite <- Hb. apply len_nonneg. }
    assert (Hbl : Blobs_ByteLength FieldElementsPerBlob a
                  = len a * FieldElementsPerBlob * 32).
    { unfold Blobs_ByteLength. destruct HF as [-> | HF]; [reflexivity|].
      rewrite (u64_small (len a)) by lia.
      rewrite (u64_small (len a * FieldElementsPerBlob)) by nia.
      rewrite u64_small by nia. reflexivity. }
    exists (concat (map (@concat byte) a)). split; [|split].
    + apply Blobs_Serialize_out. exact Ha.
    + rewrite Hbl. apply wf_Blobs_len_concat. exact Hwf.
    + exact Hbl.
Qed.

Lemma Serialize_writes_ByteLength_witness :
  let a : Blobs := [[BLSFieldElement_zero; BLSFieldElement_zero];
                    [repeat x07 32; repeat x09 32]] in
  exists out,
    Blobs_Serialize 2 a [] = (None, [] ++ out) /\
    len out = Blobs_ByteLength 2 a /\
    Blobs_ByteLength 2 a = len a * 2 * 32.
Proof.
  intros a.
  apply (proj2 (proj2 (proj2 (Serialize_writes_ByteLength 2)))).
  - repeat constructor.
  - reflexivity.
  - reflexivity.
Defined.

(** C7 as stated fails for a blob that does not hold exactly
    [FieldElementsPerBlob] scalars: with 4096 scalars per blob, a blob of
    one scalar is written as 32 bytes, and its [ByteLength] is 131072. *)
Lemma Serialize_length_short_blob :
  let blob : Blob := [BLSFieldElement_zero] in
  Blob_Serialize blob [] = (None, BLSFieldElement_zero) /\
  len (Blob_Serialize blob []).2 = 32 /\
  Blob_ByteLength 4096 blob = 131072 /\
  len (Blob_Serialize blob []).2 <> Blob_ByteLength 4096 blob.
Proof. vm_compute. repeat split; congruence. Qed.

(** ** The SSZ reader *)

Lemma Read_exact (dr : codec.DecodingReader) (p data rest : list byte) :
  reader_ok dr ->
  codec.input dr = data ++ rest ->
  length data = length p ->
  codec.idx dr + len p <= codec.max dr ->
  codec.Read dr p
  = (len p, None, data, codec.mkReader rest (codec.idx dr + len p) (codec.max dr)).
Proof.
  intros [Hidx Hmax] Hin Hlen Hfit. unfold codec.Read.
  pose proof (len_nonneg p) as Hnn.
  destruct (len p =? 0) eqn:E.
  - apply Z.eqb_eq in E. unfold len in E.
    destruct p; [|simpl in E; lia]. destruct data; [|discriminate].
    destruct dr as [inp i m]. simpl in *. subst inp.
    rewrite Z.add_0_r. reflexivity.
  - rewrite (u64_small (codec.idx dr + len p)) by lia.
    replace (codec.max dr <? codec.idx dr + len p) with false
      by (symmetry; apply Z.ltb_ge; lia).
    replace (codec.idx dr + len p <? codec.idx dr) with false
      by (symmetry; apply Z.ltb_ge; lia).
    simpl orb. cbv iota.
    rewrite Hin, <- Hlen, take_app_length, drop_app_length.
    replace (len data) with (len p) by (unfold len; lia).
    rewrite Z.ltb_irrefl, u64_small by lia.
    rewrite go_copy_full by lia. reflexivity.
Qed.

Lemma KZGCommitment_Deserialize_ok (dr : codec.DecodingReader)
    (p q : KZGCommitment) (rest : list byte) :
  reader_ok dr ->
  codec.input dr = p ++ rest ->
  wf_KZGCommitment p -> wf_KZGCommitment q ->
  codec.idx dr + 48 <= codec.max dr ->
  KZGCommitment_Deserialize (Some q) dr
  = (None, Some p, codec.mkReader rest (codec.idx dr + 48) (codec.max dr)).
Proof.
  unfold wf_KZGCommitment. intros Hok Hin Hp Hq Hfit.
  assert (Hq48 : len q = 48) by (unfold len; lia).
  unfold KZGCommitment_Deserialize.
  rewrite (Read_exact dr q p rest Hok Hin) by lia.
  rewrite Hq48. reflexivity.
Qed.

(** *** Decoding a list appends to the destination *)

(** A read without error has filled [p] with the next bytes of the
    stream. *)
Lemma Read_takes_input (dr dr' : codec.DecodingReader) (p p' : list byte) (n : Z) :
  codec.Read dr p = (n, None, p', dr') ->
  length p' = length p /\ codec.input dr = p' ++ codec.input dr'.
Proof.
  unfold codec.Read. destruct (len p =? 0) eqn:E0.
  - intros [= _ <- <-]. apply Z.eqb_eq in E0.
    destruct p; [|unfold len in E0; simpl in E0; lia]. split; reflexivity.
  - destruct ((codec.max dr <? u64 (codec.idx dr + len p))
              || (u64 (codec.idx dr + len p) <? codec.idx dr)); [discriminate|].
    destruct (len (take (length p) (codec.input dr)) <? len p) eqn:E3; [discriminate|].
    apply Z.ltb_ge in E3. unfold len in E3. rewrite length_take in E3.
    intros [= _ <- <-]. cbn [codec.input].
    rewrite go_copy_full by (rewrite length_take; lia).
    split; [rewrite length_take; lia | rewrite take_drop; reflexivity].
Qed.

Lemma ReadFieldElements_loop_takes_input (n : nat) :
  forall (dst dst' : list BLSFieldElement) (i : nat) (dr dr' : codec.DecodingReader),
    Forall wf_BLSFieldElement dst ->
    (i + n <= length dst)%nat ->
    ReadFieldElements_loop dst i n dr = (None, dst', dr') ->
    Forall wf_BLSFieldElement dst' /\
    length dst' = length dst /\
    take i dst' = take i dst /\
    codec.input dr = concat (take n (drop i dst')) ++ codec.input dr'.
Proof.
  induction n as [|n IH]; intros dst dst' i dr dr' Hwf Hfit Hrun.
  - simpl in Hrun. injection Hrun as <- <-. rewrite take_0. simpl. auto.
  - cbn [ReadFieldElements_loop] in Hrun.
    destruct (lookup_lt_is_Some_2 dst i ltac:(lia)) as [d Hd].
    rewrite (list_lookup_total_correct _ _ _ Hd) in Hrun.
    assert (Hdwf : wf_BLSFieldElement d).
    { rewrite Forall_forall in Hwf. apply Hwf. apply list_elem_of_lookup. eauto. }
    destruct (codec.Read dr d) as [[[cnt err] e'] dr1] eqn:Eread.
    destruct err as [x|]; [discriminate|].
    destruct (Read_takes_input _ _ _ _ _ Eread) as (Hle & Hin).
    unfold wf_BLSFieldElement in Hdwf.
    assert (He' : wf_BLSFieldElement e') by (unfold wf_BLSFieldElement; lia).
    assert (Hfit' : (S i + n <= length (<[i:=e']> dst))%nat)
      by (rewrite length_insert; lia).
    destruct (IH (<[i:=e']> dst) dst' (S i) dr1 dr'
                (Forall_insert _ _ _ _ Hwf He') Hfit' Hrun)
      as (Hwf' & Hl & Ht & Hin').
    rewrite length_insert in Hl.
    assert (Hv : dst' !! i = Some e').
    { rewrite <- (lookup_take_lt dst' (S i) i) by lia. rewrite Ht.
      rewrite lookup_take_lt by lia. apply list_lookup_insert_eq. lia. }
    split; [exact Hwf'|]. split; [exact Hl|]. split.
    + replace (take i dst') with (take i (take (S i) dst'))
        by (rewrite take_take; f_equal; lia).
      rewrite Ht, take_take. replace (Nat.min i (S i)) with i by lia.
      apply take_insert_ge. lia.
    + rewrite (drop_S _ _ _ Hv). simpl. rewrite <- app_assoc, <- Hin'. exact Hin.
Qed.

(** The closure of [BlobKzgs.Deserialize]: the commitment it appends is
    made of the next 48 bytes of the stream. *)
Lemma BlobKzgs_add_Deserialize_decoded (li li' : BlobKzgs)
    (dr dr' : codec.DecodingReader) :
  BlobKzgs_add_Deserialize li dr = (None, li', dr') ->
  exists e,
    li' = li ++ [e] /\ wf_KZGCommitment e /\
    codec.input dr = e ++ codec.input dr'.
Proof.
  unfold BlobKzgs_add_Deserialize.
  rewrite (lookup_app_r li) by lia. rewrite Nat.sub_diag. simpl lookup.
  unfold KZGCommitment_Deserialize.
  destruct (codec.Read dr KZGCommitment_zero) as [[[cnt err] pv'] dr1] eqn:E.
  intros [= -> <- <-].
  destruct (Read_takes_input _ _ _ _ _ E) as (Hlen & Hin).
  exists pv'. simpl store.
  replace (length li) with (length li + 0)%nat at 1 by lia.
  rewrite insert_app_r. repeat split; auto.
Qed.

(** The closure of [Blobs.Deserialize]: the blob it appends is made of the
    next [FieldElementsPerBlob] scalars of the stream. *)
Lemma Blobs_add_Deserialize_decoded (F : Z) (a a' : Blobs)
    (dr dr' : codec.DecodingReader) :
  0 < F ->
  Blobs_add_Deserialize F a dr = (None, a', dr') ->
  exists e,
    a' = a ++ [e] /\ wf_Blob F e /\
    codec.input dr = concat e ++ codec.input dr'.
Proof.
  intros HF. unfold Blobs_add_Deserialize, Blob_Deserialize, ReadFieldElements.
  rewrite (list_lookup_total_correct (a ++ [[]]) (length a) [])
    by (rewrite lookup_app_r by lia; rewrite Nat.sub_diag; reflexivity).
  cbn [elems spare]. change (len (@nil BLSFieldElement)) with 0.
  replace (0 =? F) with false by (symmetry; apply Z.eqb_neq; lia).
  replace (F <=? cap (mkSlice (@nil BLSFieldElement) [])) with false
    by (symmetry; apply Z.leb_gt; unfold cap, len; simpl; lia).
  cbn [negb elems spare].
  assert (Hzero : Forall wf_BLSFieldElement (repeat BLSFieldElement_zero (Z.to_nat F))).
  { induction (Z.to_nat F); simpl; constructor; [reflexivity | assumption]. }
  destruct (ReadFieldElements_loop (repeat BLSFieldElement_zero (Z.to_nat F)) 0
              (Z.to_nat F) dr) as [[err dst] dr1] eqn:Eloop.
  intros [= -> <- <-]. cbn [elems].
  assert (Hfit : (0 + Z.to_nat F
                  <= length (repeat BLSFieldElement_zero (Z.to_nat F)))%nat)
    by (rewrite repeat_length; lia).
  destruct (ReadFieldElements_loop_takes_input _ _ _ _ _ _ Hzero Hfit Eloop)
    as (Hwf & Hl & _ & Hin).
  rewrite repeat_length in Hl.
  rewrite drop_0, take_ge in Hin by lia.
  exists dst.
  replace (length a) with (length a + 0)%nat at 1 by lia.
  rewrite insert_app_r. repeat split; auto. unfold len. lia.
Qed.

Lemma List_loop_appends_decoded {A}
    (step : list A -> codec.DecodingReader
            -> option error * list A * codec.DecodingReader)
    (enc : A -> list byte) (good : A -> Prop) :
  (forall s s' dr dr',
      step s dr = (None, s', dr') ->
      exists e, s' = s ++ [e] /\ good e /\ codec.input dr = enc e ++ codec.input dr') ->
  forall (n : nat) (s s' : list A) (dr dr' : codec.DecodingReader),
    codec.List_loop step n s dr = (None, s', dr') ->
    exists new,
      s' = s ++ new /\ length new = n /\ Forall good new /\
      codec.input dr = concat (map enc new) ++ codec.input dr'.
Proof.
  intros Hstep. induction n as [|n IH]; intros s s' dr dr' Hrun; simpl in Hrun.
  - injection Hrun as <- <-. exists []. rewrite app_nil_r. simpl. auto.
  - destruct (step s dr) as [[err s1] dr1] eqn:E.
    destruct err as [x|]; [discriminate|].
    destruct (Hstep _ _ _ _ E) as (e & -> & He & Hin).
    destruct (IH _ _ _ _ Hrun) as (new & -> & Hlen & Hall & Hin').
    exists (e :: new). rewrite <- app_assoc. simpl.
    repeat split; auto. rewrite <- app_assoc, <- Hin'. exact Hin.
Qed.

Lemma List_appends_decoded {A}
    (step : list A -> codec.DecodingReader
            -> option error * list A * codec.DecodingReader)
    (enc : A -> list byte) (good : A -> Prop) (elemSize limit : Z) :
  (forall s s' dr dr',
      step s dr = (None, s', dr') ->
      exists e, s' = s ++ [e] /\ good e /\ codec.input dr = enc e ++ codec.input dr') ->
  forall (s s' : list A) (dr dr' : codec.DecodingReader),
    codec.List step elemSize limit s dr = (None, s', dr') ->
    exists new,
      s' = s ++ new /\
      length new = Z.to_nat (codec.Scope dr / elemSize) /\
      Forall good new /\
      codec.input dr = concat (map enc new) ++ codec.input dr' /\
      length s' = (length s + Z.to_nat (codec.Scope dr / elemSize))%nat /\
      take (length s) s' = s.
Proof.
  intros Hstep s s' dr dr'. unfold codec.List.
  destruct (negb (codec.Scope dr mod elemSize =? 0)); [discriminate|].
  destruct (limit <? codec.Scope dr / elemSize); [discriminate|].
  intros Hrun.
  destruct (List_loop_appends_decoded step enc good Hstep _ _ _ _ _ Hrun)
    as (new & -> & Hlen & Hall & Hin).
  exists new. rewrite length_app, Hlen, take_app_length. auto 10.
Qed.

(** C8. A successful [Deserialize] of a commitment list or of a blob list
    into a destination that holds [k] elements leaves these [k] elements
    as they are and appends the decoded ones after them, [n] of them for a
    scope of [n] element sizes: the destination then has [k + n]
    elements, its first [k] are unchanged, and the [n] new ones are the
    commitments of 48 bytes, or the blobs of [FieldElementsPerBlob]
    scalars, that the bytes read from the stream spell out in order. *)
Theorem Deserialize_appends (FieldElementsPerBlob : Z)
    (dr dr' : codec.DecodingReader) :
  (forall li li' : BlobKzgs,
      BlobKzgs_Deserialize li dr = (None, li', dr') ->
      exists new : BlobKzgs,
        li' = li ++ new /\
        length new = Z.to_nat (codec.Scope dr / 48) /\
        Forall wf_KZGCommitment new /\
        codec.input dr = concat new ++ codec.input dr' /\
        length li' = (length li + Z.to_nat (codec.Scope dr / 48))%nat /\
        take (length li) li' = li) /\
  (forall a a' : Blobs,
      0 < FieldElementsPerBlob ->
      Blobs_Deserialize FieldElementsPerBlob a dr = (None, a', dr') ->
      exists new : Blobs,
        a' = a ++ new /\
        length new = Z.to_nat (codec.Scope dr / (FieldElementsPerBlob * 32)) /\
        Forall (wf_Blob FieldElementsPerBlob) new /\
        codec.input dr = concat (map (@concat byte) new) ++ codec.input dr' /\
        length a' = (length a + Z.to_nat (codec.Scope dr / (FieldElementsPerBlob * 32)))%nat /\
        take (length a) a' = a).
Proof.
  split.
  - intros li li' Hrun.
    destruct (List_appends_decoded BlobKzgs_add_Deserialize (fun p => p)
                wf_KZGCommitment 48 MAX_TX_WRAP_KZG_COMMITMENTS
                BlobKzgs_add_Deserialize_decoded _ _ _ _ Hrun)
      as (new & Happ & Hlen & Hall & Hin & Hlen' & Htake).
    rewrite map_id in Hin. exists new. auto 10.
  - intros a a' HF Hrun.
    apply (List_appends_decoded (Blobs_add_Deserialize FieldElementsPerBlob)
             (@concat byte) (wf_Blob FieldElementsPerBlob)
             (FieldElementsPerBlob * 32) LIMIT_BLOBS_PER_TX
             (fun s s' dr0 dr0' =>
                Blobs_add_Deserialize_decoded FieldElementsPerBlob s s' dr0 dr0' HF)
             _ _ _ _ Hrun).
Qed.

Lemma Deserialize_appends_witness :
  let li : BlobKzgs := [repeat x01 48] in
  let data := repeat x02 48 ++ repeat x03 48 in
  let a : Blobs := [[repeat x04 32]] in
  let r := BlobKzgs_Deserialize li (reader_of data) in
  let r' := Blobs_Deserialize 1 a (reader_of data) in
  (exists new : BlobKzgs,
      r.1.2 = li ++ new /\ length new = 2%nat /\
      data = concat new ++ codec.input r.2) /\
  (exists new : Blobs,
      r'.1.2 = a ++ new /\ length new = 3%nat /\
      data = concat (map (@concat byte) new) ++ codec.input r'.2).
Proof.
  intros li data a r r'.
  assert (Hr : r = (None, r.1.2, r.2)) by (vm_compute; reflexivity).
  assert (Hr' : r' = (None, r'.1.2, r'.2)) by (vm_compute; reflexivity).
  destruct (Deserialize_appends 1 (reader_of data) r.2) as [Hkzgs _].
  destruct (Deserialize_appends 1 (reader_of data) r'.2) as [_ Hblobs].
  destruct (Hkzgs li _ Hr) as (new & Happ & Hlen & _ & Hin & _).
  destruct (Hblobs a _ ltac:(lia) Hr') as (new' & Happ' & Hlen' & _ & Hin' & _).
  split.
  - exists new. split; [exact Happ|]. split; [exact Hlen | exact Hin].
  - exists new'. split; [exact Happ'|]. split; [exact Hlen' | exact Hin'].
Defined.

(** *** Decoding what was encoded *)

Lemma Forall_repeat {A} (P : A -> Prop) (x : A) (n : nat) :
  P x -> Forall P (repeat x n).
Proof. intros Hx. induction n; simpl; constructor; assumption. Qed.

Lemma ReadFieldElements_loop_ok (es : list BLSFieldElement) :
  forall (dst : list BLSFieldElement) (i : nat) (dr : codec.DecodingReader)
         (rest : list byte),
    reader_ok dr ->
    codec.input dr = concat es ++ rest ->
    Forall wf_BLSFieldElement es ->
    Forall wf_BLSFieldElement dst ->
    (i + length es <= length dst)%nat ->
    codec.idx dr + 32 * len es <= codec.max dr ->
    ReadFieldElements_loop dst i (length es) dr
    = (None, take i dst ++ es ++ drop (i + length es) dst,
       codec.mkReader rest (codec.idx dr + 32 * len es) (codec.max dr)).
Proof.
  induction es as [|e es IH]; intros dst i dr rest Hok Hin Hes Hdst Hle Hfit.
  - simpl. rewrite Nat.add_0_r, take_drop.
    destruct dr as [inp ix m]. simpl in *. subst inp.
    replace (ix + 32 * len []) with ix by (unfold len; simpl; lia). reflexivity.
  - simpl in Hle. simpl length. cbn [ReadFieldElements_loop].
    inversion Hes as [|? ? He Hes']; subst.
    destruct (lookup_lt_is_Some_2 dst i ltac:(lia)) as [d Hd].
    rewrite (list_lookup_total_correct _ _ _ Hd).
    assert (Hdwf : wf_BLSFieldElement d).
    { rewrite Forall_forall in Hdst. apply Hdst.
      apply list_elem_of_lookup. eauto. }
    unfold wf_BLSFieldElement in He, Hdwf.
    assert (Hd32 : len d = 32) by (unfold len; lia).
    assert (Hlen : len (e :: es) = 1 + len es) by (unfold len; simpl; lia).
    pose proof (len_nonneg es) as Hnn.
    simpl concat in Hin. rewrite <- app_assoc in Hin.
    rewrite (Read_exact dr d e (concat es ++ rest) Hok Hin) by lia.
    rewrite Hd32.
    destruct Hok as [Hidx Hmax].
    rewrite (IH (<[i:=e]> dst) (S i) _ rest).
    + simpl. f_equal; [f_equal|].
      * rewrite drop_insert_lt by lia.
        rewrite (take_S_r _ i e) by (apply list_lookup_insert_eq; lia).
        rewrite take_insert_ge by lia.
        rewrite <- app_assoc. simpl. repeat f_equal. lia.
      * f_equal. lia.
    + split; simpl; lia.
    + reflexivity.
    + exact Hes'.
    + apply Forall_insert; assumption.
    + rewrite length_insert. lia.
    + simpl. lia.
Qed.

(** [ReadFieldElements] of the encoding of a blob, into any destination:
    the destination then holds the blob. *)
Lemma ReadFieldElements_ok (F : Z) (blob : Blob) (s0 : GoSlice BLSFieldElement)
    (dr : codec.DecodingReader) (rest : list byte) :
  reader_ok dr ->
  codec.input dr = concat blob ++ rest ->
  wf_Blob F blob ->
  Forall wf_BLSFieldElement (elems s0 ++ spare s0) ->
  codec.idx dr + F * 32 <= codec.max dr ->
  exists sp,
    ReadFieldElements dr s0 F
    = (None, mkSlice blob sp, codec.mkReader rest (codec.idx dr + F * 32) (codec.max dr)).
Proof.
  intros Hok Hin [Hwf HF] Hs0 Hfit. unfold ReadFieldElements.
  set (elems1 := if negb (len (elems s0) =? F) then _ else s0).
  assert (H1 : length (elems elems1) = length blob /\
               Forall wf_BLSFieldElement (elems elems1)).
  { subst elems1. unfold len in *. destruct (Z.of_nat (length (elems s0)) =? F) eqn:E1; simpl.
    - apply Z.eqb_eq in E1. split; [lia|].
      apply Forall_app in Hs0. tauto.
    - destruct (F <=? cap s0) eqn:E2; simpl.
      + apply Z.leb_le in E2. unfold cap, len in E2.
        split.
        * rewrite length_take, length_app. lia.
        * apply Forall_take. exact Hs0.
      + split.
        * rewrite repeat_length. lia.
        * apply Forall_repeat. reflexivity. }
  destruct H1 as [Hlen1 Hwf1].
  replace (Z.to_nat F) with (length blob) by (unfold len in HF; lia).
  rewrite (ReadFieldElements_loop_ok blob (elems elems1) 0 dr rest Hok Hin Hwf Hwf1)
    by (unfold len in *; lia).
  exists (spare elems1). simpl.
  rewrite <- Hlen1, drop_all, app_nil_r.
  replace (32 * len blob) with (F * 32) by lia. reflexivity.
Qed.

Lemma ReadFieldElements_nil_spare (F : Z) (dr : codec.DecodingReader) :
  spare (ReadFieldElements dr nil_slice F).1.2 = [].
Proof.
  unfold ReadFieldElements.
  destruct (negb (len (elems (@nil_slice BLSFieldElement)) =? F));
    [destruct (F <=? cap (@nil_slice BLSFieldElement))|];
    simpl; rewrite ?drop_nil;
    destruct (ReadFieldElements_loop _ 0 (Z.to_nat F) dr) as [[err dst] dr'];
    reflexivity.
Qed.

Lemma Blob_Deserialize_fresh (F : Z) (blob : Blob)
    (dr : codec.DecodingReader) (rest : list byte) :
  reader_ok dr ->
  codec.input dr = concat blob ++ rest ->
  wf_Blob F blob ->
  codec.idx dr + F * 32 <= codec.max dr ->
  Blob_Deserialize F nil_slice dr
  = (None, mkSlice blob [], codec.mkReader rest (codec.idx dr + F * 32) (codec.max dr)).
Proof.
  intros Hok Hin Hwf Hfit. unfold Blob_Deserialize.
  destruct (ReadFieldElements_ok F blob nil_slice dr rest Hok Hin Hwf) as [sp Hsp];
    [constructor | exact Hfit |].
  pose proof (ReadFieldElements_nil_spare F dr) as Hnil.
  rewrite Hsp in Hnil. simpl in Hnil. subst sp. exact Hsp.
Qed.

Lemma List_loop_decodes {A}
    (step : list A -> codec.DecodingReader
            -> option error * list A * codec.DecodingReader)
    (enc : A -> list byte) (good : A -> Prop) (size : Z) :
  0 <= size ->
  (forall s e dr rest,
      reader_ok dr -> codec.input dr = enc e ++ rest -> good e ->
      codec.idx dr + size <= codec.max dr ->
      step s dr
      = (None, s ++ [e], codec.mkReader rest (codec.idx dr + size) (codec.max dr))) ->
  forall (es s : list A) (dr : codec.DecodingReader) (rest : list byte),
    reader_ok dr ->
    codec.input dr = concat (map enc es) ++ rest ->
    Forall good es ->
    codec.idx dr + size * len es <= codec.max dr ->
    codec.List_loop step (length es) s dr
    = (None, s ++ es,
       codec.mkReader rest (codec.idx dr + size * len es) (codec.max dr)).
Proof.
  intros Hsize Hstep. induction es as [|e es IH]; intros s dr rest Hok Hin Hgood Hfit.
  - simpl. rewrite app_nil_r. destruct dr as [inp ix m]. simpl in *. subst inp.
    replace (ix + size * len []) with ix by (unfold len; simpl; lia). reflexivity.
  - inversion Hgood as [|? ? He Hes]; subst.
    assert (Hlen : len (e :: es) = 1 + len es) by (unfold len; simpl; lia).
    pose proof (len_nonneg es) as Hnn.
    simpl in Hin. rewrite <- app_assoc in Hin.
    simpl. rewrite (Hstep s e dr _ Hok Hin He) by nia.
    destruct Hok as [Hidx Hmax].
    rewrite (IH (s ++ [e]) _ rest).
    + cbn [codec.idx codec.max codec.input]. rewrite <- app_assoc, Hlen.
      simpl app.
      replace (codec.idx dr + size + size * len es)
        with (codec.idx dr + size * (1 + len es)) by ring.
      reflexivity.
    + split; cbn [codec.idx codec.max codec.input]; nia.
    + reflexivity.
    + exact Hes.
    + cbn [codec.idx codec.max codec.input]. nia.
Qed.

Lemma List_decodes {A}
    (step : list A -> codec.DecodingReader
            -> option error * list A * codec.DecodingReader)
    (enc : A -> list byte) (good : A -> Prop) (size limit : Z) :
  0 < size ->
  (forall s e dr rest,
      reader_ok dr -> codec.input dr = enc e ++ rest -> good e ->
      codec.idx dr + size <= codec.max dr ->
      step s dr
      = (None, s ++ [e], codec.mkReader rest (codec.idx dr + size) (codec.max dr))) ->
  forall (es s : list A) (dr : codec.DecodingReader) (rest : list byte),
    reader_ok dr ->
    codec.input dr = concat (map enc es) ++ rest ->
    Forall good es ->
    len es <= limit ->
    codec.max dr - codec.idx dr = size * len es ->
    codec.List step size limit s dr
    = (None, s ++ es, codec.mkReader rest (codec.max dr) (codec.max dr)).
Proof.
  intros Hsize Hstep es s dr rest Hok Hin Hgood Hlimit Hscope.
  pose proof (len_nonneg es) as Hnn. pose proof Hok as [Hidx Hmax].
  unfold codec.List, codec.Scope.
  rewrite u64_small by lia. rewrite Hscope.
  rewrite (Z.mul_comm size), Z.mod_mul by lia.
  rewrite Z.div_mul by lia. simpl negb. cbv iota.
  replace (limit <? len es) with false by (symmetry; apply Z.ltb_ge; lia).
  unfold len at 1. rewrite Nat2Z.id.
  rewrite (List_loop_decodes step enc good size ltac:(lia) Hstep es s dr rest)
    by (auto; lia).
  repeat f_equal. lia.
Qed.

Lemma BlobKzgs_Deserialize_ok (li0 es : BlobKzgs)
    (dr : codec.DecodingReader) (rest : list byte) :
  reader_ok dr ->
  codec.input dr = concat es ++ rest ->
  wf_BlobKzgs es ->
  codec.max dr - codec.idx dr = 48 * len es ->
  BlobKzgs_Deserialize li0 dr
  = (None, li0 ++ es, codec.mkReader rest (codec.max dr) (codec.max dr)).
Proof.
  intros Hok Hin [Hwf Hlimit] Hscope. unfold BlobKzgs_Deserialize.
  apply (List_decodes BlobKzgs_add_Deserialize (fun p => p) wf_KZGCommitment);
    auto; [lia | | rewrite map_id; exact Hin].
  clear. intros s e dr rest Hok Hin He Hfit.
  unfold BlobKzgs_add_Deserialize.
  rewrite (lookup_app_r s) by lia. rewrite Nat.sub_diag. simpl lookup.
  rewrite (KZGCommitment_Deserialize_ok dr e KZGCommitment_zero rest Hok Hin He)
    by (reflexivity || exact Hfit).
  simpl. replace (length s) with (length s + 0)%nat at 1 by lia.
  rewrite insert_app_r. reflexivity.
Qed.

Lemma Blobs_Deserialize_ok (F : Z) (a0 es : Blobs)
    (dr : codec.DecodingReader) (rest : list byte) :
  0 < F ->
  reader_ok dr ->
  codec.input dr = concat (map (@concat byte) es) ++ rest ->
  wf_Blobs F es ->
  codec.max dr - codec.idx dr = F * 32 * len es ->
  Blobs_Deserialize F a0 dr
  = (None, a0 ++ es, codec.mkReader rest (codec.max dr) (codec.max dr)).
Proof.
  intros HF Hok Hin [Hwf Hlimit] Hscope. unfold Blobs_Deserialize.
  apply (List_decodes (Blobs_add_Deserialize F) (@concat byte) (wf_Blob F));
    auto; [lia|].
  clear - HF. intros s e dr rest Hok Hin He Hfit.
  unfold Blobs_add_Deserialize.
  rewrite (list_lookup_total_correct (s ++ [[]]) (length s) [])
    by (rewrite lookup_app_r by lia; rewrite Nat.sub_diag; reflexivity).
  change (mkSlice (@nil BLSFieldElement) []) with (@nil_slice BLSFieldElement).
  rewrite (Blob_Deserialize_fresh F e dr rest Hok Hin He Hfit).
  simpl. replace (length s) with (length s + 0)%nat at 1 by lia.
  rewrite insert_app_r. reflexivity.
Qed.

(** *** Offsets *)

Lemma byte_to_of_Z (z : Z) : byte_to_Z (byte_of_Z z) = z mod 2 ^ 8.
Proof.
  unfold byte_to_Z, byte_of_Z. change (2 ^ 8) with 256.
  pose proof (Z.mod_pos_bound z 256 ltac:(lia)) as Hb.
  destruct (Byte.of_N (Z.to_N (z mod 256))) as [b|] eqn:E.
  - apply Byte.to_of_N in E. rewrite E. lia.
  - apply Byte.of_N_None_iff in E. lia.
Qed.

Lemma Uint32_PutUint32 (v : Z) :
  0 <= v < 2 ^ 32 -> codec.Uint32 (codec.PutUint32 v) = v.
Proof.
  intros Hv. unfold codec.Uint32, codec.PutUint32. rewrite !byte_to_of_Z.
  apply Z.bits_inj'. intros n Hn.
  rewrite !Z.lor_spec, !Z.shiftl_spec by lia.
  rewrite !Z.testbit_mod_pow2 by lia.
  assert (Hshift : forall k, 0 <= k -> k <= n ->
            Z.testbit (Z.shiftr v k) (n - k) = Z.testbit v n).
  { intros k Hk Hkn. rewrite Z.shiftr_spec by lia. f_equal. lia. }
  assert (Hneg : forall k, n < k -> Z.testbit (Z.shiftr v k) (n - k) = false).
  { intros k Hk. apply Z.testbit_neg_r. lia. }
  assert (Hhigh : 32 <= n -> Z.testbit v n = false).
  { intros H32. rewrite <- (Z.mod_small v (2 ^ 32)) by lia.
    apply Z.mod_pow2_bits_high. lia. }
  destruct (Z.ltb_spec n 8); destruct (Z.ltb_spec (n - 8) 8);
    destruct (Z.ltb_spec (n - 16) 8); destruct (Z.ltb_spec (n - 24) 8);
    try lia;
    try rewrite (Hneg 8) by lia; try rewrite (Hneg 16) by lia;
    try rewrite (Hneg 24) by lia;
    try rewrite (Hshift 8) by lia; try rewrite (Hshift 16) by lia;
    try rewrite (Hshift 24) by lia;
    try rewrite Hhigh by lia;
    simpl; rewrite ?andb_false_r, ?orb_false_r; reflexivity.
Qed.

Lemma ReadOffset_ok (dr : codec.DecodingReader) (o : Z) (rest : list byte) :
  reader_ok dr ->
  codec.input dr = codec.PutUint32 o ++ rest ->
  0 <= o < 2 ^ 32 ->
  codec.idx dr + 4 <= codec.max dr ->
  codec.ReadOffset dr
  = (o, None, codec.mkReader rest (codec.idx dr + 4) (codec.max dr)).
Proof.
  intros Hok Hin Ho Hfit. unfold codec.ReadOffset.
  rewrite (Read_exact dr [x00; x00; x00; x00] (codec.PutUint32 o) rest Hok Hin)
    by (reflexivity || exact Hfit).
  rewrite Uint32_PutUint32 by exact Ho. reflexivity.
Qed.

(** *** The wrapper of a transaction *)

Section Wrapper.

Variable FieldElementsPerBlob : Z.
Variable SignedBlobTx : Type.
Variable SignedBlobTx_FixedLength : Z.
Variable SignedBlobTx_ByteLength : SignedBlobTx -> Z.
Variable SignedBlobTx_Serialize :
  SignedBlobTx -> codec.EncodingWriter -> option error * codec.EncodingWriter.
Variable SignedBlobTx_Deserialize :
  SignedBlobTx -> codec.DecodingReader -> option error * SignedBlobTx * codec.DecodingReader.

Local Abbreviation Wrapper_Serialize :=
  (BlobTxWrapper_Serialize FieldElementsPerBlob SignedBlobTx SignedBlobTx_FixedLength
     SignedBlobTx_ByteLength SignedBlobTx_Serialize SignedBlobTx_Deserialize).
Local Abbreviation Wrapper_Deserialize :=
  (BlobTxWrapper_Deserialize FieldElementsPerBlob SignedBlobTx SignedBlobTx_FixedLength
     SignedBlobTx_ByteLength SignedBlobTx_Serialize SignedBlobTx_Deserialize).

Local Abbreviation tx_ok :=
  (tx_codec_ok SignedBlobTx_FixedLength SignedBlobTx_ByteLength
     SignedBlobTx_Serialize SignedBlobTx_Deserialize).

Lemma BlobTxWrapper_Serialize_out (tx tx0 : SignedBlobTx) (txbytes : list byte)
    (li : BlobKzgs) (a : Blobs) :
  tx_ok tx tx0 txbytes ->
  Forall wf_KZGCommitment li ->
  Forall (wf_Blob FieldElementsPerBlob) a ->
  0 < FieldElementsPerBlob ->
  12 + len txbytes + 48 * len li + FieldElementsPerBlob * 32 * len a < 2 ^ 32 ->
  Wrapper_Serialize (mkWrapper SignedBlobTx tx li a) []
  = (None,
     codec.PutUint32 12 ++ codec.PutUint32 (12 + len txbytes)
       ++ codec.PutUint32 (12 + len txbytes + 48 * len li)
       ++ txbytes ++ concat li ++ concat (map (@concat byte) a)).
Proof.
  intros (Hfixed & Hser & Hbl & _) Hli Ha HF Hsize.
  pose proof (len_nonneg txbytes). pose proof (len_nonneg li).
  pose proof (len_nonneg a).
  assert (Hprod : 0 <= FieldElementsPerBlob * 32 * len a) by nia.
  unfold BlobTxWrapper_Serialize, codec.WriteContainer.
  cbn [codec.fixed_part_length codec.WriteContainer_fixed codec.WriteContainer_variable
       codec.FixedLength codec.ByteLength codec.Serialize field_Tx field_BlobKzgs
       field_Blobs txw_Tx txw_BlobKzgs txw_Blobs].
  rewrite Hfixed. unfold BlobKzgs_FixedLength, Blobs_FixedLength.
  change (0 =? 0) with true. cbv iota.
  unfold codec.WriteOffset, codec.Write. cbv iota beta.
  rewrite Hser, Hbl.
  rewrite BlobKzgs_Serialize_out by lia.
  rewrite Blobs_Serialize_out by nia.
  assert (Hk : BlobKzgs_ByteLength li = 48 * len li).
  { unfold BlobKzgs_ByteLength.
    rewrite (u64_small (len li)) by lia. rewrite u64_small by lia. lia. }
  rewrite Hk.
  change (4 + (4 + (4 + 0))) with 12.
  rewrite (u64_small (12 + len txbytes)) by lia.
  rewrite (u64_small (12 + len txbytes + 48 * len li)) by lia.
  simpl app. rewrite <- !app_assoc. reflexivity.
Qed.

Lemma BlobTxWrapper_Deserialize_ok (tx tx0 : SignedBlobTx) (txbytes : list byte)
    (li : BlobKzgs) (a : Blobs) :
  tx_ok tx tx0 txbytes ->
  wf_BlobKzgs li ->
  wf_Blobs FieldElementsPerBlob a ->
  0 < FieldElementsPerBlob ->
  12 + len txbytes + 48 * len li + FieldElementsPerBlob * 32 * len a < 2 ^ 32 ->
  let data :=
    codec.PutUint32 12 ++ codec.PutUint32 (12 + len txbytes)
      ++ codec.PutUint32 (12 + len txbytes + 48 * len li)
      ++ txbytes ++ concat li ++ concat (map (@concat byte) a) in
  Wrapper_Deserialize (mkWrapper SignedBlobTx tx0 [] []) (reader_of data)
  = (None, mkWrapper SignedBlobTx tx li a, codec.mkReader [] (len data) (len data)).
Proof.
  intros (Hfixed & _ & _ & Hde) Hli Ha HF Hsize data.
  pose proof (len_nonneg txbytes) as Htx. pose proof (len_nonneg li) as Hnli.
  pose proof (len_nonneg a) as Hna.
  assert (Hprod : 0 <= FieldElementsPerBlob * 32 * len a) by nia.
  assert (Hlk : len (concat li) = 48 * len li).
  { rewrite (len_concat_const li 48 (proj1 Hli)). lia. }
  assert (Hlb : len (concat (map (@concat byte) a)) = FieldElementsPerBlob * 32 * len a).
  { rewrite (wf_Blobs_len_concat _ _ (proj1 Ha)). lia. }
  assert (Hdata : len data
                  = 12 + len txbytes + 48 * len li + FieldElementsPerBlob * 32 * len a).
  { subst data. rewrite !len_app, Hlk, Hlb. unfold codec.PutUint32, len. simpl. lia. }
  assert (Hd : data = codec.PutUint32 12 ++ codec.PutUint32 (12 + len txbytes)
      ++ codec.PutUint32 (12 + len txbytes + 48 * len li)
      ++ txbytes ++ concat li ++ concat (map (@concat byte) a)) by reflexivity.
  clearbody data.
  unfold BlobTxWrapper_Deserialize, codec.ReadContainer, reader_of,
    codec.NewDecodingReader.
  unfold codec.Scope. cbn [codec.idx codec.max codec.input].
  rewrite Z.sub_0_r, u64_small by lia.
  cbn [codec.fixed_part_length codec.ReadContainer_fixed
       codec.FixedLength codec.Deserialize field_Tx field_BlobKzgs field_Blobs].
  rewrite Hfixed. unfold BlobKzgs_FixedLength, Blobs_FixedLength.
  change (0 =? 0) with true. cbv iota.
  change (4 + (4 + (4 + 0))) with 12.
  erewrite (ReadOffset_ok _ 12);
    [ | split; cbn [codec.idx codec.max]; lia | exact Hd | lia
      | cbn [codec.idx codec.max]; lia ].
  erewrite (ReadOffset_ok _ (12 + len txbytes));
    [ | split; cbn [codec.idx codec.max]; lia | reflexivity | lia
      | cbn [codec.idx codec.max]; lia ].
  erewrite (ReadOffset_ok _ (12 + len txbytes + 48 * len li));
    [ | split; cbn [codec.idx codec.max]; lia | reflexivity | lia
      | cbn [codec.idx codec.max]; lia ].
  cbn [codec.idx codec.max codec.input app].
  change (12 =? 12) with true. cbn [negb]. cbv iota.
  change (0 + 4 + 4 + 4) with 12.
  cbn [codec.ReadContainer_variable codec.FixedLength codec.Deserialize
       field_Tx field_BlobKzgs field_Blobs].
  unfold BlobKzgs_FixedLength, Blobs_FixedLength.
  change (0 =? 0) with true. cbv iota.
  (* the transaction *)
  replace (12 + len txbytes <? 12) with false by (symmetry; apply Z.ltb_ge; lia).
  replace (len data <? 12 + len txbytes) with false by (symmetry; apply Z.ltb_ge; lia).
  cbn [orb]. cbv iota.
  unfold codec.SubScope. cbn [codec.idx codec.max codec.input txw_Tx txw_BlobKzgs txw_Blobs].
  replace (12 + len txbytes - 12) with (len txbytes) by lia.
  rewrite Hde.
  unfold codec.UpdateIndexFromScoped.
  cbn [codec.idx codec.max codec.input txw_Tx txw_BlobKzgs txw_Blobs].
  rewrite (u64_small (12 + len txbytes)) by lia.
  (* the commitments *)
  replace (12 + len txbytes + 48 * len li <? 12 + len txbytes) with false
    by (symmetry; apply Z.ltb_ge; lia).
  replace (len data <? 12 + len txbytes + 48 * len li) with false
    by (symmetry; apply Z.ltb_ge; lia).
  cbn [orb]. cbv iota.
  unfold codec.SubScope. cbn [codec.idx codec.max codec.input txw_Tx txw_BlobKzgs txw_Blobs].
  replace (12 + len txbytes + 48 * len li - (12 + len txbytes)) with (48 * len li) by lia.
  erewrite (BlobKzgs_Deserialize_ok [] li);
    [ | split; cbn [codec.idx codec.max]; lia | reflexivity | exact Hli
      | cbn [codec.idx codec.max]; lia ].
  unfold codec.UpdateIndexFromScoped.
  cbn [codec.idx codec.max codec.input txw_Tx txw_BlobKzgs txw_Blobs app].
  rewrite (u64_small (12 + len txbytes + 48 * len li)) by lia.
  (* the blobs *)
  replace (len data <? 12 + len txbytes + 48 * len li) with false
    by (symmetry; apply Z.ltb_ge; lia).
  rewrite Z.ltb_irrefl.
  cbn [orb]. cbv iota.
  unfold codec.SubScope. cbn [codec.idx codec.max codec.input txw_Tx txw_BlobKzgs txw_Blobs].
  replace (len data - (12 + len txbytes + 48 * len li))
    with (FieldElementsPerBlob * 32 * len a) by lia.
  erewrite (Blobs_Deserialize_ok FieldElementsPerBlob [] a _ []);
    [ | exact HF | split; cbn [codec.idx codec.max]; lia
      | cbn [codec.input]; rewrite app_nil_r; reflexivity | exact Ha
      | cbn [codec.idx codec.max]; lia ].
  unfold codec.UpdateIndexFromScoped.
  cbn [codec.idx codec.max codec.input txw_Tx txw_BlobKzgs txw_Blobs app].
  rewrite u64_small by lia.
  replace (12 + len txbytes + 48 * len li + FieldElementsPerBlob * 32 * len a)
    with (len data) by lia.
  reflexivity.
Qed.

(** C3. Decoding the bytes that encoding wrote, into a fresh destination,
    gives the value back, and reads all the bytes: for a blob of
    [FieldElementsPerBlob] scalars, a commitment, a list of at most [2^24]
    commitments, a list of at most [2^24] such blobs, and for the wrap
    data, a commitment list and a blob list, which travel in the wrapper
    next to the transaction. [FieldElementsPerBlob] is positive and such
    that the length of a full list fits a [uint64]; for the wrapper the
    transaction's own codec round-trips and the offsets fit a [uint32]. *)
Theorem binary_round_trip :
  0 < FieldElementsPerBlob ->
  FieldElementsPerBlob * 32 * LIMIT_BLOBS_PER_TX < 2 ^ 64 ->
  (forall blob : Blob,
      wf_Blob FieldElementsPerBlob blob ->
      exists data,
        Blob_Serialize blob [] = (None, data) /\
        Blob_Deserialize FieldElementsPerBlob nil_slice (reader_of data)
        = (None, mkSlice blob [], codec.mkReader [] (len data) (len data))) /\
  (forall p : KZGCommitment,
      wf_KZGCommitment p ->
      exists data,
        KZGCommitment_Serialize p [] = (None, data) /\
        KZGCommitment_Deserialize (Some KZGCommitment_zero) (reader_of data)
        = (None, Some p, codec.mkReader [] (len data) (len data))) /\
  (forall li : BlobKzgs,
      wf_BlobKzgs li ->
      exists data,
        BlobKzgs_Serialize li [] = (None, data) /\
        BlobKzgs_Deserialize [] (reader_of data)
        = (None, li, codec.mkReader [] (len data) (len data))) /\
  (forall a : Blobs,
      wf_Blobs FieldElementsPerBlob a ->
      exists data,
        Blobs_Serialize FieldElementsPerBlob a [] = (None, data) /\
        Blobs_Deserialize FieldElementsPerBlob [] (reader_of data)
        = (None, a, codec.mkReader [] (len data) (len data))) /\
  (forall (tx tx0 : SignedBlobTx) (txbytes : list byte) (li : BlobKzgs) (a : Blobs),
      tx_ok tx tx0 txbytes ->
      wf_BlobKzgs li ->
      wf_Blobs FieldElementsPerBlob a ->
      12 + len txbytes + 48 * len li + FieldElementsPerBlob * 32 * len a < 2 ^ 32 ->
      exists data,
        Wrapper_Serialize (mkWrapper SignedBlobTx tx li a) [] = (None, data) /\
        Wrapper_Deserialize (mkWrapper SignedBlobTx tx0 [] []) (reader_of data)
        = (None, mkWrapper SignedBlobTx tx li a,
           codec.mkReader [] (len data) (len data))).
Proof.
  intros HF Hfull. unfold LIMIT_BLOBS_PER_TX in Hfull.
  repeat apply conj.
  - intros blob Hwf. exists (concat blob).
    pose proof (wf_Blob_len_concat _ _ Hwf) as Hlen.
    split; [apply WriteFieldElements_out|].
    unfold reader_of, codec.NewDecodingReader.
    rewrite (Blob_Deserialize_fresh FieldElementsPerBlob blob _ []);
      cbn [codec.idx codec.max codec.input].
    + rewrite Hlen. reflexivity.
    + split; cbn [codec.idx codec.max]; lia.
    + rewrite app_nil_r. reflexivity.
    + exact Hwf.
    + lia.
  - intros p Hwf. exists p. split; [reflexivity|].
    assert (Hlen : len p = 48) by (unfold wf_KZGCommitment in Hwf; unfold len; lia).
    unfold reader_of, codec.NewDecodingReader.
    rewrite (KZGCommitment_Deserialize_ok _ p KZGCommitment_zero []);
      cbn [codec.idx codec.max codec.input].
    + rewrite Hlen. reflexivity.
    + split; cbn [codec.idx codec.max]; lia.
    + rewrite app_nil_r. reflexivity.
    + exact Hwf.
    + reflexivity.
    + lia.
  - intros li Hwf. exists (concat li). pose proof Hwf as [Hall Hlim].
    unfold MAX_TX_WRAP_KZG_COMMITMENTS in Hlim.
    assert (Hlen : len (concat li) = 48 * len li).
    { rewrite (len_concat_const li 48 Hall). lia. }
    pose proof (len_nonneg li).
    split; [apply BlobKzgs_Serialize_out; lia|].
    unfold reader_of, codec.NewDecodingReader.
    rewrite (BlobKzgs_Deserialize_ok [] li _ []);
      cbn [codec.idx codec.max codec.input].
    + reflexivity.
    + split; cbn [codec.idx codec.max]; lia.
    + rewrite app_nil_r. reflexivity.
    + exact Hwf.
    + lia.
  - intros a Hwf. exists (concat (map (@concat byte) a)). pose proof Hwf as [Hall Hlim].
    unfold LIMIT_BLOBS_PER_TX in Hlim.
    pose proof (wf_Blobs_len_concat _ _ Hall) as Hlen.
    pose proof (len_nonneg a).
    split; [apply Blobs_Serialize_out; lia|].
    unfold reader_of, codec.NewDecodingReader.
    rewrite (Blobs_Deserialize_ok FieldElementsPerBlob [] a _ []);
      cbn [codec.idx codec.max codec.input].
    + reflexivity.
    + exact HF.
    + split; cbn [codec.idx codec.max]; nia.
    + rewrite app_nil_r. reflexivity.
    + exact Hwf.
    + lia.
  - intros tx tx0 txbytes li a Htx Hli Ha Hsize.
    eexists. split.
    + apply (BlobTxWrapper_Serialize_out tx tx0 txbytes li a Htx (proj1 Hli) (proj1 Ha)
               HF Hsize).
    + apply (BlobTxWrapper_Deserialize_ok tx tx0 txbytes li a Htx Hli Ha HF Hsize).
Qed.

End Wrapper.

Lemma binary_round_trip_witness :
  let tx : Demo.SignedBlobTx := [repeat x05 32] in
  let li : BlobKzgs := [repeat x01 48; repeat x02 48] in
  let a : Blobs := [[repeat x07 32; repeat x08 32]] in
  let Serialize :=
    BlobTxWrapper_Serialize 2 Demo.SignedBlobTx Demo.SignedBlobTx_FixedLength
      Demo.SignedBlobTx_ByteLength Demo.SignedBlobTx_Serialize
      Demo.SignedBlobTx_Deserialize in
  let Deserialize :=
    BlobTxWrapper_Deserialize 2 Demo.SignedBlobTx Demo.SignedBlobTx_FixedLength
      Demo.SignedBlobTx_ByteLength Demo.SignedBlobTx_Serialize
      Demo.SignedBlobTx_Deserialize in
  exists data,
    Serialize (mkWrapper Demo.SignedBlobTx tx li a) [] = (None, data) /\
    Deserialize (mkWrapper Demo.SignedBlobTx [] [] []) (reader_of data)
    = (None, mkWrapper Demo.SignedBlobTx tx li a,
       codec.mkReader [] (len data) (len data)).
Proof.
  intros tx li a Serialize Deserialize.
  assert (Htx : tx_codec_ok Demo.SignedBlobTx_FixedLength Demo.SignedBlobTx_ByteLength
                  Demo.SignedBlobTx_Serialize Demo.SignedBlobTx_Deserialize
                  tx [] (repeat x05 32)).
  { split; [reflexivity|]. split; [intros w; reflexivity|].
    split; [reflexivity | intros rest; reflexivity]. }
  assert (Hli : wf_BlobKzgs li).
  { split; [repeat constructor | vm_compute; congruence]. }
  assert (Ha : wf_Blobs 2 a).
  { split; [repeat constructor | vm_compute; congruence]. }
  apply (proj2 (proj2 (proj2 (proj2
           (binary_round_trip 2 Demo.SignedBlobTx Demo.SignedBlobTx_FixedLength
              Demo.SignedBlobTx_ByteLength Demo.SignedBlobTx_Serialize
              Demo.SignedBlobTx_Deserialize ltac:(lia) ltac:(reflexivity)))))
         tx [] (repeat x05 32) li a Htx Hli Ha).
  reflexivity.
Defined.

(** A scope of more than [2^24] commitments is refused before a byte is
    read: the reader comes back as it was. *)
Example BlobKzgs_Deserialize_too_large :
  let dr := codec.mkReader [] 0 (48 * (2 ^ 24 + 1)) in
  BlobKzgs_Deserialize [] dr
  = (Some (ErrTooManyItems (2 ^ 24) (2 ^ 24 + 1)), [], dr).
Proof. vm_compute. reflexivity. Qed.

(** A stream that ends inside a blob: the decode fails and the blob that
    was being filled keeps the scalars read so far. *)
Example Blob_Deserialize_truncated :
  Blob_Deserialize 2 nil_slice (codec.mkReader (repeat x07 32) 0 64)
  = (Some ErrUnexpectedEOF,
     mkSlice [repeat x07 32; BLSFieldElement_zero] [],
     codec.mkReader [] 32 64).
Proof. vm_compute. reflexivity. Qed.

(** * Further properties *)

(** ** Conversion of commitments and blobs *)

Section Conversions.

Context {Fr G1Point : Type}.
Variable FrFrom32 : BLSFieldElement -> option Fr.
Variable BlobToKzg : list Fr -> G1Point.
Variable ToCompressedG1 : G1Point -> list byte.
Variable FromCompressedG1 : list byte -> option G1Point.

Lemma Commitments_loop_inv (li : BlobKzgs) :
  forall (acc pts : list G1Point),
    Commitments_loop FromCompressedG1 li acc = (pts, None) ->
    exists points,
      pts = acc ++ points /\
      Forall2 (fun c p => FromCompressedG1 c = Some p) li points.
Proof.
  induction li as [|c li IH]; intros acc pts Hrun; simpl in Hrun.
  - injection Hrun as <-. exists []. rewrite app_nil_r. split; [reflexivity | constructor].
  - unfold KZGCommitment_Point in Hrun.
    destruct (FromCompressedG1 c) as [p|] eqn:E; [|discriminate].
    destruct (IH _ _ Hrun) as (points & -> & Hall).
    exists (p :: points). rewrite <- app_assoc. split; [reflexivity|].
    constructor; assumption.
Qed.

Lemma Commitments_loop_cases (li : BlobKzgs) (acc : list G1Point) :
  (exists points, Forall2 (fun c p => FromCompressedG1 c = Some p) li points) \/
  Exists (fun c => FromCompressedG1 c = None) li.
Proof.
  induction li as [|c li IH].
  - left. exists []. constructor.
  - destruct (FromCompressedG1 c) as [p|] eqn:E.
    + destruct IH as [[points Hall] | Hex].
      * left. exists (p :: points). constructor; assumption.
      * right. apply Exists_cons_tl. exact Hex.
    + right. apply Exists_cons_hd. exact E.
Qed.

(** [Commitments] returns the points of the commitments, one per
    commitment and in their order, exactly when every commitment
    converts; when one does not, it returns an error and no points. *)
Theorem BlobKzgs_Commitments_all_or_nothing (li : BlobKzgs) :
  (forall points,
      BlobKzgs_Commitments FromCompressedG1 li = (points, None) <->
      Forall2 (fun c p => FromCompressedG1 c = Some p) li points) /\
  (Exists (fun c => FromCompressedG1 c = None) li <->
   BlobKzgs_Commitments FromCompressedG1 li = ([], Some ErrInternalErrorCommitments)) /\
  (forall points,
      BlobKzgs_Commitments FromCompressedG1 li = (points, None) ->
      length points = length li).
Proof.
  unfold BlobKzgs_Commitments. split; [|split].
  - intros points. split.
    + intros Hrun. destruct (Commitments_loop_inv li [] points Hrun) as (pts & -> & Hall).
      exact Hall.
    + intros Hall. rewrite (Commitments_loop_ok FromCompressedG1 li [] points Hall).
      reflexivity.
  - split.
    + intros Hex. apply Commitments_loop_fail. exact Hex.
    + intros Hrun. destruct (Commitments_loop_cases li []) as [[points Hall] | Hex];
        [|exact Hex].
      rewrite (Commitments_loop_ok FromCompressedG1 li [] points Hall) in Hrun.
      discriminate.
  - intros points Hrun.
    destruct (Commitments_loop_inv li [] points Hrun) as (pts & -> & Hall).
    simpl. symmetry. apply (Forall2_length _ _ _ Hall).
Qed.

Lemma Blobs_Blobs_chunks_frs (b : Blob) :
  forall acc : list Fr,
    Blobs_Blobs_chunks FrFrom32 b acc
    = option_map (app acc) (ComputeCommitment_frs FrFrom32 b).
Proof.
  induction b as [|chunk b IH]; intros acc; simpl.
  - rewrite app_nil_r. reflexivity.
  - destruct (FrFrom32 chunk) as [fr|]; [|reflexivity].
    rewrite IH. destruct (ComputeCommitment_frs FrFrom32 b) as [frs|]; simpl.
    + rewrite <- app_assoc. reflexivity.
    + reflexivity.
Qed.

Lemma Blobs_Blobs_loop_inv (blobs : Blobs) :
  forall (acc res : list (list Fr)),
    Blobs_Blobs_loop FrFrom32 blobs acc = (res, None) ->
    exists frss,
      res = acc ++ frss /\
      Forall2 (fun blob frs => ComputeCommitment_frs FrFrom32 blob = Some frs) blobs frss.
Proof.
  induction blobs as [|b blobs IH]; intros acc res Hrun; simpl in Hrun.
  - injection Hrun as <-. exists []. rewrite app_nil_r. split; [reflexivity | constructor].
  - rewrite Blobs_Blobs_chunks_frs in Hrun.
    destruct (ComputeCommitment_frs FrFrom32 b) as [frs|] eqn:E; simpl in Hrun;
      [|discriminate].
    destruct (IH _ _ Hrun) as (frss & -> & Hall).
    exists (frs :: frss). rewrite <- app_assoc. split; [reflexivity|].
    constructor; assumption.
Qed.

Lemma Blobs_Blobs_loop_frs (blobs : Blobs) :
  forall (acc frss : list (list Fr)),
    Forall2 (fun blob frs => ComputeCommitment_frs FrFrom32 blob = Some frs) blobs frss ->
    Blobs_Blobs_loop FrFrom32 blobs acc = (acc ++ frss, None).
Proof.
  induction blobs as [|b blobs IH]; intros acc frss Hall;
    inversion Hall as [|? frs ? frss' Hb Hrest]; subst; simpl.
  - rewrite app_nil_r. reflexivity.
  - rewrite Blobs_Blobs_chunks_frs, Hb. simpl.
    rewrite (IH _ frss' Hrest), <- app_assoc. reflexivity.
Qed.

Lemma Blobs_Blobs_loop_stops (blobs : Blobs) :
  forall acc : list (list Fr),
    Exists (fun blob => ComputeCommitment_frs FrFrom32 blob = None) blobs ->
    Blobs_Blobs_loop FrFrom32 blobs acc = ([], Some ErrInternalErrorCommitments).
Proof.
  induction blobs as [|b blobs IH]; intros acc Hex; [inversion Hex|].
  simpl. rewrite Blobs_Blobs_chunks_frs.
  destruct (ComputeCommitment_frs FrFrom32 b) as [frs|] eqn:E; simpl; [|reflexivity].
  apply IH. inversion Hex; subst; [congruence | assumption].
Qed.

(** [Blobs.Blobs] and [Blob.ComputeCommitment] convert scalars alike:
    [Blobs] succeeds exactly when [ComputeCommitment] reports [true] for
    every blob of the list; it then returns, blob by blob, the field
    elements [ComputeCommitment] commits to, and otherwise an error and no
    result. *)
Theorem Blobs_Blobs_agrees_with_ComputeCommitment (blobs : Blobs) :
  ((Blobs_Blobs FrFrom32 blobs).2 = None <->
   Forall (fun blob =>
             (Blob_ComputeCommitment FrFrom32 BlobToKzg ToCompressedG1 blob).2 = true)
     blobs) /\
  (forall frss,
      Blobs_Blobs FrFrom32 blobs = (frss, None) <->
      Forall2 (fun blob frs => ComputeCommitment_frs FrFrom32 blob = Some frs) blobs frss) /\
  ((Blobs_Blobs FrFrom32 blobs).2 <> None ->
   Blobs_Blobs FrFrom32 blobs = ([], Some ErrInternalErrorCommitments)).
Proof.
  assert (Hcases :
    (exists frss,
        Forall2 (fun blob frs => ComputeCommitment_frs FrFrom32 blob = Some frs) blobs frss) \/
    Exists (fun blob => ComputeCommitment_frs FrFrom32 blob = None) blobs).
  { induction blobs as [|b bs IH].
    - left. exists []. constructor.
    - destruct (ComputeCommitment_frs FrFrom32 b) as [frs|] eqn:E.
      + destruct IH as [[frss Hall] | Hex].
        * left. exists (frs :: frss). constructor; assumption.
        * right. apply Exists_cons_tl. exact Hex.
      + right. apply Exists_cons_hd. exact E. }
  assert (Hok : forall blob,
    (Blob_ComputeCommitment FrFrom32 BlobToKzg ToCompressedG1 blob).2 = true <->
    ComputeCommitment_frs FrFrom32 blob <> None).
  { intros blob. unfold Blob_ComputeCommitment.
    destruct (ComputeCommitment_frs FrFrom32 blob); simpl; split; congruence. }
  unfold Blobs_Blobs. split; [|split].
  - split.
    + intros Hrun. destruct Hcases as [[frss Hall] | Hex].
      * clear - Hall Hok. induction Hall as [|b frs bs frss Hb _ IH]; constructor;
          [apply Hok; congruence | exact IH].
      * rewrite (Blobs_Blobs_loop_stops blobs [] Hex) in Hrun. discriminate.
    + intros Hall. destruct Hcases as [[frss Hfrss] | Hex].
      * rewrite (Blobs_Blobs_loop_frs blobs [] frss Hfrss). reflexivity.
      * exfalso. rewrite Exists_exists in Hex. destruct Hex as (b & Hin & Hnone).
        rewrite Forall_forall in Hall. apply (Hok b) in Hall; [congruence | exact Hin].
  - intros frss. split.
    + intros Hrun. destruct (Blobs_Blobs_loop_inv blobs [] frss Hrun) as (res & -> & Hall).
      exact Hall.
    + intros Hall. rewrite (Blobs_Blobs_loop_frs blobs [] frss Hall). reflexivity.
  - intros Herr. destruct Hcases as [[frss Hall] | Hex].
    + rewrite (Blobs_Blobs_loop_frs blobs [] frss Hall) in Herr. contradiction.
    + apply Blobs_Blobs_loop_stops. exact Hex.
Qed.

End Conversions.

Lemma BlobKzgs_Commitments_all_or_nothing_witness :
  BlobKzgs_Commitments Demo.FromCompressedG1 [repeat x01 48; repeat x02 48]
  = ([repeat x01 48; repeat x02 48], None) /\
  BlobKzgs_Commitments Demo.FromCompressedG1 [repeat x01 48; repeat xff 48]
  = ([], Some ErrInternalErrorCommitments).
Proof.
  split.
  - apply (proj1 (BlobKzgs_Commitments_all_or_nothing Demo.FromCompressedG1 _)).
    repeat constructor.
  - apply (proj1 (proj2 (BlobKzgs_Commitments_all_or_nothing Demo.FromCompressedG1 _))).
    apply Exists_cons_tl. apply Exists_cons_hd. reflexivity.
Defined.

Lemma Blobs_Blobs_agrees_with_ComputeCommitment_witness :
  let blobs : Blobs := [[BLSFieldElement_zero]; [repeat xff 32]] in
  Blobs_Blobs Demo.FrFrom32 blobs = ([], Some ErrInternalErrorCommitments).
Proof.
  intros blobs.
  apply (proj2 (proj2 (Blobs_Blobs_agrees_with_ComputeCommitment
                         Demo.FrFrom32 Demo.BlobToKzg Demo.ToCompressedG1 blobs))).
  vm_compute. discriminate.
Defined.

(** ** What an accepted wrap data satisfies *)

Section CheckWrappingMore.

Variable MaxBlobsPerTx : Z.
Context {Fr G1Point : Type}.
Variable FrFrom32 : BLSFieldElement -> option Fr.
Variable BlobToKzg : list Fr -> G1Point.
Variable ToCompressedG1 : G1Point -> list byte.
Variable FromCompressedG1 : list byte -> option G1Point.
Variable VerifyBlobs : list G1Point -> list (list Fr) -> option error.
Variable Keccak256Hash : list byte -> Hash.
Variable SignedBlobTx : Type.
Variable BlobVersionedHashes : SignedBlobTx -> list Hash.

Local Abbreviation versionedHash := (KZGCommitment_ComputeVersionedHash Keccak256Hash).
Local Abbreviation check :=
  (checkWrapping MaxBlobsPerTx FrFrom32 FromCompressedG1 VerifyBlobs Keccak256Hash
     SignedBlobTx BlobVersionedHashes).

Lemma checkWrapping_hashes_inv (kzgs : BlobKzgs) :
  forall (hashes : list Hash) (i : nat),
    (i + length hashes <= length kzgs)%nat ->
    checkWrapping_hashes Keccak256Hash kzgs i hashes = None ->
    Forall2 (fun k h => versionedHash k = h) (take (length hashes) (drop i kzgs)) hashes.
Proof.
  induction hashes as [|h hashes IH]; intros i Hle Hrun; simpl in *.
  - constructor.
  - destruct (lookup_lt_is_Some_2 kzgs i ltac:(lia)) as [k Hk].
    rewrite (list_lookup_total_correct _ _ _ Hk) in Hrun.
    destruct (bytes_eqb (versionedHash k) h) eqn:E; [|discriminate].
    apply bytes_eqb_eq in E. simpl in Hrun.
    rewrite (drop_S _ _ _ Hk). simpl. constructor; [exact E|].
    apply IH; [lia | exact Hrun].
Qed.

(** Whatever the hashes are, the loop returns [nil] or a mismatch at an
    index where the computed hash differs from the declared one. *)
Lemma checkWrapping_hashes_some_mismatch (kzgs : BlobKzgs) :
  forall (hashes : list Hash) (i n : nat) (h : Hash) (k : KZGCommitment),
    (i + length hashes <= length kzgs)%nat ->
    hashes !! n = Some h ->
    kzgs !! (i + n)%nat = Some k ->
    versionedHash k <> h ->
    exists (j : nat) (hj : Hash) (kj : KZGCommitment),
      (j <= n)%nat /\ hashes !! j = Some hj /\ kzgs !! (i + j)%nat = Some kj /\
      versionedHash kj <> hj /\
      checkWrapping_hashes Keccak256Hash kzgs i hashes
      = Some (ErrVersionedHash (Z.of_nat (i + j)) hj (versionedHash kj)).
Proof.
  induction hashes as [|h0 hashes IH]; intros i n h k Hle Hh Hk Hne; [discriminate|].
  simpl in Hle. simpl checkWrapping_hashes.
  destruct (lookup_lt_is_Some_2 kzgs i ltac:(lia)) as [k0 Hk0].
  rewrite (list_lookup_total_correct _ _ _ Hk0).
  destruct (bytes_eqb (versionedHash k0) h0) eqn:E.
  - apply bytes_eqb_eq in E. destruct n as [|n].
    + simpl in Hh. injection Hh as ->. rewrite Nat.add_0_r in Hk. congruence.
    + simpl in Hh. replace (i + S n)%nat with (S i + n)%nat in Hk by lia.
      destruct (IH (S i) n h k ltac:(lia) Hh Hk Hne)
        as (j & hj & kj & Hj & Hhj & Hkj & Hnej & Hres).
      exists (S j), hj, kj. simpl negb. cbv iota.
      replace (i + S j)%nat with (S i + j)%nat by lia.
      repeat split; auto. lia.
  - exists 0%nat, h0, k0. rewrite Nat.add_0_r. simpl.
    repeat split; auto; [lia|].
    intros Heq. apply bytes_eqb_eq in Heq. congruence.
Qed.

(** [checkWrapping] returns [nil] only for a signed blob transaction with
    at most [MaxBlobsPerTx] declared hashes and as many commitments and
    blobs as hashes, where each declared hash is the versioned hash of the
    commitment of its index, every commitment converts to a point, every
    scalar converts to a field element, and the batch verification of
    these points and field elements returned [nil]. *)
Theorem checkWrapping_nil_only_if (b : BlobTxWrapData) (inner : TxData SignedBlobTx) :
  check b inner = None ->
  exists (tx : SignedBlobTx) (points : list G1Point) (frss : list (list Fr)),
    inner = TxSignedBlobTx SignedBlobTx tx /\
    len (BlobVersionedHashes tx) <= MaxBlobsPerTx /\
    length (wd_BlobKzgs b) = length (wd_Blobs b) /\
    length (wd_BlobKzgs b) = length (BlobVersionedHashes tx) /\
    Forall2 (fun k h => versionedHash k = h) (wd_BlobKzgs b) (BlobVersionedHashes tx) /\
    Forall2 (fun c p => FromCompressedG1 c = Some p) (wd_BlobKzgs b) points /\
    Forall2 (fun blob frs => ComputeCommitment_frs FrFrom32 blob = Some frs)
      (wd_Blobs b) frss /\
    VerifyBlobs points frss = None.
Proof.
  unfold checkWrapping. destruct inner as [tx|]; [|discriminate].
  destruct (MaxBlobsPerTx <? len (BlobVersionedHashes tx)) eqn:E1; [discriminate|].
  destruct (len (wd_BlobKzgs b) =? len (wd_Blobs b)) eqn:E2; [|discriminate].
  destruct (len (wd_BlobKzgs b) =? len (BlobVersionedHashes tx)) eqn:E3; [|discriminate].
  simpl negb. cbv iota.
  apply Z.ltb_ge in E1. apply Z.eqb_eq in E2, E3. unfold len in E2, E3.
  destruct (checkWrapping_hashes Keccak256Hash (wd_BlobKzgs b) 0
              (BlobVersionedHashes tx)) as [e|] eqn:Eh; [discriminate|].
  unfold BlobKzgs_Commitments, Blobs_Blobs.
  destruct (Commitments_loop FromCompressedG1 (wd_BlobKzgs b) []) as [pts errc] eqn:Ec.
  destruct errc as [e|]; [discriminate|].
  destruct (Blobs_Blobs_loop FrFrom32 (wd_Blobs b) []) as [res errb] eqn:Eb.
  destruct errb as [e|]; [discriminate|].
  intros Hverify.
  destruct (Commitments_loop_inv FromCompressedG1 _ _ _ Ec) as (points & -> & Hpoints).
  destruct (Blobs_Blobs_loop_inv FrFrom32 _ _ _ Eb) as (frss & -> & Hfrss).
  exists tx, points, frss. repeat split; try (exact Hpoints || exact Hfrss || lia).
  - apply (checkWrapping_hashes_inv _ _ 0%nat) in Eh; [|lia].
    rewrite drop_0, take_ge in Eh by lia. exact Eh.
  - exact Hverify.
Qed.

(** A declared hash whose version byte is not [0x01] is never accepted:
    when the counts agree, [checkWrapping] reports a hash mismatch, at the
    index of that hash or before it. *)
Theorem checkWrapping_rejects_wrong_version
    (b : BlobTxWrapData) (tx : SignedBlobTx) (i : nat) (h : Hash) :
  (forall x, wf_Hash (Keccak256Hash x)) ->
  len (BlobVersionedHashes tx) <= MaxBlobsPerTx ->
  length (wd_BlobKzgs b) = length (wd_Blobs b) ->
  length (wd_BlobKzgs b) = length (BlobVersionedHashes tx) ->
  BlobVersionedHashes tx !! i = Some h ->
  h !! 0%nat <> Some BLOB_COMMITMENT_VERSION_KZG ->
  exists (j : nat) (hj computed : Hash),
    (j <= i)%nat /\ BlobVersionedHashes tx !! j = Some hj /\ computed <> hj /\
    check b (TxSignedBlobTx SignedBlobTx tx)
    = Some (ErrVersionedHash (Z.of_nat j) hj computed).
Proof.
  intros Hdigest Hmax Hkb Hkh Hh Hversion.
  destruct (lookup_lt_is_Some_2 (wd_BlobKzgs b) i) as [k Hk].
  { rewrite Hkh. apply (lookup_lt_Some _ _ _ Hh). }
  assert (Hne : versionedHash k <> h).
  { intros Heq. apply Hversion. rewrite <- Heq.
    unfold KZGCommitment_ComputeVersionedHash.
    apply list_lookup_insert_eq. rewrite (Hdigest k). lia. }
  destruct (checkWrapping_hashes_some_mismatch (wd_BlobKzgs b) (BlobVersionedHashes tx)
              0 i h k ltac:(lia) Hh Hk Hne)
    as (j & hj & kj & Hj & Hhj & Hkj & Hnej & Hres).
  exists j, hj, (versionedHash kj). repeat split; auto.
  rewrite (checkWrapping_counts_ok MaxBlobsPerTx FrFrom32 FromCompressedG1 VerifyBlobs
             Keccak256Hash SignedBlobTx BlobVersionedHashes b tx Hmax Hkb Hkh).
  rewrite Hres. reflexivity.
Qed.

(** Wrap data built with the functions of this file passes every check
    before the batch verification: if each commitment is the one
    [ComputeCommitment] returns for the blob of its index, each declared
    hash is the versioned hash of that commitment, and decompression gives
    back the committed points, then [checkWrapping] returns what the batch
    verification returns on these points and the blobs' field elements. *)
Theorem checkWrapping_of_computed_commitments
    (b : BlobTxWrapData) (tx : SignedBlobTx) (frss : list (list Fr)) :
  len (BlobVersionedHashes tx) <= MaxBlobsPerTx ->
  Forall2 (fun blob frs => ComputeCommitment_frs FrFrom32 blob = Some frs)
    (wd_Blobs b) frss ->
  wd_BlobKzgs b
  = map (fun blob => (Blob_ComputeCommitment FrFrom32 BlobToKzg ToCompressedG1 blob).1)
      (wd_Blobs b) ->
  BlobVersionedHashes tx = map versionedHash (wd_BlobKzgs b) ->
  Forall (fun frs =>
            FromCompressedG1 (go_copy KZGCommitment_zero (ToCompressedG1 (BlobToKzg frs)))
            = Some (BlobToKzg frs)) frss ->
  check b (TxSignedBlobTx SignedBlobTx tx) = VerifyBlobs (map BlobToKzg frss) frss.
Proof.
  intros Hmax Hfrss Hkzgs Hhashes Hpoints.
  assert (Hlen : length (wd_BlobKzgs b) = length (wd_Blobs b)).
  { rewrite Hkzgs, length_map. reflexivity. }
  rewrite (checkWrapping_counts_ok MaxBlobsPerTx FrFrom32 FromCompressedG1 VerifyBlobs
             Keccak256Hash SignedBlobTx BlobVersionedHashes b tx Hmax Hlen)
    by (rewrite Hhashes, length_map; reflexivity).
  rewrite checkWrapping_hashes_match.
  2:{ rewrite drop_0, Hhashes. clear. induction (wd_BlobKzgs b); constructor; auto. }
  assert (Hconv : Forall2 (fun c p => FromCompressedG1 c = Some p)
                    (wd_BlobKzgs b) (map BlobToKzg frss)).
  { rewrite Hkzgs. clear - Hfrss Hpoints.
    induction Hfrss as [|blob frs blobs frss Hb _ IH]; simpl; [constructor|].
    inversion Hpoints as [|? ? Hp Hrest]; subst.
    constructor; [|apply IH; exact Hrest].
    unfold Blob_ComputeCommitment. rewrite Hb. simpl. exact Hp. }
  unfold BlobKzgs_Commitments.
  rewrite (Commitments_loop_ok FromCompressedG1 _ [] _ Hconv).
  unfold Blobs_Blobs.
  rewrite (Blobs_Blobs_loop_frs FrFrom32 _ [] frss Hfrss).
  reflexivity.
Qed.

End CheckWrappingMore.

Lemma checkWrapping_nil_only_if_witness :
  let k0 := repeat x01 48 in
  let h0 := KZGCommitment_ComputeVersionedHash Demo.Keccak256Hash k0 in
  let b := mkWrapData [k0] [[BLSFieldElement_zero]] in
  exists (points : list Demo.G1Point) (frss : list (list Demo.Fr)),
    Forall2 (fun c p => Demo.FromCompressedG1 c = Some p) [k0] points /\
    Demo.VerifyBlobs points frss = None.
Proof.
  intros k0 h0 b.
  destruct (checkWrapping_nil_only_if 4 Demo.FrFrom32 Demo.FromCompressedG1
              Demo.VerifyBlobs Demo.Keccak256Hash Demo.SignedBlobTx
              Demo.BlobVersionedHashes b (TxSignedBlobTx Demo.SignedBlobTx [h0]) eq_refl)
    as (tx & points & frss & _ & _ & _ & _ & _ & Hpoints & _ & Hverify).
  exists points, frss. split; [exact Hpoints | exact Hverify].
Defined.

Lemma Demo_Keccak256Hash_wf (x : list byte) : wf_Hash (Demo.Keccak256Hash x).
Proof.
  unfold wf_Hash, Demo.Keccak256Hash.
  rewrite length_map, length_take, length_app, repeat_length. lia.
Qed.

Lemma checkWrapping_rejects_wrong_version_witness :
  let k0 := repeat x01 48 in
  let k1 := repeat x02 48 in
  let h0 := KZGCommitment_ComputeVersionedHash Demo.Keccak256Hash k0 in
  let h1 := repeat x02 32 in
  let b := mkWrapData [k0; k1] [[BLSFieldElement_zero]; [BLSFieldElement_zero]] in
  exists (j : nat) (hj computed : Hash),
    (j <= 1)%nat /\ [h0; h1] !! j = Some hj /\ computed <> hj /\
    checkWrapping 4 Demo.FrFrom32 Demo.FromCompressedG1 Demo.VerifyBlobs
      Demo.Keccak256Hash Demo.SignedBlobTx Demo.BlobVersionedHashes
      b (TxSignedBlobTx Demo.SignedBlobTx [h0; h1])
    = Some (ErrVersionedHash (Z.of_nat j) hj computed).
Proof.
  intros k0 k1 h0 h1 b.
  apply (checkWrapping_rejects_wrong_version 4 Demo.FrFrom32 Demo.FromCompressedG1
           Demo.VerifyBlobs Demo.Keccak256Hash Demo.SignedBlobTx
           Demo.BlobVersionedHashes b [h0; h1] 1 h1).
  - exact Demo_Keccak256Hash_wf.
  - vm_compute. congruence.
  - reflexivity.
  - reflexivity.
  - reflexivity.
  - vm_compute. congruence.
Defined.

Lemma checkWrapping_of_computed_commitments_witness :
  let blob : Blob := [BLSFieldElement_zero; BLSFieldElement_zero] in
  let k := (Blob_ComputeCommitment Demo.FrFrom32 Demo.BlobToKzg Demo.ToCompressedG1 blob).1 in
  let h := KZGCommitment_ComputeVersionedHash Demo.Keccak256Hash k in
  checkWrapping 4 Demo.FrFrom32 Demo.FromCompressedG1 Demo.VerifyBlobs
    Demo.Keccak256Hash Demo.SignedBlobTx Demo.BlobVersionedHashes
    (mkWrapData [k] [blob]) (TxSignedBlobTx Demo.SignedBlobTx [h])
  = Demo.VerifyBlobs [Demo.BlobToKzg [0; 0]] [[0; 0]].
Proof.
  intros blob k h.
  apply (checkWrapping_of_computed_commitments 4 Demo.FrFrom32 Demo.BlobToKzg
           Demo.ToCompressedG1 Demo.FromCompressedG1 Demo.VerifyBlobs
           Demo.Keccak256Hash Demo.SignedBlobTx Demo.BlobVersionedHashes
           (mkWrapData [k] [blob]) [h] [[0; 0]]).
  - vm_compute. congruence.
  - repeat constructor.
  - reflexivity.
  - reflexivity.
  - repeat constructor.
Defined.

(** ** More on the text form of a commitment *)

Lemma hex_digit_not_x (d : byte) :
  hex.fromHexChar d <> None -> byte_eqb d "x" || byte_eqb d "X" = false.
Proof. destruct d; vm_compute; congruence. Qed.

Lemma has_0x_prefix_digits (p : list byte) (t : list byte) :
  same_digits (hex.EncodeToString p) t -> has_0x_prefix t = false.
Proof.
  intros Hsame. unfold has_0x_prefix.
  destruct p as [|v p]; simpl in Hsame.
  - inversion Hsame; subst. reflexivity.
  - inversion Hsame as [|c1 d1 s1 t1 H1 Hrest]; subst.
    inversion Hrest as [|c2 d2 s2 t2 H2 Hrest2]; subst.
    destruct (hex_pair_decodes v) as (a & b & _ & Hb & _).
    rewrite hex_digit_not_x by congruence.
    rewrite andb_false_r, andb_false_r. reflexivity.
Qed.

Lemma UnmarshalText_bare_digits (p q : KZGCommitment) (t : list byte) :
  wf_KZGCommitment p -> wf_KZGCommitment q ->
  same_digits (hex.EncodeToString p) t ->
  KZGCommitment_UnmarshalText (Some q) t = (None, Some p).
Proof.
  unfold wf_KZGCommitment. intros Hp Hq Hsame.
  assert (Hlen : length t = 96%nat).
  { apply Forall2_length in Hsame. rewrite EncodeToString_length in Hsame. lia. }
  unfold KZGCommitment_UnmarshalText.
  rewrite (has_0x_prefix_digits p t Hsame).
  replace (len t =? 96) with true by (symmetry; apply Z.eqb_eq; unfold len; lia).
  simpl negb. cbv iota. unfold hex.Decode.
  rewrite (Decode_loop_encoded p t q 0%nat Hsame) by lia.
  simpl. rewrite Hp, <- Hq, drop_all, app_nil_r. reflexivity.
Qed.

(** The prefix is optional and of either case: the 96 hex digits of a
    commitment decode to it when they come alone, after ["0x"] and after
    ["0X"], and [String] is the text [MarshalText] returns. *)
Theorem UnmarshalText_prefix_optional (p q : KZGCommitment) :
  wf_KZGCommitment p -> wf_KZGCommitment q ->
  KZGCommitment_UnmarshalText (Some q) (hex.EncodeToString p) = (None, Some p) /\
  KZGCommitment_UnmarshalText (Some q) (["0"; "X"]%byte ++ hex.EncodeToString p)
  = (None, Some p) /\
  KZGCommitment_UnmarshalText (Some q) (KZGCommitment_String p) = (None, Some p) /\
  KZGCommitment_String p = (KZGCommitment_MarshalText p).1.
Proof.
  intros Hp Hq. repeat split.
  - apply UnmarshalText_bare_digits; auto. apply same_digits_refl.
  - apply UnmarshalText_same_digits; auto. apply same_digits_refl.
  - apply UnmarshalText_same_digits; auto. apply same_digits_refl.
Qed.

Lemma UnmarshalText_prefix_optional_witness :
  let p := repeat x3c 48 in
  KZGCommitment_UnmarshalText (Some KZGCommitment_zero) (hex.EncodeToString p)
  = (None, Some p).
Proof.
  intros p.
  apply (UnmarshalText_prefix_optional p KZGCommitment_zero); reflexivity.
Defined.

Lemma fromHexChar_lower (c a : byte) :
  hex.fromHexChar c = Some a ->
  0 <= byte_to_Z a < 16 /\ hex.hexchar (byte_to_Z a) = to_lower c.
Proof.
  destruct c; intros H; vm_compute in H; try discriminate;
    injection H as <-; vm_compute; repeat split; congruence.
Qed.

Lemma nibble_pair (A B : Z) :
  0 <= A < 16 -> 0 <= B < 16 ->
  Z.shiftr ((Z.lor (Z.shiftl A 4) B) mod 2 ^ 8) 4 = A /\
  Z.land ((Z.lor (Z.shiftl A 4) B) mod 2 ^ 8) 15 = B.
Proof.
  intros HA HB.
  assert (EA : A = 0 \/ A = 1 \/ A = 2 \/ A = 3 \/ A = 4 \/ A = 5 \/ A = 6 \/ A = 7 \/
               A = 8 \/ A = 9 \/ A = 10 \/ A = 11 \/ A = 12 \/ A = 13 \/ A = 14 \/ A = 15)
    by lia.
  assert (EB : B = 0 \/ B = 1 \/ B = 2 \/ B = 3 \/ B = 4 \/ B = 5 \/ B = 6 \/ B = 7 \/
               B = 8 \/ B = 9 \/ B = 10 \/ B = 11 \/ B = 12 \/ B = 13 \/ B = 14 \/ B = 15)
    by lia.
  clear HA HB.
  repeat (destruct EA as [-> | EA]); try subst A;
    repeat (destruct EB as [-> | EB]); try subst B;
    vm_compute; split; reflexivity.
Qed.

(** A text that decodes without error decodes to bytes whose encoding is
    the text in lower case. *)
Lemma Decode_loop_canonical (n : nat) :
  forall (t dst : list byte) (i cnt : nat) (dst' : list byte),
    length t = (2 * n)%nat ->
    (i + n <= length dst)%nat ->
    hex.Decode_loop dst i t = (cnt, None, dst') ->
    length dst' = length dst /\
    take i dst' = take i dst /\
    hex.EncodeToString (take n (drop i dst')) = map to_lower t.
Proof.
  induction n as [|n IH]; intros t dst i cnt dst' Hlen Hfit Hrun.
  - destruct t; [|discriminate]. simpl in Hrun. injection Hrun as _ <-.
    repeat split; reflexivity.
  - destruct t as [|c1 [|c2 t]]; simpl in Hlen; try lia.
    simpl in Hrun.
    destruct (hex.fromHexChar c1) as [a|] eqn:E1; [|discriminate].
    destruct (hex.fromHexChar c2) as [b|] eqn:E2; [|discriminate].
    set (v := byte_of_Z (Z.lor (Z.shiftl (byte_to_Z a) 4) (byte_to_Z b))) in *.
    destruct (IH t (<[i:=v]> dst) (S i) cnt dst' ltac:(lia)
                ltac:(rewrite length_insert; lia) Hrun) as (Hl & Ht & He).
    rewrite length_insert in Hl.
    assert (Hv : dst' !! i = Some v).
    { rewrite <- (lookup_take_lt dst' (S i) i) by lia. rewrite Ht.
      rewrite lookup_take_lt by lia. apply list_lookup_insert_eq. lia. }
    split; [exact Hl|]. split.
    + replace (take i dst') with (take i (take (S i) dst'))
        by (rewrite take_take; f_equal; lia).
      rewrite Ht, take_take. replace (Nat.min i (S i)) with i by lia.
      apply take_insert_ge. lia.
    + rewrite (drop_S _ _ _ Hv). simpl. rewrite He.
      destruct (fromHexChar_lower c1 a E1) as [Ha Hc1].
      destruct (fromHexChar_lower c2 b E2) as [Hb Hc2].
      destruct (nibble_pair _ _ Ha Hb) as [Hhi Hlo].
      subst v. rewrite byte_to_of_Z, Hhi, Hlo, Hc1, Hc2. reflexivity.
Qed.

(** Decoding hex digits of either case in front of any text goes on
    with the rest of the text, the bytes they spell being written into
    the destination. *)
Lemma Decode_loop_digits_prefix (n : nat) :
  forall (digits t dst : list byte) (i : nat),
    length digits = (2 * n)%nat ->
    Forall (fun c => is_hex_digit c = true) digits ->
    (i + n <= length dst)%nat ->
    exists pre,
      length pre = n /\
      hex.EncodeToString pre = map to_lower digits /\
      hex.Decode_loop dst i (digits ++ t)
      = hex.Decode_loop (take i dst ++ pre ++ drop (i + n) dst) (i + n) t.
Proof.
  induction n as [|n IH]; intros digits t dst i Hlen Hhex Hfit.
  - destruct digits; [|discriminate]. exists []. simpl.
    rewrite Nat.add_0_r, take_drop. auto.
  - destruct digits as [|c1 [|c2 ds]]; simpl in Hlen; try lia.
    inversion Hhex as [|? ? H1 Hhex1]; subst.
    inversion Hhex1 as [|? ? H2 Hhex2]; subst.
    destruct (hex.fromHexChar c1) as [a|] eqn:E1;
      [|exfalso; apply (proj2 (fromHexChar_is_hex_digit c1) H1); exact E1].
    destruct (hex.fromHexChar c2) as [b|] eqn:E2;
      [|exfalso; apply (proj2 (fromHexChar_is_hex_digit c2) H2); exact E2].
    set (v := byte_of_Z (Z.lor (Z.shiftl (byte_to_Z a) 4) (byte_to_Z b))).
    destruct (IH ds t (<[i:=v]> dst) (S i) ltac:(lia) Hhex2
                ltac:(rewrite length_insert; lia)) as (pre & Hpl & Henc & Hrun).
    exists (v :: pre). split; [simpl; lia|]. split.
    + simpl. rewrite Henc.
      destruct (fromHexChar_lower c1 a E1) as [Ha Hc1].
      destruct (fromHexChar_lower c2 b E2) as [Hb Hc2].
      destruct (nibble_pair _ _ Ha Hb) as [Hhi Hlo].
      subst v. rewrite byte_to_of_Z, Hhi, Hlo, Hc1, Hc2. reflexivity.
    + cbn [app hex.Decode_loop]. rewrite E1, E2. fold v. rewrite Hrun.
      rewrite drop_insert_lt by lia.
      rewrite (take_S_r _ i v) by (apply list_lookup_insert_eq; lia).
      rewrite take_insert_ge by lia.
      rewrite <- app_assoc. cbn [app].
      replace (S i + n)%nat with (i + S n)%nat by lia.
      reflexivity.
Qed.

(** A text that has the right length without its prefix, and a character
    that is no hex digit, is refused with that character, the first such
    one, in the error, whatever the case of the digits and of the prefix;
    the bytes that the pairs of digits before it spell have by then been
    written into the receiver, whose later bytes are as before. *)
Theorem UnmarshalText_invalid_digit
    (q text digits : list byte) (c1 c2 : byte) (rest : list byte) :
  wf_KZGCommitment q ->
  strip_0x text = digits ++ c1 :: c2 :: rest ->
  length (digits ++ c1 :: c2 :: rest) = 96%nat ->
  Nat.even (length digits) = true ->
  Forall (fun c => is_hex_digit c = true) digits ->
  is_hex_digit c1 = false \/ is_hex_digit c2 = false ->
  let bad := if is_hex_digit c1 then c2 else c1 in
  exists pre : list byte,
    hex.EncodeToString pre = map to_lower digits /\
    KZGCommitment_UnmarshalText (Some q) text
    = (Some (ErrHexInvalidByte bad), Some (pre ++ drop (length pre) q)).
Proof.
  intros Hq Htext Hlen Heven Hhex Hbad bad. unfold wf_KZGCommitment in Hq.
  apply Nat.even_spec in Heven. destruct Heven as [n Hn].
  assert (Hpre : (n < 48)%nat).
  { rewrite length_app in Hlen. simpl in Hlen. lia. }
  destruct (Decode_loop_digits_prefix n digits (c1 :: c2 :: rest) q 0%nat Hn Hhex
              ltac:(lia)) as (pre & Hpl & Henc & Hrun).
  exists pre. split; [exact Henc|].
  unfold KZGCommitment_UnmarshalText.
  rewrite has_0x_prefix_strip, Htext.
  replace (len (digits ++ c1 :: c2 :: rest) =? 96) with true
    by (symmetry; apply Z.eqb_eq; unfold len; lia).
  simpl negb. cbv iota. unfold hex.Decode. rewrite Hrun.
  simpl take. simpl Nat.add. cbn [app]. rewrite Hpl.
  subst bad. simpl hex.Decode_loop.
  pose proof (fromHexChar_is_hex_digit c1) as H1.
  pose proof (fromHexChar_is_hex_digit c2) as H2.
  destruct (hex.fromHexChar c1) as [a|].
  - assert (E1 : is_hex_digit c1 = true) by (apply H1; congruence).
    rewrite E1. destruct Hbad as [Hbad | Hbad]; [congruence|].
    destruct (hex.fromHexChar c2) as [b|].
    + assert (is_hex_digit c2 = true) by (apply H2; congruence). congruence.
    + reflexivity.
  - destruct (is_hex_digit c1) eqn:E1.
    + exfalso. apply (proj2 H1 eq_refl). reflexivity.
    + reflexivity.
Qed.

Lemma UnmarshalText_invalid_digit_witness :
  let q := repeat xee 48 in
  let text := ["0"; "X"; "A"; "b"; "1"; "F"; "a"; "g"]%byte ++ repeat "0"%byte 90 in
  exists pre : list byte,
    hex.EncodeToString pre = ["a"; "b"; "1"; "f"]%byte /\
    KZGCommitment_UnmarshalText (Some q) text
    = (Some (ErrHexInvalidByte "g"), Some (pre ++ drop (length pre) q)).
Proof.
  intros q text.
  apply (UnmarshalText_invalid_digit q text ["A"; "b"; "1"; "F"]%byte "a" "g"
           (repeat "0"%byte 90)).
  - reflexivity.
  - reflexivity.
  - reflexivity.
  - reflexivity.
  - repeat constructor.
  - right. reflexivity.
Defined.

(** The same text in full: after ["0XAb1F"] the pair ["ag"] is refused,
    and the receiver then starts with the bytes [0xab] and [0x1f]. *)
Example UnmarshalText_upper_case_then_invalid :
  KZGCommitment_UnmarshalText (Some (repeat xee 48))
    (["0"; "X"; "A"; "b"; "1"; "F"; "a"; "g"]%byte ++ repeat "0"%byte 90)
  = (Some (ErrHexInvalidByte "g"), Some ([xab; x1f] ++ repeat xee 46)).
Proof. vm_compute. reflexivity. Qed.

(** Decoding then encoding puts a text in canonical form: when
    [UnmarshalText] accepts a text, [MarshalText] of the commitment it
    leaves in the receiver is ["0x"] followed by the text, without its
    prefix, in lower case. *)
Theorem MarshalText_of_UnmarshalText (p q : KZGCommitment) (text : list byte) :
  wf_KZGCommitment q ->
  KZGCommitment_UnmarshalText (Some q) text = (None, Some p) ->
  wf_KZGCommitment p /\
  KZGCommitment_MarshalText p
  = (["0"; "x"]%byte ++ map to_lower (strip_0x text), None).
Proof.
  unfold wf_KZGCommitment, KZGCommitment_UnmarshalText. intros Hq.
  rewrite has_0x_prefix_strip.
  destruct (len (strip_0x text) =? 96) eqn:E; simpl negb; cbv iota; [|discriminate].
  apply Z.eqb_eq in E. unfold len in E. unfold hex.Decode.
  destruct (hex.Decode_loop q 0 (strip_0x text)) as [[cnt err] q'] eqn:Erun.
  intros [= -> ->].
  destruct (Decode_loop_canonical 48 (strip_0x text) q 0%nat cnt p
              ltac:(lia) ltac:(lia) Erun) as (Hl & _ & He).
  split; [lia|].
  unfold KZGCommitment_MarshalText. rewrite <- He, drop_0, take_ge by lia.
  reflexivity.
Qed.

Lemma MarshalText_of_UnmarshalText_witness :
  let text := ["0"; "X"]%byte ++ concat (repeat ["A"; "b"]%byte 48) in
  KZGCommitment_MarshalText (repeat xab 48)
  = (["0"; "x"]%byte ++ concat (repeat ["a"; "b"]%byte 48), None).
Proof.
  intros text.
  exact (proj2 (MarshalText_of_UnmarshalText (repeat xab 48) KZGCommitment_zero text
                  eq_refl eq_refl)).
Defined.

(** ** More on the Merkle root of a commitment *)

Lemma HashTreeRoot_leaves (p : KZGCommitment) (hFn : Root -> Root -> Root) :
  wf_KZGCommitment p ->
  KZGCommitment_HashTreeRoot p hFn = hFn (take 32 p) (drop 32 p ++ repeat x00 16).
Proof.
  unfold wf_KZGCommitment. intros Hp.
  assert (H1 : length (take 32 p) = 32%nat) by (rewrite length_take; lia).
  assert (H2 : length (drop 32 p) = 16%nat) by (rewrite length_drop; lia).
  assert (H3 : take 16 (drop 32 p) = drop 32 p) by (apply take_ge; lia).
  unfold KZGCommitment_HashTreeRoot, slice. rewrite drop_0.
  change (32 - 0)%nat with 32%nat. change (48 - 32)%nat with 16%nat.
  rewrite H3. f_equal.
  - apply go_copy_full. rewrite H1. reflexivity.
  - unfold go_copy, Root_zero. rewrite H2, repeat_length. simpl Nat.min.
    rewrite (take_ge (drop 32 p)) by lia. reflexivity.
Qed.

(** The two leaves keep all 48 bytes: the root of a commitment is the
    hash of two nodes of 32 bytes, and different commitments have
    different pairs of nodes. So two different commitments with the same
    root are a collision of the hash function on nodes of 32 bytes. *)
Theorem KZGCommitment_HashTreeRoot_collision
    (p q : KZGCommitment) (hFn : Root -> Root -> Root) :
  wf_KZGCommitment p -> wf_KZGCommitment q ->
  p <> q ->
  let a : Root := take 32 p in
  let b : Root := drop 32 p ++ repeat x00 16 in
  let c : Root := take 32 q in
  let d : Root := drop 32 q ++ repeat x00 16 in
  (length a = 32%nat /\ length b = 32%nat /\ length c = 32%nat /\ length d = 32%nat) /\
  (a, b) <> (c, d) /\
  KZGCommitment_HashTreeRoot p hFn = hFn a b /\
  KZGCommitment_HashTreeRoot q hFn = hFn c d /\
  (KZGCommitment_HashTreeRoot p hFn = KZGCommitment_HashTreeRoot q hFn ->
   hFn a b = hFn c d).
Proof.
  intros Hp Hq Hne a b c d.
  pose proof (HashTreeRoot_leaves p hFn Hp) as Rp.
  pose proof (HashTreeRoot_leaves q hFn Hq) as Rq.
  unfold wf_KZGCommitment in Hp, Hq. subst a b c d.
  split; [|split; [|split; [exact Rp | split; [exact Rq|]]]].
  - repeat split;
      try (rewrite length_take; lia);
      try (rewrite length_app, length_drop, repeat_length; lia).
  - intros [= Ha Hb]. apply Hne. apply app_inv_tail in Hb.
    rewrite <- (take_drop 32 p), <- (take_drop 32 q), Ha, Hb. reflexivity.
  - intros Heq. rewrite <- Rp, <- Rq. exact Heq.
Qed.

Lemma KZGCommitment_HashTreeRoot_collision_witness :
  let p := repeat x11 48 in
  let q := repeat x11 47 ++ [x12] in
  let hFn : Root -> Root -> Root := fun a b => a in
  (take 32 p, drop 32 p ++ repeat x00 16) <> (take 32 q, drop 32 q ++ repeat x00 16) /\
  KZGCommitment_HashTreeRoot p hFn = KZGCommitment_HashTreeRoot q hFn.
Proof.
  intros p q hFn.
  destruct (KZGCommitment_HashTreeRoot_collision p q hFn) as (_ & Hne & _).
  - reflexivity.
  - reflexivity.
  - vm_compute. congruence.
  - split; [exact Hne | reflexivity].
Defined.

(** ** What a successful decode has read *)

Lemma Read_inv (dr dr' : codec.DecodingReader) (p p' : list byte) (n : Z) :
  reader_ok dr ->
  len p < 2 ^ 64 ->
  codec.Read dr p = (n, None, p', dr') ->
  length p' = length p /\
  codec.input dr = p' ++ codec.input dr' /\
  codec.idx dr' = codec.idx dr + len p /\
  codec.max dr' = codec.max dr /\
  reader_ok dr'.
Proof.
  intros [Hidx Hmax] Hlt. unfold codec.Read. pose proof (len_nonneg p) as Hnn.
  destruct (len p =? 0) eqn:E0.
  - intros [= _ <- <-]. apply Z.eqb_eq in E0.
    destruct p; [|unfold len in E0; simpl in E0; lia].
    repeat split; try (unfold len; simpl; lia).
  - destruct ((codec.max dr <? u64 (codec.idx dr + len p))
              || (u64 (codec.idx dr + len p) <? codec.idx dr)) eqn:E1; [discriminate|].
    apply orb_false_iff in E1. destruct E1 as [E1 E2].
    apply Z.ltb_ge in E1, E2.
    destruct (len (take (length p) (codec.input dr)) <? len p) eqn:E3; [discriminate|].
    apply Z.ltb_ge in E3. unfold len in E3. rewrite length_take in E3.
    intros [= _ <- <-]. cbn [codec.input codec.idx codec.max].
    assert (Hgot : length (take (length p) (codec.input dr)) = length p)
      by (rewrite length_take; lia).
    assert (Hsmall : codec.idx dr + len p < 2 ^ 64 \/ 2 ^ 64 <= codec.idx dr + len p) by lia.
    destruct Hsmall as [Hsmall | Hbig].
    + rewrite u64_small in E1 by lia.
      rewrite go_copy_full by lia.
      assert (Hlg : len (take (length p) (codec.input dr)) = len p)
        by (unfold len; rewrite Hgot; reflexivity).
      rewrite Hlg, u64_small by lia.
      repeat split; cbn [codec.input codec.idx codec.max]; try lia.
      rewrite take_drop. reflexivity.
    + exfalso. unfold u64 in E2.
      pose proof (Z.mod_pos_bound (codec.idx dr + len p) (2 ^ 64) ltac:(lia)) as Hm.
      assert ((codec.idx dr + len p) mod 2 ^ 64 = codec.idx dr + len p - 2 ^ 64).
      { symmetry. apply (Z.mod_unique _ _ 1); lia. }
      lia.
Qed.

Lemma ReadFieldElements_loop_inv (n : nat) :
  forall (dst dst' : list BLSFieldElement) (i : nat) (dr dr' : codec.DecodingReader),
    reader_ok dr ->
    Forall wf_BLSFieldElement dst ->
    (i + n <= length dst)%nat ->
    ReadFieldElements_loop dst i n dr = (None, dst', dr') ->
    Forall wf_BLSFieldElement dst' /\
    length dst' = length dst /\
    take i dst' = take i dst /\
    codec.input dr = concat (take n (drop i dst')) ++ codec.input dr' /\
    codec.idx dr' = codec.idx dr + 32 * Z.of_nat n /\
    codec.max dr' = codec.max dr /\
    reader_ok dr'.
Proof.
  induction n as [|n IH]; intros dst dst' i dr dr' Hok Hwf Hfit Hrun.
  - simpl in Hrun. injection Hrun as <- <-. rewrite take_0. simpl.
    repeat split; auto; try lia; apply Hok.
  - cbn [ReadFieldElements_loop] in Hrun.
    destruct (lookup_lt_is_Some_2 dst i ltac:(lia)) as [d Hd].
    rewrite (list_lookup_total_correct _ _ _ Hd) in Hrun.
    assert (Hdwf : wf_BLSFieldElement d).
    { rewrite Forall_forall in Hwf. apply Hwf. apply list_elem_of_lookup. eauto. }
    destruct (codec.Read dr d) as [[[cnt err] e'] dr1] eqn:Eread.
    destruct err as [x|]; [discriminate|].
    unfold wf_BLSFieldElement in Hdwf.
    assert (Hd64 : len d < 2 ^ 64) by (unfold len; lia).
    destruct (Read_inv _ _ _ _ _ Hok Hd64 Eread) as (Hle & Hin & Hidx & Hmax & Hok1).
    assert (He' : wf_BLSFieldElement e') by (unfold wf_BLSFieldElement; lia).
    destruct (IH (<[i:=e']> dst) dst' (S i) dr1 dr' Hok1
                (Forall_insert _ _ _ _ Hwf He')
                ltac:(rewrite length_insert; lia) Hrun)
      as (Hwf' & Hl & Ht & Hin' & Hidx' & Hmax' & Hok').
    rewrite length_insert in Hl.
    assert (Hv : dst' !! i = Some e').
    { rewrite <- (lookup_take_lt dst' (S i) i) by lia. rewrite Ht.
      rewrite lookup_take_lt by lia. apply list_lookup_insert_eq. lia. }
    repeat split; auto.
    + replace (take i dst') with (take i (take (S i) dst'))
        by (rewrite take_take; f_equal; lia).
      rewrite Ht, take_take. replace (Nat.min i (S i)) with i by lia.
      apply take_insert_ge. lia.
    + rewrite (drop_S _ _ _ Hv). simpl. rewrite <- app_assoc, <- Hin'. exact Hin.
    + rewrite Hidx', Hidx. unfold len. lia.
    + congruence.
    + apply Hok'.
    + apply Hok'.
    + apply Hok'.
Qed.

Lemma ReadFieldElements_inv (F : Z) (s0 s' : GoSlice BLSFieldElement)
    (dr dr' : codec.DecodingReader) :
  0 <= F ->
  reader_ok dr ->
  Forall wf_BLSFieldElement (elems s0 ++ spare s0) ->
  ReadFieldElements dr s0 F = (None, s', dr') ->
  wf_Blob F (elems s') /\
  codec.input dr = concat (elems s') ++ codec.input dr' /\
  codec.idx dr' = codec.idx dr + F * 32 /\
  codec.max dr' = codec.max dr /\
  reader_ok dr'.
Proof.
  intros HF Hok Hs0. unfold ReadFieldElements.
  set (elems1 := if negb (len (elems s0) =? F) then _ else s0).
  assert (H1 : length (elems elems1) = Z.to_nat F /\
               Forall wf_BLSFieldElement (elems elems1)).
  { subst elems1. unfold len. destruct (Z.of_nat (length (elems s0)) =? F) eqn:E1; simpl.
    - apply Z.eqb_eq in E1. split; [lia|]. apply Forall_app in Hs0. tauto.
    - destruct (F <=? cap s0) eqn:E2; simpl.
      + apply Z.leb_le in E2. unfold cap, len in E2. split.
        * rewrite length_take, length_app. lia.
        * apply Forall_take. exact Hs0.
      + split; [apply repeat_length | apply Forall_repeat; reflexivity]. }
  destruct H1 as [Hlen1 Hwf1].
  destruct (ReadFieldElements_loop (elems elems1) 0 (Z.to_nat F) dr)
    as [[err dst] dr1] eqn:Eloop.
  intros [= -> <- <-]. cbn [elems].
  assert (Hfit : (0 + Z.to_nat F <= length (elems elems1))%nat) by lia.
  destruct (ReadFieldElements_loop_inv _ _ _ _ _ _ Hok Hwf1 Hfit Eloop)
    as (Hwf' & Hl & _ & Hin & Hidx & Hmax & Hok').
  rewrite drop_0, take_ge in Hin by lia.
  repeat split; auto; try apply Hok'.
  - unfold len. lia.
  - lia.
Qed.

(** A successful [Deserialize] of a blob, into whatever destination,
    leaves a blob of exactly [FieldElementsPerBlob] scalars of 32 bytes:
    it has read [FieldElementsPerBlob * 32] bytes, all within the scope,
    and [Serialize] of the blob writes these bytes again. *)
Theorem Blob_Deserialize_reads_one_blob (FieldElementsPerBlob : Z)
    (s0 s' : GoSlice BLSFieldElement) (dr dr' : codec.DecodingReader) :
  0 <= FieldElementsPerBlob ->
  reader_ok dr ->
  Forall wf_BLSFieldElement (elems s0 ++ spare s0) ->
  Blob_Deserialize FieldElementsPerBlob s0 dr = (None, s', dr') ->
  wf_Blob FieldElementsPerBlob (elems s') /\
  (exists consumed,
      codec.input dr = consumed ++ codec.input dr' /\
      len consumed = FieldElementsPerBlob * 32 /\
      Blob_Serialize (elems s') [] = (None, consumed)) /\
  codec.idx dr' = codec.idx dr + FieldElementsPerBlob * 32 /\
  codec.idx dr' <= codec.max dr.
Proof.
  intros HF Hok Hs0 Hrun.
  destruct (ReadFieldElements_inv _ _ _ _ _ HF Hok Hs0 Hrun)
    as (Hwf & Hin & Hidx & Hmax & [Hrange _]).
  split; [exact Hwf|]. split; [|split; [exact Hidx | lia]].
  exists (concat (elems s')). split; [exact Hin|]. split.
  - apply wf_Blob_len_concat. exact Hwf.
  - apply WriteFieldElements_out.
Qed.

Lemma Blob_Deserialize_reads_one_blob_witness :
  let dr := codec.mkReader (repeat x07 64 ++ [x01; x02]) 0 66 in
  let r := Blob_Deserialize 2 (mkSlice [repeat x09 32] []) dr in
  wf_Blob 2 (elems r.1.2) /\ codec.idx r.2 = 64.
Proof.
  intros dr r.
  assert (Hr : r = (None, r.1.2, r.2)) by (vm_compute; reflexivity).
  destruct (Blob_Deserialize_reads_one_blob 2 (mkSlice [repeat x09 32] []) r.1.2 dr r.2)
    as (Hwf & _ & Hidx & _).
  - lia.
  - split; cbn; lia.
  - repeat constructor.
  - exact Hr.
  - split; [exact Hwf | exact Hidx].
Defined.

Lemma ReadFieldElements_spare (F : Z) (s0 : GoSlice BLSFieldElement)
    (dr : codec.DecodingReader) :
  spare (ReadFieldElements dr s0 F).1.2
  = if len (elems s0) =? F then spare s0
    else if F <=? cap s0 then drop (Z.to_nat F) (elems s0 ++ spare s0)
    else [].
Proof.
  unfold ReadFieldElements.
  destruct (len (elems s0) =? F); [|destruct (F <=? cap s0)]; simpl;
    destruct (ReadFieldElements_loop _ 0 (Z.to_nat F) dr) as [[err dst] dr'];
    reflexivity.
Qed.

(** Decoding into a blob that is already there recycles its storage: the
    encoding of a blob decodes to that blob whatever the destination held;
    a destination with room for [FieldElementsPerBlob] scalars keeps its
    capacity, the rest of its backing array staying as it was, and a
    smaller one is replaced by a new array of exactly that size. *)
Theorem Blob_Deserialize_recycles (FieldElementsPerBlob : Z) (blob : Blob)
    (s0 : GoSlice BLSFieldElement) (dr : codec.DecodingReader) (rest : list byte) :
  reader_ok dr ->
  codec.input dr = concat blob ++ rest ->
  wf_Blob FieldElementsPerBlob blob ->
  Forall wf_BLSFieldElement (elems s0 ++ spare s0) ->
  codec.idx dr + FieldElementsPerBlob * 32 <= codec.max dr ->
  let r := Blob_Deserialize FieldElementsPerBlob s0 dr in
  r.1.1 = None /\
  elems r.1.2 = blob /\
  codec.input r.2 = rest /\
  (FieldElementsPerBlob <= cap s0 ->
   spare r.1.2 = drop (Z.to_nat FieldElementsPerBlob) (elems s0 ++ spare s0) /\
   cap r.1.2 = cap s0) /\
  (cap s0 < FieldElementsPerBlob -> spare r.1.2 = [] /\ cap r.1.2 = FieldElementsPerBlob).
Proof.
  intros Hok Hin Hwf Hs0 Hfit r. subst r. unfold Blob_Deserialize.
  pose proof (ReadFieldElements_spare FieldElementsPerBlob s0 dr) as Hspare.
  destruct (ReadFieldElements_ok _ blob s0 dr rest Hok Hin Hwf Hs0 Hfit) as [sp Hrun].
  rewrite Hrun in *. cbn [fst snd elems spare codec.input] in *.
  destruct Hwf as [_ HF]. unfold len in HF.
  repeat split; unfold cap; cbn [elems spare]; subst sp.
  - destruct (len (elems s0) =? FieldElementsPerBlob) eqn:E1.
    + apply Z.eqb_eq in E1. unfold len in E1.
      replace (Z.to_nat FieldElementsPerBlob) with (length (elems s0)) by lia.
      rewrite drop_app_length. reflexivity.
    + replace (FieldElementsPerBlob <=? cap s0) with true
        by (symmetry; apply Z.leb_le; assumption).
      reflexivity.
  - unfold cap, len in *.
    destruct (Z.of_nat (length (elems s0)) =? FieldElementsPerBlob) eqn:E1.
    + apply Z.eqb_eq in E1. lia.
    + replace (FieldElementsPerBlob <=? Z.of_nat (length (elems s0))
                                       + Z.of_nat (length (spare s0))) with true
        by (symmetry; apply Z.leb_le; assumption).
      rewrite length_drop, length_app. lia.
  - unfold cap, len in *.
    destruct (Z.of_nat (length (elems s0)) =? FieldElementsPerBlob) eqn:E1.
    + apply Z.eqb_eq in E1. lia.
    + replace (FieldElementsPerBlob <=? Z.of_nat (length (elems s0))
                                       + Z.of_nat (length (spare s0))) with false
        by (symmetry; apply Z.leb_gt; assumption).
      reflexivity.
  - unfold cap, len in *.
    destruct (Z.of_nat (length (elems s0)) =? FieldElementsPerBlob) eqn:E1.
    + apply Z.eqb_eq in E1. lia.
    + replace (FieldElementsPerBlob <=? Z.of_nat (length (elems s0))
                                       + Z.of_nat (length (spare s0))) with false
        by (symmetry; apply Z.leb_gt; assumption).
      simpl. lia.
Qed.

Lemma Blob_Deserialize_recycles_witness :
  let old : GoSlice BLSFieldElement :=
    mkSlice [repeat x09 32] [repeat x0a 32; repeat x0b 32] in
  let blob : Blob := [repeat x01 32; repeat x02 32] in
  let r := Blob_Deserialize 2 old (reader_of (concat blob)) in
  elems r.1.2 = blob /\ spare r.1.2 = [repeat x0b 32].
Proof.
  intros old blob r.
  destruct (Blob_Deserialize_recycles 2 blob old (reader_of (concat blob)) [])
    as (_ & Helems & _ & Hbig & _).
  - split; [split|]; vm_compute; congruence.
  - rewrite app_nil_r. reflexivity.
  - split; [repeat constructor | reflexivity].
  - repeat constructor.
  - vm_compute. congruence.
  - split; [exact Helems|]. apply Hbig. vm_compute. congruence.
Defined.

Lemma List_loop_inv {A}
    (step : list A -> codec.DecodingReader
            -> option error * list A * codec.DecodingReader)
    (enc : A -> list byte) (good : A -> Prop) (size : Z) :
  (forall s s' dr dr',
      reader_ok dr -> step s dr = (None, s', dr') ->
      exists e,
        s' = s ++ [e] /\ good e /\
        codec.input dr = enc e ++ codec.input dr' /\
        codec.idx dr' = codec.idx dr + size /\
        codec.max dr' = codec.max dr /\ reader_ok dr') ->
  forall (n : nat) (s s' : list A) (dr dr' : codec.DecodingReader),
    reader_ok dr ->
    codec.List_loop step n s dr = (None, s', dr') ->
    exists new,
      s' = s ++ new /\ Forall good new /\ length new = n /\
      codec.input dr = concat (map enc new) ++ codec.input dr' /\
      codec.idx dr' = codec.idx dr + size * Z.of_nat n /\
      codec.max dr' = codec.max dr /\ reader_ok dr'.
Proof.
  intros Hstep. induction n as [|n IH]; intros s s' dr dr' Hok Hrun; simpl in Hrun.
  - injection Hrun as <- <-. exists []. rewrite app_nil_r. simpl.
    repeat split; auto; try lia; apply Hok.
  - destruct (step s dr) as [[err s1] dr1] eqn:E.
    destruct err as [x|]; [discriminate|].
    destruct (Hstep _ _ _ _ Hok E) as (e & -> & He & Hin & Hidx & Hmax & Hok1).
    destruct (IH _ _ _ _ Hok1 Hrun) as (new & -> & Hall & Hlen & Hin' & Hidx' & Hmax' & Hok').
    exists (e :: new). rewrite <- app_assoc. simpl.
    repeat split; auto; try apply Hok'.
    + rewrite <- app_assoc, <- Hin'. exact Hin.
    + lia.
    + congruence.
Qed.

Lemma List_inv {A}
    (step : list A -> codec.DecodingReader
            -> option error * list A * codec.DecodingReader)
    (enc : A -> list byte) (good : A -> Prop) (size limit : Z) :
  0 < size ->
  (forall s s' dr dr',
      reader_ok dr -> step s dr = (None, s', dr') ->
      exists e,
        s' = s ++ [e] /\ good e /\
        codec.input dr = enc e ++ codec.input dr' /\
        codec.idx dr' = codec.idx dr + size /\
        codec.max dr' = codec.max dr /\ reader_ok dr') ->
  forall (s s' : list A) (dr dr' : codec.DecodingReader),
    reader_ok dr ->
    codec.List step size limit s dr = (None, s', dr') ->
    exists new,
      s' = s ++ new /\ Forall good new /\ len new <= limit /\
      len new * size = codec.max dr - codec.idx dr /\
      codec.input dr = concat (map enc new) ++ codec.input dr' /\
      codec.idx dr' = codec.max dr /\ codec.max dr' = codec.max dr.
Proof.
  intros Hsize Hstep s s' dr dr' Hok. pose proof Hok as [Hidx Hmax].
  unfold codec.List, codec.Scope. rewrite u64_small by lia.
  destruct ((codec.max dr - codec.idx dr) mod size =? 0) eqn:E1; [|discriminate].
  apply Z.eqb_eq in E1.
  destruct (limit <? (codec.max dr - codec.idx dr) / size) eqn:E2; [discriminate|].
  apply Z.ltb_ge in E2. simpl negb. cbv iota. intros Hrun.
  destruct (List_loop_inv step enc good size Hstep _ _ _ _ _ Hok Hrun)
    as (new & -> & Hall & Hlen & Hin & Hidx' & Hmax' & _).
  pose proof (Z.div_mod (codec.max dr - codec.idx dr) size ltac:(lia)) as Hdm.
  assert (Hq : 0 <= (codec.max dr - codec.idx dr) / size)
    by (apply Z.div_pos; lia).
  assert (Hn : len new = (codec.max dr - codec.idx dr) / size) by (unfold len; lia).
  exists new. repeat split; auto; try lia.
Qed.

Lemma BlobKzgs_add_Deserialize_inv (li li' : BlobKzgs) (dr dr' : codec.DecodingReader) :
  reader_ok dr ->
  BlobKzgs_add_Deserialize li dr = (None, li', dr') ->
  exists e,
    li' = li ++ [e] /\ wf_KZGCommitment e /\
    codec.input dr = e ++ codec.input dr' /\
    codec.idx dr' = codec.idx dr + 48 /\
    codec.max dr' = codec.max dr /\ reader_ok dr'.
Proof.
  intros Hok. unfold BlobKzgs_add_Deserialize.
  rewrite (lookup_app_r li) by lia. rewrite Nat.sub_diag. simpl lookup.
  unfold KZGCommitment_Deserialize.
  destruct (codec.Read dr KZGCommitment_zero) as [[[cnt err] pv'] dr1] eqn:E.
  intros [= -> <- <-].
  assert (H48 : len KZGCommitment_zero < 2 ^ 64) by (vm_compute; reflexivity).
  destruct (Read_inv _ _ _ _ _ Hok H48 E) as (Hlen & Hin & Hidx & Hmax & Hok1).
  exists pv'. simpl store.
  replace (length li) with (length li + 0)%nat at 1 by lia.
  rewrite insert_app_r. repeat split; auto; apply Hok1.
Qed.

Lemma Blobs_add_Deserialize_inv (F : Z) (a a' : Blobs) (dr dr' : codec.DecodingReader) :
  0 <= F ->
  reader_ok dr ->
  Blobs_add_Deserialize F a dr = (None, a', dr') ->
  exists e,
    a' = a ++ [e] /\ wf_Blob F e /\
    codec.input dr = concat e ++ codec.input dr' /\
    codec.idx dr' = codec.idx dr + F * 32 /\
    codec.max dr' = codec.max dr /\ reader_ok dr'.
Proof.
  intros HF Hok. unfold Blobs_add_Deserialize, Blob_Deserialize.
  rewrite (list_lookup_total_correct (a ++ [[]]) (length a) [])
    by (rewrite lookup_app_r by lia; rewrite Nat.sub_diag; reflexivity).
  destruct (ReadFieldElements dr (mkSlice [] []) F) as [[err b'] dr1] eqn:E.
  intros [= -> <- <-].
  assert (Hnil : Forall wf_BLSFieldElement
                   (elems (mkSlice (@nil BLSFieldElement) [])
                      ++ spare (mkSlice (@nil BLSFieldElement) []))) by constructor.
  destruct (ReadFieldElements_inv F _ _ _ _ HF Hok Hnil E)
    as (Hwf & Hin & Hidx & Hmax & Hok1).
  exists (elems b').
  replace (length a) with (length a + 0)%nat at 1 by lia.
  rewrite insert_app_r. repeat split; auto; apply Hok1 || apply Hwf.
Qed.

(** A successful [Deserialize] of a list reads its whole scope and appends
    what it read: the new elements are well formed, at most [2^24], and
    [Serialize] of them writes the bytes of the scope again. *)
Theorem Deserialize_list_reads_scope (FieldElementsPerBlob : Z)
    (dr dr' : codec.DecodingReader) :
  reader_ok dr ->
  (forall li li' : BlobKzgs,
      BlobKzgs_Deserialize li dr = (None, li', dr') ->
      exists new consumed,
        li' = li ++ new /\ wf_BlobKzgs new /\
        codec.input dr = consumed ++ codec.input dr' /\
        len consumed = codec.Scope dr /\
        BlobKzgs_Serialize new [] = (None, consumed)) /\
  (forall a a' : Blobs,
      0 < FieldElementsPerBlob ->
      Blobs_Deserialize FieldElementsPerBlob a dr = (None, a', dr') ->
      exists new consumed,
        a' = a ++ new /\ wf_Blobs FieldElementsPerBlob new /\
        codec.input dr = consumed ++ codec.input dr' /\
        len consumed = codec.Scope dr /\
        Blobs_Serialize FieldElementsPerBlob new [] = (None, consumed)).
Proof.
  intros Hok. pose proof Hok as [Hidx Hmax].
  assert (Hscope : codec.Scope dr = codec.max dr - codec.idx dr)
    by (unfold codec.Scope; apply u64_small; lia).
  split.
  - intros li li' Hrun. unfold BlobKzgs_Deserialize in Hrun.
    destruct (List_inv BlobKzgs_add_Deserialize (fun p => p) wf_KZGCommitment 48
                MAX_TX_WRAP_KZG_COMMITMENTS ltac:(lia) BlobKzgs_add_Deserialize_inv
                _ _ _ _ Hok Hrun)
      as (new & -> & Hall & Hlim & Hn & Hin & _).
    rewrite map_id in Hin.
    exists new, (concat new). repeat split; auto.
    + rewrite (len_concat_const new 48 Hall), Hscope. lia.
    + apply BlobKzgs_Serialize_out. unfold MAX_TX_WRAP_KZG_COMMITMENTS in Hlim. lia.
  - intros a a' HF Hrun. unfold Blobs_Deserialize in Hrun.
    destruct (List_inv (Blobs_add_Deserialize FieldElementsPerBlob) (@concat byte)
                (wf_Blob FieldElementsPerBlob) (FieldElementsPerBlob * 32)
                LIMIT_BLOBS_PER_TX ltac:(lia)
                (fun s s' dr0 dr0' =>
                   Blobs_add_Deserialize_inv FieldElementsPerBlob s s' dr0 dr0' ltac:(lia))
                _ _ _ _ Hok Hrun)
      as (new & -> & Hall & Hlim & Hn & Hin & _).
    exists new, (concat (map (@concat byte) new)). repeat split; auto.
    + rewrite (wf_Blobs_len_concat _ _ Hall), Hscope. lia.
    + apply Blobs_Serialize_out. unfold LIMIT_BLOBS_PER_TX in Hlim. lia.
Qed.

Lemma Deserialize_list_reads_scope_witness :
  let data := repeat x02 48 ++ repeat x03 48 in
  let r := BlobKzgs_Deserialize [repeat x01 48] (reader_of data) in
  exists new consumed,
    r.1.2 = [repeat x01 48] ++ new /\ wf_BlobKzgs new /\
    data = consumed ++ codec.input r.2 /\
    len consumed = 96 /\
    BlobKzgs_Serialize new [] = (None, consumed).
Proof.
  intros data r.
  assert (Hr : r = (None, r.1.2, r.2)) by (vm_compute; reflexivity).
  assert (Hok : reader_ok (reader_of data)) by (split; [split|]; vm_compute; congruence).
  exact (proj1 (Deserialize_list_reads_scope 1 (reader_of data) r.2 Hok) _ _ Hr).
Defined.

(** ** Encodings side by side *)

(** A list is encoded as its elements one after the other and nothing
    else: a commitment writes its 48 bytes, a blob the bytes of its
    scalars in order, a list of commitments the bytes of its commitments
    in order and a list of blobs the bytes of its blobs in order, each
    after what the writer already holds. So the empty list writes no
    byte, and a list in two parts is written as the first part followed by
    the second. No write fails. *)
Theorem Serialize_list_concatenates (FieldElementsPerBlob : Z)
    (w : codec.EncodingWriter) :
  (forall p : KZGCommitment, KZGCommitment_Serialize p w = (None, w ++ p)) /\
  (forall blob : Blob, Blob_Serialize blob w = (None, w ++ concat blob)) /\
  (forall li : BlobKzgs,
      len li < 2 ^ 64 ->
      BlobKzgs_Serialize li w = (None, w ++ concat li)) /\
  (forall a : Blobs,
      len a < 2 ^ 64 ->
      Blobs_Serialize FieldElementsPerBlob a w
      = (None, w ++ concat (map (@concat byte) a))) /\
  (forall li1 li2 : BlobKzgs,
      len (li1 ++ li2) < 2 ^ 64 ->
      BlobKzgs_Serialize (li1 ++ li2) w
      = BlobKzgs_Serialize li2 (BlobKzgs_Serialize li1 w).2 /\
      (BlobKzgs_Serialize (li1 ++ li2) w).1 = None) /\
  (forall a1 a2 : Blobs,
      len (a1 ++ a2) < 2 ^ 64 ->
      Blobs_Serialize FieldElementsPerBlob (a1 ++ a2) w
      = Blobs_Serialize FieldElementsPerBlob a2
          (Blobs_Serialize FieldElementsPerBlob a1 w).2 /\
      (Blobs_Serialize FieldElementsPerBlob (a1 ++ a2) w).1 = None) /\
  BlobKzgs_Serialize [] w = (None, w) /\
  Blobs_Serialize FieldElementsPerBlob [] w = (None, w).
Proof.
  split; [reflexivity|].
  split; [intros blob; apply WriteFieldElements_out|].
  split; [intros li Hlen; apply BlobKzgs_Serialize_out; exact Hlen|].
  split; [intros a Hlen; apply Blobs_Serialize_out; exact Hlen|].
  split; [|split; [|split; reflexivity]].
  - intros li1 li2 Hlen. rewrite len_app in Hlen.
    pose proof (len_nonneg li1). pose proof (len_nonneg li2).
    rewrite (BlobKzgs_Serialize_out (li1 ++ li2)) by (rewrite len_app; lia).
    rewrite (BlobKzgs_Serialize_out li1) by lia. simpl snd.
    rewrite (BlobKzgs_Serialize_out li2) by lia.
    rewrite concat_app, app_assoc. split; reflexivity.
  - intros a1 a2 Hlen. rewrite len_app in Hlen.
    pose proof (len_nonneg a1). pose proof (len_nonneg a2).
    rewrite (Blobs_Serialize_out _ (a1 ++ a2)) by (rewrite len_app; lia).
    rewrite (Blobs_Serialize_out _ a1) by lia. simpl snd.
    rewrite (Blobs_Serialize_out _ a2) by lia.
    rewrite map_app, concat_app, app_assoc. split; reflexivity.
Qed.

Lemma Serialize_list_concatenates_witness :
  let li : BlobKzgs := [repeat x01 48; repeat x02 48; repeat x03 48] in
  let a : Blobs := [[repeat x07 32; repeat x08 32]; [repeat x09 32; repeat x0a 32]] in
  BlobKzgs_Serialize li [xaa]
  = (None, [xaa] ++ repeat x01 48 ++ repeat x02 48 ++ repeat x03 48) /\
  Blobs_Serialize 2 a [xaa]
  = (None, [xaa] ++ repeat x07 32 ++ repeat x08 32 ++ repeat x09 32 ++ repeat x0a 32).
Proof.
  intros li a.
  destruct (Serialize_list_concatenates 2 [xaa]) as (_ & _ & Hkzgs & Hblobs & _).
  split.
  - rewrite (Hkzgs li) by reflexivity. reflexivity.
  - rewrite (Hblobs a) by reflexivity. reflexivity.
Defined.

Lemma BlobKzgs_ByteLength_small (li : BlobKzgs) :
  48 * len li < 2 ^ 64 -> BlobKzgs_ByteLength li = 48 * len li.
Proof.
  intros Hsize. pose proof (len_nonneg li). unfold BlobKzgs_ByteLength.
  rewrite (u64_small (len li)) by lia. rewrite u64_small by lia. lia.
Qed.

Lemma Blobs_ByteLength_small (F : Z) (a : Blobs) :
  0 < F -> len a * F * 32 < 2 ^ 64 ->
  Blobs_ByteLength F a = len a * F * 32.
Proof.
  intros HF Hsize. pose proof (len_nonneg a). unfold Blobs_ByteLength.
  rewrite (u64_small (len a)) by nia.
  rewrite (u64_small (len a * F)) by nia.
  rewrite u64_small by nia. reflexivity.
Qed.

Lemma float64_of_uint64_exact (x : Z) :
  x < 2 ^ 53 -> float64_of_uint64 x = x.
Proof.
  intros Hx. unfold float64_of_uint64.
  destruct (x <? 2 ^ 53) eqn:E; [reflexivity|]. apply Z.ltb_ge in E. lia.
Qed.

(** The conversion moves an integer by at most [2^-53] of its value. *)
Lemma float64_of_uint64_error (x : Z) :
  0 <= x -> Z.abs (float64_of_uint64 x - x) * 2 ^ 53 <= x.
Proof.
  intros Hx. unfold float64_of_uint64.
  destruct (x <? 2 ^ 53) eqn:E.
  { rewrite Z.sub_diag. simpl Z.abs. lia. }
  apply Z.ltb_ge in E.
  assert (Hpos : 0 < x) by lia.
  destruct (Z.log2_spec x Hpos) as [Hlo Hhi].
  assert (Hlog : 53 <= Z.log2 x) by (apply Z.log2_le_pow2; lia).
  set (e := Z.log2 x - 52) in *.
  assert (He : 1 <= e) by (unfold e; lia).
  assert (Hsplit : 2 ^ Z.log2 x = 2 ^ 52 * 2 ^ e).
  { rewrite <- Z.pow_add_r by lia. f_equal. unfold e. lia. }
  assert (Hhalf : 2 ^ e = 2 * 2 ^ (e - 1)).
  { replace e with (1 + (e - 1)) at 1 by lia.
    rewrite Z.pow_add_r by lia. reflexivity. }
  assert (HP : 0 < 2 ^ (e - 1)) by (apply Z.pow_pos_nonneg; lia).
  pose proof (Z.div_mod x (2 ^ e) ltac:(lia)) as Hdm.
  pose proof (Z.mod_pos_bound x (2 ^ e) ltac:(lia)) as Hr.
  cbv zeta.
  set (q := x / 2 ^ e) in *. set (r := x mod 2 ^ e) in *.
  set (h := 2 ^ (e - 1)) in *.
  change (2 ^ 53) with (2 * 2 ^ 52).
  destruct ((h <? r) || ((r =? h) && Z.odd q)) eqn:Eround.
  - assert (Hge : h <= r).
    { apply orb_true_iff in Eround as [H|H].
      - apply Z.ltb_lt in H. lia.
      - apply andb_true_iff in H as [H _]. apply Z.eqb_eq in H. lia. }
    replace ((q + 1) * 2 ^ e - x) with (2 ^ e - r) by lia.
    rewrite Z.abs_eq by lia. nia.
  - assert (Hle : r <= h).
    { apply orb_false_iff in Eround as [H _]. apply Z.ltb_ge in H. exact H. }
    replace (q * 2 ^ e - x) with (- r) by lia.
    rewrite Z.abs_opp, Z.abs_eq by lia. nia.
Qed.

Lemma sizeWrapData_sum (F : Z) (b : BlobTxWrapData) :
  0 < F ->
  8 + 48 * len (wd_BlobKzgs b) + len (wd_Blobs b) * F * 32 < 2 ^ 64 ->
  sizeWrapData F b
  = float64_of_uint64 (8 + 48 * len (wd_BlobKzgs b) + len (wd_Blobs b) * F * 32).
Proof.
  intros HF Hsize.
  pose proof (len_nonneg (wd_BlobKzgs b)). pose proof (len_nonneg (wd_Blobs b)).
  assert (0 <= len (wd_Blobs b) * F * 32) by nia.
  unfold sizeWrapData, StorageSize.
  rewrite BlobKzgs_ByteLength_small, Blobs_ByteLength_small by lia.
  rewrite (u64_small (4 + 4 + _)) by lia. rewrite u64_small by lia.
  f_equal; lia.
Qed.

Lemma sizeWrapData_small (F : Z) (b : BlobTxWrapData) :
  0 < F ->
  8 + 48 * len (wd_BlobKzgs b) + len (wd_Blobs b) * F * 32 < 2 ^ 53 ->
  sizeWrapData F b = 8 + 48 * len (wd_BlobKzgs b) + len (wd_Blobs b) * F * 32.
Proof.
  intros HF Hsize.
  rewrite sizeWrapData_sum by lia. apply float64_of_uint64_exact. exact Hsize.
Qed.

(** [sizeWrapData] is the [float64] of 8 bytes more than what the two
    lists of well-formed wrap data encode to, [n] bytes say: it is [n]
    itself while [n] is below [2^53], and from there on the nearest
    [float64], which is off [n] by at most [n / 2^53]. *)
Theorem sizeWrapData_counts_encoding (FieldElementsPerBlob : Z) (b : BlobTxWrapData) :
  0 < FieldElementsPerBlob ->
  Forall wf_KZGCommitment (wd_BlobKzgs b) ->
  Forall (wf_Blob FieldElementsPerBlob) (wd_Blobs b) ->
  8 + 48 * len (wd_BlobKzgs b) + len (wd_Blobs b) * FieldElementsPerBlob * 32 < 2 ^ 64 ->
  let n := 8 + len (BlobKzgs_Serialize (wd_BlobKzgs b) []).2
             + len (Blobs_Serialize FieldElementsPerBlob (wd_Blobs b) []).2 in
  n = 8 + 48 * len (wd_BlobKzgs b) + len (wd_Blobs b) * FieldElementsPerBlob * 32 /\
  sizeWrapData FieldElementsPerBlob b = float64_of_uint64 n /\
  (n < 2 ^ 53 -> sizeWrapData FieldElementsPerBlob b = n) /\
  Z.abs (sizeWrapData FieldElementsPerBlob b - n) * 2 ^ 53 <= n.
Proof.
  intros HF Hk Hb Hsize n.
  pose proof (len_nonneg (wd_BlobKzgs b)). pose proof (len_nonneg (wd_Blobs b)).
  assert (0 <= len (wd_Blobs b) * FieldElementsPerBlob * 32) by nia.
  assert (Hn : n = 8 + 48 * len (wd_BlobKzgs b)
                   + len (wd_Blobs b) * FieldElementsPerBlob * 32).
  { unfold n. rewrite BlobKzgs_Serialize_out, Blobs_Serialize_out by nia.
    simpl snd. simpl app.
    rewrite (len_concat_const _ 48 Hk), (wf_Blobs_len_concat _ _ Hb). lia. }
  pose proof (sizeWrapData_sum FieldElementsPerBlob b HF Hsize) as Hsz.
  rewrite <- Hn in Hsz.
  split; [exact Hn|]. split; [exact Hsz|]. split.
  - intros Hsmall. rewrite Hsz. apply float64_of_uint64_exact. exact Hsmall.
  - rewrite Hsz. apply float64_of_uint64_error. lia.
Qed.

Lemma sizeWrapData_counts_encoding_witness :
  let b := mkWrapData [repeat x01 48; repeat x02 48]
             [[repeat x07 32; repeat x08 32]] in
  sizeWrapData 2 b = 8 + 48 * 2 + 1 * 2 * 32.
Proof.
  intros b.
  destruct (sizeWrapData_counts_encoding 2 b ltac:(lia)
              ltac:(repeat constructor) ltac:(repeat constructor)
              ltac:(reflexivity)) as (Hn & _ & Hsmall & _).
  rewrite Hsmall; [exact Hn | rewrite Hn; reflexivity].
Defined.

(** From [2^53] bytes on the size is no longer the exact count: with
    [2^52] scalars to a blob, the byte lengths of one commitment and one
    blob and the 8 bytes sum to [144115188075855928], and the size is
    reported as [144115188075855936]. *)
Example sizeWrapData_rounds :
  sizeWrapData (2 ^ 52) (mkWrapData [repeat x01 48] [[]]) = 144115188075855936 /\
  8 + BlobKzgs_ByteLength [repeat x01 48] + Blobs_ByteLength (2 ^ 52) [[]]
  = 144115188075855928.
Proof. split; vm_compute; reflexivity. Qed.

(** [float64_of_uint64] agrees with the Standard Library's IEEE 754
    specification where both are run. *)
Example float64_of_uint64_ieee :
  Forall (fun x => ieee_float64_of_uint64 x = Some (float64_of_uint64 x))
    [0; 1; 12345; 2 ^ 32; 2 ^ 53 - 1; 2 ^ 53; 2 ^ 53 + 1; 2 ^ 53 + 2; 2 ^ 53 + 3;
     2 ^ 54 - 1; 144115188075855928; 2 ^ 60 + 128; 2 ^ 60 + 129; 2 ^ 60 + 384;
     2 ^ 63; 2 ^ 64 - 1025; 2 ^ 64 - 1024; 2 ^ 64 - 1].
Proof. repeat constructor. Qed.

(** ** The typed encoding of wrap data *)

Section EncodeTyped.

Variable FieldElementsPerBlob : Z.
Variable SignedBlobTx : Type.
Variable SignedBlobTx_FixedLength : Z.
Variable SignedBlobTx_ByteLength : SignedBlobTx -> Z.
Variable SignedBlobTx_Serialize :
  SignedBlobTx -> codec.EncodingWriter -> option error * codec.EncodingWriter.
Variable SignedBlobTx_Deserialize :
  SignedBlobTx -> codec.DecodingReader -> option error * SignedBlobTx * codec.DecodingReader.
Variable BlobTxType : byte.

Local Abbreviation Wrapper_Serialize :=
  (BlobTxWrapper_Serialize FieldElementsPerBlob SignedBlobTx SignedBlobTx_FixedLength
     SignedBlobTx_ByteLength SignedBlobTx_Serialize SignedBlobTx_Deserialize).
Local Abbreviation Wrapper_Deserialize :=
  (BlobTxWrapper_Deserialize FieldElementsPerBlob SignedBlobTx SignedBlobTx_FixedLength
     SignedBlobTx_ByteLength SignedBlobTx_Serialize SignedBlobTx_Deserialize).
Local Abbreviation encode :=
  (encodeTyped FieldElementsPerBlob SignedBlobTx SignedBlobTx_FixedLength
     SignedBlobTx_ByteLength SignedBlobTx_Serialize SignedBlobTx_Deserialize BlobTxType).
Local Abbreviation tx_ok :=
  (tx_codec_ok SignedBlobTx_FixedLength SignedBlobTx_ByteLength
     SignedBlobTx_Serialize SignedBlobTx_Deserialize).

(** The container of a wrapper, written after whatever the writer holds. *)
Lemma BlobTxWrapper_Serialize_after (tx tx0 : SignedBlobTx) (txbytes : list byte)
    (li : BlobKzgs) (a : Blobs) (w : codec.EncodingWriter) :
  tx_ok tx tx0 txbytes ->
  Forall wf_KZGCommitment li ->
  Forall (wf_Blob FieldElementsPerBlob) a ->
  0 < FieldElementsPerBlob ->
  12 + len txbytes + 48 * len li + FieldElementsPerBlob * 32 * len a < 2 ^ 32 ->
  Wrapper_Serialize (mkWrapper SignedBlobTx tx li a) w
  = (None,
     w ++ codec.PutUint32 12 ++ codec.PutUint32 (12 + len txbytes)
       ++ codec.PutUint32 (12 + len txbytes + 48 * len li)
       ++ txbytes ++ concat li ++ concat (map (@concat byte) a)).
Proof.
  intros (Hfixed & Hser & Hbl & _) Hli Ha HF Hsize.
  pose proof (len_nonneg txbytes). pose proof (len_nonneg li).
  pose proof (len_nonneg a).
  assert (Hprod : 0 <= FieldElementsPerBlob * 32 * len a) by nia.
  unfold BlobTxWrapper_Serialize, codec.WriteContainer.
  cbn [codec.fixed_part_length codec.WriteContainer_fixed codec.WriteContainer_variable
       codec.FixedLength codec.ByteLength codec.Serialize field_Tx field_BlobKzgs
       field_Blobs txw_Tx txw_BlobKzgs txw_Blobs].
  rewrite Hfixed. unfold BlobKzgs_FixedLength, Blobs_FixedLength.
  change (0 =? 0) with true. cbv iota.
  unfold codec.WriteOffset, codec.Write. cbv iota beta.
  rewrite Hser, Hbl.
  rewrite BlobKzgs_Serialize_out by lia.
  rewrite Blobs_Serialize_out by nia.
  rewrite BlobKzgs_ByteLength_small by lia.
  change (4 + (4 + (4 + 0))) with 12.
  rewrite (u64_small (12 + len txbytes)) by lia.
  rewrite (u64_small (12 + len txbytes + 48 * len li)) by lia.
  rewrite <- !app_assoc. reflexivity.
Qed.

(** [encodeTyped] writes the type byte before it looks at the
    transaction: for a transaction of another type it returns an error
    with that byte already written. For a signed blob transaction it
    writes the type byte followed by the wrapper's container, which
    [Deserialize] reads back as the transaction, the commitments and the
    blobs, and which is [4 + len(tx bytes) + sizeWrapData] bytes long. *)
Theorem encodeTyped_writes_tag_first (b : BlobTxWrapData) (w : list byte) :
  encode b w (TxOther SignedBlobTx) = (Some ErrExpectedSignedBlobTx, w ++ [BlobTxType]) /\
  (forall (tx tx0 : SignedBlobTx) (txbytes : list byte),
      tx_ok tx tx0 txbytes ->
      wf_BlobKzgs (wd_BlobKzgs b) ->
      wf_Blobs FieldElementsPerBlob (wd_Blobs b) ->
      0 < FieldElementsPerBlob ->
      12 + len txbytes + 48 * len (wd_BlobKzgs b)
        + FieldElementsPerBlob * 32 * len (wd_Blobs b) < 2 ^ 32 ->
      exists data,
        encode b w (TxSignedBlobTx SignedBlobTx tx) = (None, w ++ BlobTxType :: data) /\
        Wrapper_Deserialize (mkWrapper SignedBlobTx tx0 [] []) (reader_of data)
        = (None, mkWrapper SignedBlobTx tx (wd_BlobKzgs b) (wd_Blobs b),
           codec.mkReader [] (len data) (len data)) /\
        len data = 4 + len txbytes + sizeWrapData FieldElementsPerBlob b).
Proof.
  split; [reflexivity|].
  intros tx tx0 txbytes Htx Hli Ha HF Hsize.
  eexists. split; [|split].
  - unfold encodeTyped, io_Write, EncodeSSZ.
    rewrite (BlobTxWrapper_Serialize_after tx tx0 txbytes _ _ _ Htx (proj1 Hli) (proj1 Ha)
               HF Hsize).
    rewrite <- app_assoc. reflexivity.
  - apply (BlobTxWrapper_Deserialize_ok FieldElementsPerBlob SignedBlobTx
             SignedBlobTx_FixedLength SignedBlobTx_ByteLength SignedBlobTx_Serialize
             SignedBlobTx_Deserialize tx tx0 txbytes _ _ Htx Hli Ha HF Hsize).
  - pose proof (len_nonneg txbytes). pose proof (len_nonneg (wd_BlobKzgs b)).
    pose proof (len_nonneg (wd_Blobs b)).
    rewrite (sizeWrapData_small FieldElementsPerBlob b HF) by nia.
    rewrite !len_app, (len_concat_const _ 48 (proj1 Hli)),
      (wf_Blobs_len_concat _ _ (proj1 Ha)).
    unfold codec.PutUint32, len. simpl length. lia.
Qed.

End EncodeTyped.

Lemma encodeTyped_writes_tag_first_witness :
  let tx : Demo.SignedBlobTx := [repeat x05 32] in
  let b := mkWrapData [repeat x01 48] [[repeat x07 32; repeat x08 32]] in
  exists data,
    encodeTyped 2 Demo.SignedBlobTx Demo.SignedBlobTx_FixedLength
      Demo.SignedBlobTx_ByteLength Demo.SignedBlobTx_Serialize
      Demo.SignedBlobTx_Deserialize x05 b [] (TxSignedBlobTx Demo.SignedBlobTx tx)
    = (None, [] ++ x05 :: data) /\
    BlobTxWrapper_Deserialize 2 Demo.SignedBlobTx Demo.SignedBlobTx_FixedLength
      Demo.SignedBlobTx_ByteLength Demo.SignedBlobTx_Serialize
      Demo.SignedBlobTx_Deserialize (mkWrapper Demo.SignedBlobTx [] [] []) (reader_of data)
    = (None, mkWrapper Demo.SignedBlobTx tx (wd_BlobKzgs b) (wd_Blobs b),
       codec.mkReader [] (len data) (len data)) /\
    len data = 4 + len (repeat x05 32) + sizeWrapData 2 b.
Proof.
  intros tx b.
  apply (proj2 (encodeTyped_writes_tag_first 2 Demo.SignedBlobTx
                  Demo.SignedBlobTx_FixedLength Demo.SignedBlobTx_ByteLength
                  Demo.SignedBlobTx_Serialize Demo.SignedBlobTx_Deserialize x05 b [])
           tx [] (repeat x05 32)).
  - split; [reflexivity|]. split; [intros w; reflexivity|].
    split; [reflexivity | intros rest; reflexivity].
  - split; [repeat constructor | vm_compute; congruence].
  - split; [repeat constructor | vm_compute; congruence].
  - lia.
  - reflexivity.
Defined.

(** ** Copies *)

Lemma Blob_copy_id (blob : Blob) : Blob_copy blob = blob.
Proof. unfold Blob_copy. apply go_copy_full. apply repeat_length. Qed.

Lemma Blobs_copy_loop_fills (blobs : Blobs) :
  forall (cpy : Blobs) (i : nat),
    (i + length blobs <= length cpy)%nat ->
    Blobs_copy_loop cpy i blobs
    = take i cpy ++ blobs ++ drop (i + length blobs) cpy.
Proof.
  induction blobs as [|bl blobs IH]; intros cpy i Hfit; simpl in *.
  - rewrite Nat.add_0_r, take_drop. reflexivity.
  - rewrite IH by (rewrite length_insert; lia).
    rewrite Blob_copy_id, drop_insert_lt by lia.
    rewrite (take_S_r _ i bl) by (apply list_lookup_insert_eq; lia).
    rewrite take_insert_ge by lia.
    rewrite <- app_assoc. cbn [app].
    replace (S i + length blobs)%nat with (i + S (length blobs))%nat by lia.
    reflexivity.
Qed.

(** A copy is equal to what it copies: [copy] of a blob, of a commitment
    list, of a blob list and of wrap data returns all the elements, in
    their order and with their bytes, for lists of any length. *)
Theorem copy_returns_equal_value (b : BlobTxWrapData) (blob : Blob)
    (li : BlobKzgs) (blobs : Blobs) :
  Blob_copy blob = blob /\
  BlobKzgs_copy li = li /\
  Blobs_copy blobs = blobs /\
  BlobTxWrapData_copy b = b /\
  BlobTxWrapData_kzgs (BlobTxWrapData_copy b) = BlobTxWrapData_kzgs b /\
  BlobTxWrapData_blobs (BlobTxWrapData_copy b) = BlobTxWrapData_blobs b.
Proof.
  assert (Hk : forall l : BlobKzgs, BlobKzgs_copy l = l).
  { intros l. unfold BlobKzgs_copy. apply go_copy_full. apply repeat_length. }
  assert (Hb : forall l : Blobs, Blobs_copy l = l).
  { intros l. unfold Blobs_copy.
    rewrite Blobs_copy_loop_fills by (rewrite repeat_length; lia).
    simpl. rewrite drop_ge by (rewrite repeat_length; lia). apply app_nil_r. }
  assert (Hw : BlobTxWrapData_copy b = b).
  { unfold BlobTxWrapData_copy. rewrite Hk, Hb. destruct b; reflexivity. }
  repeat split; auto; try apply Blob_copy_id; rewrite Hw; reflexivity.
Qed.

(** *** Copies in a store *)

Lemma Store_read_app (st ext : list (list BLSFieldElement)) (r : Store.BlobRef) :
  Store.valid st r -> Store.read (st ++ ext) r = Store.read st r.
Proof.
  intros [Haddr _]. unfold Store.read. rewrite lookup_total_app_l by exact Haddr.
  reflexivity.
Qed.

Lemma Store_valid_app (st ext : list (list BLSFieldElement)) (r : Store.BlobRef) :
  Store.valid st r -> Store.valid (st ++ ext) r.
Proof.
  intros [Haddr Hlen]. split.
  - rewrite length_app. lia.
  - rewrite lookup_total_app_l by exact Haddr. exact Hlen.
Qed.

Lemma Store_read_length (st : list (list BLSFieldElement)) (r : Store.BlobRef) :
  Store.valid st r -> length (Store.read st r) = Store.ref_len r.
Proof. intros [_ Hlen]. unfold Store.read. rewrite length_take. lia. Qed.

(** [Blob.copy] puts the elements of the blob in a new array at the end
    of the store. *)
Lemma Store_Blob_copy_spec (st : list (list BLSFieldElement)) (blob : Store.BlobRef) :
  Store.valid st blob ->
  Store.Blob_copy st blob
  = (Store.mkRef (length st) (Store.ref_len blob), st ++ [Store.read st blob]).
Proof.
  intros Hvalid. unfold Store.Blob_copy, Store.make, Store.copy_into.
  cbn [Store.ref_addr Store.ref_len]. f_equal.
  rewrite (Store_read_app st _ blob Hvalid).
  unfold Store.read at 1. cbn [Store.ref_addr Store.ref_len].
  rewrite list_lookup_total_middle by reflexivity.
  rewrite take_ge, drop_ge by (rewrite repeat_length; lia).
  rewrite app_nil_r.
  rewrite go_copy_full by (rewrite repeat_length, Store_read_length; auto).
  replace (length st) with (length st + 0)%nat at 1 by lia.
  rewrite insert_app_r. reflexivity.
Qed.

Lemma Store_Blobs_copy_loop_spec (blobs : list Store.BlobRef) :
  forall (st : list (list BLSFieldElement)) (cpy cpy' : list Store.BlobRef) (i : nat)
         (st' : list (list BLSFieldElement)),
    Forall (Store.valid st) blobs ->
    (i + length blobs <= length cpy)%nat ->
    Store.Blobs_copy_loop st cpy i blobs = (cpy', st') ->
    st' = st ++ map (Store.read st) blobs /\
    length cpy' = length cpy /\
    (forall j, (j < i)%nat -> cpy' !! j = cpy !! j) /\
    (forall k bl, blobs !! k = Some bl ->
                  cpy' !! (i + k)%nat
                  = Some (Store.mkRef (length st + k) (Store.ref_len bl))).
Proof.
  induction blobs as [|bl blobs IH]; intros st cpy cpy' i st' Hvalid Hfit Hrun.
  - simpl in Hrun. injection Hrun as <- <-. rewrite app_nil_r.
    repeat split; auto. intros k bl Hk. discriminate.
  - cbn [Store.Blobs_copy_loop] in Hrun. simpl in Hfit.
    inversion Hvalid as [|? ? Hbl Hrest]; subst.
    rewrite (Store_Blob_copy_spec st bl Hbl) in Hrun.
    set (c := Store.mkRef (length st) (Store.ref_len bl)) in *.
    assert (Hfit' : (S i + length blobs <= length (<[i:=c]> cpy))%nat)
      by (rewrite length_insert; lia).
    destruct (IH _ _ _ _ _
                (Forall_impl _ _ _ Hrest (fun r Hr => Store_valid_app st _ r Hr))
                Hfit' Hrun)
      as (Hst & Hlen & Hbelow & Hnew).
    rewrite length_insert in Hlen.
    split; [|split; [exact Hlen | split]].
    + rewrite Hst, <- app_assoc. cbn [app map]. do 2 f_equal.
      clear - Hrest. induction Hrest as [|r rs Hr _ IHr]; [reflexivity|].
      cbn [map]. rewrite IHr, (Store_read_app st _ r Hr). reflexivity.
    + intros j Hj. rewrite Hbelow by lia. apply list_lookup_insert_ne. lia.
    + intros k b Hk. destruct k as [|k].
      * simpl in Hk. injection Hk as <-. rewrite !Nat.add_0_r.
        rewrite Hbelow by lia. apply list_lookup_insert_eq. lia.
      * simpl in Hk. replace (i + S k)%nat with (S i + k)%nat by lia.
        rewrite (Hnew k b Hk). rewrite length_app. simpl. do 2 f_equal. lia.
Qed.

(** [Blobs.copy] is a deep copy. The copies hold the elements of the blobs
    they copy, the blobs themselves are as before, and no array is shared:
    writing an element through a copy leaves every original blob as it
    was, and writing through an original leaves every copy as it was. *)
Theorem Blobs_copy_shares_no_storage
    (st st' : list (list BLSFieldElement)) (blobs cpy : list Store.BlobRef) :
  Forall (Store.valid st) blobs ->
  Store.Blobs_copy st blobs = (cpy, st') ->
  map (Store.read st') cpy = map (Store.read st) blobs /\
  (forall r, r ∈ blobs -> Store.read st' r = Store.read st r) /\
  (forall c r i e st'',
      c ∈ cpy -> r ∈ blobs -> Store.write st' c i e = Some st'' ->
      Store.read st'' r = Store.read st r) /\
  (forall c r i e st'',
      c ∈ cpy -> r ∈ blobs -> Store.write st' r i e = Some st'' ->
      Store.read st'' c = Store.read st' c).
Proof.
  intros Hvalid Hrun. unfold Store.Blobs_copy in Hrun.
  assert (Hfit : (0 + length blobs <= length (repeat Store.nil_ref (length blobs)))%nat)
    by (rewrite repeat_length; lia).
  destruct (Store_Blobs_copy_loop_spec blobs st _ cpy 0 st' Hvalid Hfit Hrun)
    as (Hst & Hlen & _ & Hnew).
  rewrite repeat_length in Hlen.
  assert (Hfresh : forall c, c ∈ cpy ->
            exists k bl, blobs !! k = Some bl /\
                         c = Store.mkRef (length st + k) (Store.ref_len bl)).
  { intros c Hc. apply list_elem_of_lookup in Hc. destruct Hc as [k Hk].
    destruct (lookup_lt_is_Some_2 blobs k) as [bl Hbl].
    { rewrite <- Hlen. apply (lookup_lt_Some _ _ _ Hk). }
    exists k, bl. split; [exact Hbl|].
    specialize (Hnew k bl Hbl). simpl in Hnew. congruence. }
  assert (Hold : forall r, r ∈ blobs -> Store.valid st r).
  { rewrite Forall_forall in Hvalid. exact Hvalid. }
  repeat split.
  - apply list_eq. intros k. rewrite !list_lookup_fmap.
    destruct (blobs !! k) as [bl|] eqn:Hbl.
    + pose proof (Hnew k bl Hbl) as Hk. simpl in Hk. rewrite Hk. simpl. f_equal.
      unfold Store.read at 1. cbn [Store.ref_addr Store.ref_len].
      rewrite Hst, lookup_total_app_r by lia.
      replace (length st + k - length st)%nat with k by lia.
      rewrite (list_lookup_total_correct _ k (Store.read st bl))
        by (rewrite list_lookup_fmap, Hbl; reflexivity).
      apply take_ge. rewrite Store_read_length; [lia|].
      apply Hold. apply list_elem_of_lookup. eauto.
    + rewrite (lookup_ge_None_2 cpy k); [reflexivity|].
      apply lookup_ge_None_1 in Hbl. lia.
  - intros r Hr. rewrite Hst. apply Store_read_app. apply Hold. exact Hr.
  - intros c r i e st'' Hc Hr Hwrite.
    destruct (Hfresh c Hc) as (k & bl & _ & ->).
    destruct (Hold r Hr) as [Haddr Hrlen].
    unfold Store.write in Hwrite. cbn [Store.ref_addr Store.ref_len] in Hwrite.
    destruct (i <? Store.ref_len bl)%nat; [|discriminate].
    injection Hwrite as <-. unfold Store.read.
    rewrite list_lookup_total_insert_ne by lia.
    rewrite Hst, lookup_total_app_l by exact Haddr. reflexivity.
  - intros c r i e st'' Hc Hr Hwrite.
    destruct (Hfresh c Hc) as (k & bl & _ & ->).
    destruct (Hold r Hr) as [Haddr Hrlen].
    unfold Store.write in Hwrite.
    destruct (i <? Store.ref_len r)%nat; [|discriminate].
    injection Hwrite as <-. unfold Store.read. cbn [Store.ref_addr Store.ref_len].
    rewrite list_lookup_total_insert_ne by lia. reflexivity.
Qed.

Lemma Blobs_copy_shares_no_storage_witness :
  let st : list (list BLSFieldElement) :=
    [[repeat x01 32; repeat x02 32]; [repeat x03 32]] in
  let blobs := [Store.mkRef 0 2; Store.mkRef 1 1] in
  let r := Store.Blobs_copy st blobs in
  map (Store.read r.2) r.1 = map (Store.read st) blobs /\
  (forall st'', Store.write r.2 (Store.mkRef 2 2) 0 (repeat xff 32) = Some st'' ->
                Store.read st'' (Store.mkRef 0 2) = Store.read st (Store.mkRef 0 2)).
Proof.
  intros st blobs r.
  assert (Hvalid : Forall (Store.valid st) blobs).
  { repeat constructor; vm_compute; lia. }
  destruct (Blobs_copy_shares_no_storage st r.2 blobs r.1 Hvalid eq_refl)
    as (Hsame & _ & Hwrite & _).
  split; [exact Hsame|].
  intros st'' Hw.
  apply (Hwrite (Store.mkRef 2 2) (Store.mkRef 0 2) 0%nat (repeat xff 32) st'').
  - vm_compute. apply list_elem_of_here.
  - apply list_elem_of_here.
  - exact Hw.
Defined.

(** ** More on the versioned hash *)

(** The versioned hash keeps bytes 1 to 31 of the digest and nothing of
    byte 0: two commitments have the same versioned hash exactly when
    their digests agree from byte 1 on. *)
Theorem ComputeVersionedHash_drops_first_byte
    (Keccak256Hash : list byte -> Hash) (p q : KZGCommitment) :
  wf_Hash (Keccak256Hash p) -> wf_Hash (Keccak256Hash q) ->
  KZGCommitment_ComputeVersionedHash Keccak256Hash p
  = KZGCommitment_ComputeVersionedHash Keccak256Hash q <->
  drop 1 (Keccak256Hash p) = drop 1 (Keccak256Hash q).
Proof.
  unfold wf_Hash, KZGCommitment_ComputeVersionedHash. intros Hp Hq.
  destruct (Keccak256Hash p) as [|a hp]; [discriminate|].
  destruct (Keccak256Hash q) as [|b hq]; [discriminate|].
  change (drop 1 (a :: hp)) with hp. change (drop 1 (b :: hq)) with hq.
  change (<[0%nat:=BLOB_COMMITMENT_VERSION_KZG]> (a :: hp))
    with (BLOB_COMMITMENT_VERSION_KZG :: hp).
  change (<[0%nat:=BLOB_COMMITMENT_VERSION_KZG]> (b :: hq))
    with (BLOB_COMMITMENT_VERSION_KZG :: hq).
  split; intros H; [injection H as H; exact H | f_equal; exact H].
Qed.

Lemma ComputeVersionedHash_drops_first_byte_witness :
  KZGCommitment_ComputeVersionedHash Demo.Keccak256Hash (x01 :: repeat x07 47)
  = KZGCommitment_ComputeVersionedHash Demo.Keccak256Hash (x02 :: repeat x07 47).
Proof.
  apply (ComputeVersionedHash_drops_first_byte Demo.Keccak256Hash).
  - reflexivity.
  - reflexivity.
  - reflexivity.
Defined.
